(** * G-code art generator: toolpath synthesis engine

    A shallow embedding of the toolpath core of [script.js]: the Hilbert
    curve generator, the motion encoder [writeMove], the clip test and the
    squiggle modulator of [doSmartMove], the brightness sampler and the pan
    and zoom handlers that set its view, the three base generators, the
    five path drivers (zigzag, diagonal, Hilbert, square spiral and
    Archimedean spiral) and the template merger [mergeWithTemplate].

    Number model.  JavaScript numbers are IEEE-754 doubles.  Where the
    program only manipulates small integers (the Hilbert curve) they are
    modelled exactly as [Z], with the 32-bit conversions of the bit operators
    written out.  Where the program computes with lengths and angles they
    are idealised as real numbers [R]; the rounding of each floating-point
    operation is not modelled, the rounding done by [toFixed] is. *)

From Stdlib Require Import ZArith List Bool Lia.
From Stdlib Require Import Reals Lra.
From Stdlib Require Import Ascii String.
Import ListNotations.

(* ================================================================== *)
(** * Part I.  Definitions *)
(* ================================================================== *)

(** ** Integer helpers of the JavaScript bit operators *)

Module JS.
Local Open Scope Z_scope.

(** [ToInt32]: the operand conversion of [<<], [&] and [^] on an
    integer-valued number: reduction modulo 2^32 into [-2^31, 2^31). *)
Definition ToInt32 (z : Z) : Z := (z + 2 ^ 31) mod 2 ^ 32 - 2 ^ 31.

(** [a << b]: the shift count is taken modulo 32, the result is an int32. *)
Definition shl (a b : Z) : Z := ToInt32 (Z.shiftl (ToInt32 a) (b mod 32)).

(** [a & b] and [a ^ b] on two's-complement integers. *)
Definition and (a b : Z) : Z := Z.land (ToInt32 a) (ToInt32 b).
Definition xor (a b : Z) : Z := Z.lxor (ToInt32 a) (ToInt32 b).

End JS.

(** ** The Hilbert curve ([hilbert], script.js 238-261) *)

Module Hilbert.
Local Open Scope Z_scope.

(** One pass through the body of the [for] loop at scale [s].
    [1 & (t / 2)]: the operand [t / 2] is a double, [&] truncates it, hence
    [Z.quot]; [Math.floor(t / 4)] is [t / 4]. *)
Definition body (s : Z) (st : Z * Z * Z) : Z * Z * Z :=
  let '(x, y, t) := st in
  let rx := JS.and 1 (Z.quot t 2) in
  let ry := JS.and 1 (JS.xor t rx) in
  let '(x, y) :=
    if ry =? 0 then
      let '(x, y) := if rx =? 1 then (s - 1 - x, s - 1 - y) else (x, y) in
      (y, x)
    else (x, y) in
  (x + s * rx, y + s * ry, t / 4).

(** [for (s = 1; s < n; s *= 2) body].  The recursion is on a fuel argument;
    running out of fuel is reported as [None]. *)
Fixpoint loop (fuel : nat) (n s : Z) (st : Z * Z * Z) : option (Z * Z) :=
  if s <? n then
    match fuel with
    | O => None
    | S fuel' => loop fuel' n (s * 2) (body s st)
    end
  else let '(x, y, _) := st in Some (x, y).

(** [hilbert(order, d)]: [n = 1 << order], [x = y = 0], [t = d]. *)
Definition hilbert (order d : Z) : option (Z * Z) :=
  let n := JS.shl 1 order in
  loop (Z.to_nat n) n 1 (0, 0, d).

(** The curve written recursively, used to reason about the loop.  [quad s q p]
    places the point [p] of the [s x s] sub-square in quadrant [q] of the
    [2s x 2s] square; [curve k d] reads the [k] low base-4 digits of [d]. *)
Definition quad (s q : Z) (p : Z * Z) : Z * Z :=
  let '(x, y) := p in
  if q =? 0 then (y, x)
  else if q =? 1 then (x, y + s)
  else if q =? 2 then (x + s, y + s)
  else (s - 1 - y + s, s - 1 - x).

Fixpoint curve (k : nat) (d : Z) : Z * Z :=
  match k with
  | O => (0, 0)
  | S k' => quad (2 ^ Z.of_nat k') ((d / 4 ^ Z.of_nat k') mod 4) (curve k' d)
  end.

(** Grid distances between two cells. *)
Definition manhattan (p q : Z * Z) : Z :=
  Z.abs (fst p - fst q) + Z.abs (snd p - snd q).
Definition chebyshev (p q : Z * Z) : Z :=
  Z.max (Z.abs (fst p - fst q)) (Z.abs (snd p - snd q)).

End Hilbert.

(** ** The template merger ([mergeWithTemplate], script.js 1982-2026) *)

Module Merge.
Local Open Scope string_scope.
Local Open Scope Z_scope.

Definition LF : ascii := ascii_of_nat 10.
Definition CR : ascii := ascii_of_nat 13.
(** The one-character string written "\n" in the source. *)
Definition nl : string := String LF EmptyString.

(** [s.split(/\r?\n/)]: the separators are "\r\n" and "\n"; a "\r" that is
    not followed by "\n" stays in its line.  The result is never empty. *)
Fixpoint split_lines (s : string) : list string :=
  match s with
  | EmptyString => [EmptyString]
  | String c rest =>
      let keep :=
        match split_lines rest with
        | l :: ls => String c l :: ls
        | [] => [String c EmptyString]
        end in
      if Ascii.eqb c LF then EmptyString :: split_lines rest
      else if Ascii.eqb c CR then
        match rest with
        | String c' rest' =>
            if Ascii.eqb c' LF then EmptyString :: split_lines rest' else keep
        | EmptyString => keep
        end
      else keep
  end.

(** [toUpperCase] on the ASCII letters (template text outside ASCII is not
    modelled). *)
Definition upper_char (c : ascii) : ascii :=
  let n := nat_of_ascii c in
  if ((97 <=? n) && (n <=? 122))%nat then ascii_of_nat (n - 32) else c.

Fixpoint toUpperCase (s : string) : string :=
  match s with
  | EmptyString => EmptyString
  | String c rest => String (upper_char c) (toUpperCase rest)
  end.

(** [s.includes(pat)]: [pat] occurs in [s] at some position. *)
Fixpoint includes (s pat : string) : bool :=
  String.prefix pat s ||
  match s with
  | EmptyString => false
  | String _ rest => includes rest pat
  end.

(** [lines.join("\n")]. *)
Definition join (lines : list string) : string := String.concat nl lines.

(** The marker scan: [for (i = 0; i < lines.length; i++)], keeping the index
    of the last line that contains each marker. *)
Fixpoint scan (lines : list string) (i startIndex endIndex : Z) : Z * Z :=
  match lines with
  | [] => (startIndex, endIndex)
  | l :: rest =>
      let line := toUpperCase l in
      let startIndex := if includes line ";START_ART" then i else startIndex in
      let endIndex := if includes line ";END_ART" then i else endIndex in
      scan rest (i + 1) startIndex endIndex
  end.

(** [lines.slice(a)] and [lines.slice(0, b)] for non-negative [a], [b]. *)
Definition slice_from (a : Z) (lines : list string) : list string :=
  skipn (Z.to_nat a) lines.
Definition slice_to (b : Z) (lines : list string) : list string :=
  firstn (Z.to_nat b) lines.

(** [getElement("filamentChangeMode")?.value || "manual"]: a missing element
    and an empty value both give "manual". *)
Definition changeMode (value : option string) : string :=
  match value with
  | Some v => if String.eqb v EmptyString then "manual" else v
  | None => "manual"
  end.

Definition changeCommand (mode : string) : string :=
  if String.eqb mode "manual"
  then nl ++ "; --- MANUAL PAUSE ---" ++ nl ++ "M600" ++ nl
  else EmptyString.

(** [!appState.gcodeTemplateContent]: true for [null] and for the empty
    string. *)
Definition falsy (template : option string) : bool :=
  match template with
  | None => true
  | Some t => String.eqb t EmptyString
  end.

(** What [getElement(id)] logs (script.js 59-65): the warning
    "Element not found: <id>" when the document has no such element, nothing
    otherwise.  [element] is [None] for a missing element. *)
Definition getElement_warns {A : Type} (id : string) (element : option A) : list string :=
  match element with
  | Some _ => []
  | None => ["Element not found: " ++ id]
  end.

(** [mergeWithTemplate(artGcode)].  [template] is
    [appState.gcodeTemplateContent], [modeValue] the value of the
    filament-change selector, [None] when the selector is missing from the
    document.  The second component is the list of [console.warn] messages:
    that of the marker scan, or that of the [getElement] call, which is
    reached only when the start marker was found. *)
Definition mergeWithTemplate
    (template : option string) (modeValue : option string) (artGcode : string)
  : string * list string :=
  match template with
  | None => (artGcode, [])
  | Some content =>
    if falsy template then (artGcode, [])
    else
      let lines := split_lines content in
      let '(startIndex, endIndex) := scan lines 0 (-1) (-1) in
      if startIndex =? -1 then
        (content ++ nl ++ artGcode, ["Marker ;START_ART not found in template"])
      else
        let header := join (slice_to (startIndex + 1) lines) in
        let footer :=
          if negb (endIndex =? -1) && (startIndex <? endIndex)
          then join (slice_from endIndex lines)
          else join (slice_from (startIndex + 1) lines) in
        let mode := changeMode modeValue in
        let finalGcode :=
          header ++ changeCommand mode ++ nl ++ "; --- START ARTWORK ---" ++ nl
                 ++ artGcode ++ nl ++ "; --- END ARTWORK ---" ++ nl in
        (finalGcode ++ footer, getElement_warns "filamentChangeMode" modeValue)
  end.

(** The end of [processImageCore]: the generated lines are joined and merged,
    and the result becomes [appState.gcodeContent]. *)
Definition finalGcode
    (template modeValue : option string) (gcode : list string) : string :=
  fst (mergeWithTemplate template modeValue (join gcode)).

(** The template and artwork block of the merge round-trip property. *)
Definition roundtrip_template : string :=
  "A" ++ nl ++ ";START_ART" ++ nl ++ "X" ++ nl ++ ";END_ART" ++ nl ++ "B".
Definition roundtrip_header : string := "A" ++ nl ++ ";START_ART".
Definition roundtrip_footer : string := ";END_ART" ++ nl ++ "B".
Definition artwork_frame (art : string) : string :=
  nl ++ "; --- START ARTWORK ---" ++ nl ++ art ++ nl ++ "; --- END ARTWORK ---" ++ nl.

End Merge.

(** ** The toolpath core of [processImageCore] (script.js 1069-1660) *)

Module Core.
Local Open Scope R_scope.

Definition TWO_PI : R := 2 * PI.
Definition MAX_LOOP_ITERATIONS : Z := 100000.

(** *** Numbers *)

Definition Rltb (a b : R) : bool := if Rlt_dec a b then true else false.
Definition Rleb (a b : R) : bool := if Rle_dec a b then true else false.

(** [Math.hypot(a, b)]. *)
Definition hypot (a b : R) : R := sqrt (a * a + b * b).

(** [Math.pow(b, e)] for a base in [0, 1] and a positive exponent, the only
    use the program makes of it ([Rpower] alone would give 1 at base 0). *)
Definition pow_js (b e : R) : R := if Rleb b 0 then 0 else Rpower b e.

(** [x.toFixed(digits)], as the integer [n] whose decimal expansion shifted
    by [digits] places is the text produced: [n / 10^digits] is as close to
    [x] as possible and a tie goes to the larger magnitude.  (The sign that
    JavaScript prints in front of a negative number rounded to zero is not
    kept.) *)
Definition toFixed (x : R) (digits : nat) : Z :=
  if Rltb x 0 then (- Zfloor (- x * 10 ^ digits + / 2))%Z
  else Zfloor (x * 10 ^ digits + / 2).

(** *** Instructions

    An [Instr] is one [gcode.push] of a template literal, with the numbers
    that are substituted into it; [render] is the text of the line, each
    number formatted by [toFixed]. *)
Inductive Instr : Type :=
| Comment (text : string)              (* a fixed line: comment or directive *)
| Travel (x y : R)                     (* G0 X Y F6000 *)
| Print (x y e f : R)                  (* G1 X Y E F *)
| LayerZ (z : R) (layer baseLayers : Z) (* G1 Z F1000 ; Base layer l/n *)
| MoveZ (z : R)                        (* G1 Z F1000 *)
| TravelZ (z : R).                     (* G0 Z F6000 *)

Inductive Text : Type :=
| TComment (text : string)
| TG0 (X Y F : Z)                      (* X, Y in thousandths *)
| TG1 (X Y E F : Z)                    (* E in hundred-thousandths *)
| TLayerZ (Z1000 layer baseLayers : Z)
| TMoveZ (Z1000 : Z)
| TTravelZ (Z1000 : Z).

Definition render (i : Instr) : Text :=
  match i with
  | Comment s => TComment s
  | Travel x y => TG0 (toFixed x 3) (toFixed y 3) 6000
  | Print x y e f => TG1 (toFixed x 3) (toFixed y 3) (toFixed e 5) (toFixed f 0)
  | LayerZ z l n => TLayerZ (toFixed z 3) l n
  | MoveZ z => TMoveZ (toFixed z 3)
  | TravelZ z => TTravelZ (toFixed z 3)
  end.

(** The mutable variables shared by the nested functions: the previous
    position, the running extrusion total and the instruction array. *)
Record State : Type := mkState {
  prevX : R;
  prevY : R;
  totalE : R;
  gcode : list Instr
}.

Definition push (i : Instr) (st : State) : State :=
  mkState (prevX st) (prevY st) (totalE st) (gcode st ++ [i]).
Definition set_prev (x y : R) (st : State) : State :=
  mkState x y (totalE st) (gcode st).
Definition add_totalE (e : R) (st : State) : State :=
  mkState (prevX st) (prevY st) (totalE st + e) (gcode st).

(** *** The brightness sampler ([getBrightnessAtUV], script.js 368-403) *)

(** The pan and zoom fields of [appState]. *)
Record View : Type := mkView {
  imageZoom : R;
  imageOffsetX : R;
  imageOffsetY : R
}.

(** [pixels[idx]] of the RGBA byte array.  The array that the run reads is
    the [data] of [getImageData(0, 0, anaW, anaH)] (script.js 1141), which
    holds [4 * anaW * anaH] bytes, and the sampler clamps its pixel
    coordinates to the image, so every index it reads lies inside the
    array.  Past the end of the array JavaScript reads [undefined] and the
    arithmetic on it gives NaN; the [0] returned here for such an index
    stands for no value of the code, and a statement about the sampler on a
    given array is a statement about the code only where the array holds
    the bytes of the whole image ([Ledger.image_data]). *)
Definition pixel_at (pixels : list Z) (idx : Z) : R :=
  IZR (nth (Z.to_nat idx) pixels 0%Z).

Definition pixelBrightness (pixels : list Z) (anaW : Z) (px py : Z) : R :=
  let idx := ((py * anaW + px) * 4)%Z in
  (pixel_at pixels idx + pixel_at pixels (idx + 1) + pixel_at pixels (idx + 2)) / 3.

Definition getBrightnessAtUV (view : View) (u_print v_print_yup : R)
    (pixels : list Z) (anaW anaH : Z) (gammaVal : R) : R :=
  let v_print_ydown := 1 - v_print_yup in
  let u_source := u_print / imageZoom view + imageOffsetX view in
  let v_source := v_print_ydown / imageZoom view + imageOffsetY view in
  let u_source := Rmax 0 (Rmin 1 u_source) in
  let v_source := Rmax 0 (Rmin 1 v_source) in
  let xf := u_source * IZR (anaW - 1) in
  let yf := v_source * IZR (anaH - 1) in
  let x0 := Zfloor xf in
  let y0 := Zfloor yf in
  let x1 := Z.min (x0 + 1) (anaW - 1) in
  let y1 := Z.min (y0 + 1) (anaH - 1) in
  let tx := xf - IZR x0 in
  let ty := yf - IZR y0 in
  let c00 := pixelBrightness pixels anaW x0 y0 in
  let c10 := pixelBrightness pixels anaW x1 y0 in
  let c01 := pixelBrightness pixels anaW x0 y1 in
  let c11 := pixelBrightness pixels anaW x1 y1 in
  let avgColor :=
    c00 * (1 - tx) * (1 - ty) + c10 * tx * (1 - ty)
    + c01 * (1 - tx) * ty + c11 * tx * ty in
  let val := avgColor / 255 in
  let val := pow_js val (1 / gammaVal) in
  1 - val.

(** *** The values read at the start of [processImageCore]

    Each field is the value after [safeParseFloat]/[safeParseInt] has
    defaulted and clamped it (script.js 1071-1127, 1235); the image and the
    view come from [appState]. *)
Record Inputs : Type := mkInputs {
  pathType : string;
  filamentDia : R;
  layerHeight : R;
  zOffset : R;
  bedWidth : R;
  bedHeight : R;
  originAtCenter : bool;
  printWidth : R;
  printHeight : R;
  spacing : R;
  minW : R;
  maxW : R;
  mirrorimage : bool;
  minSpeedMMS : R;
  maxSpeedMMS : R;
  gammaVal : R;
  squiggleAmp : R;
  squiggleFreq : R;
  fractalOrder : Z;
  addCircularBase : bool;
  baseMargin : R;
  baseLayers : Z;
  textMode : bool;
  textThreshold : R;
  baseSpeedMMS : R;
  anaW : Z;
  anaH : Z;
  pixels : list Z;
  view : View
}.

(** The constants derived from the inputs (script.js 1109-1114, 1149-1158,
    1215-1218, 1236). *)
Definition minSpeed (i : Inputs) : R := minSpeedMMS i * 60.
Definition maxSpeed (i : Inputs) : R := maxSpeedMMS i * 60.
Definition useSquiggle (i : Inputs) : bool := Rltb 0.01 (squiggleAmp i).
Definition offsetX (i : Inputs) : R :=
  if originAtCenter i then - printWidth i / 2 else (bedWidth i - printWidth i) / 2.
Definition offsetY (i : Inputs) : R :=
  if originAtCenter i then - printHeight i / 2 else (bedHeight i - printHeight i) / 2.
Definition filArea (i : Inputs) : R := PI * (filamentDia i / 2) ^ 2.
Definition printDim (i : Inputs) : R := Rmin (printWidth i) (printHeight i).
Definition baseRadius (i : Inputs) : R := printDim i / 2.
Definition centerX (i : Inputs) : R := offsetX i + printWidth i / 2.
Definition centerY (i : Inputs) : R := offsetY i + printHeight i / 2.
Definition centerOffset_x (i : Inputs) : R := offsetX i + (printWidth i - printDim i) / 2.
Definition centerOffset_y (i : Inputs) : R := offsetY i + (printHeight i - printDim i) / 2.
Definition baseSpeed (i : Inputs) : R := baseSpeedMMS i * 60.

Definition is_path (i : Inputs) (name : string) : bool := String.eqb (pathType i) name.

(** *** The motion encoder ([writeMove], script.js 1355-1384)

    The drawing on the preview canvas is left out.  The result is the new
    state and the returned [dist]. *)
Definition writeMove (i : Inputs) (x y targetW targetF : R) (isTravel : bool)
    (st : State) : State * R :=
  let dist := hypot (x - prevX st) (y - prevY st) in
  let st :=
    if isTravel || Rltb dist 0.01 then push (Travel x y) st
    else
      let vol := dist * targetW * layerHeight i in
      let e := vol / filArea i in
      add_totalE e (push (Print x y e targetF) st) in
  (set_prev x y st, dist).

(** *** The clip test ([isInsideBaseClip], script.js 1386-1409)

    [innerRadius] is the variable of that name: 0 until a base has been
    generated, then the margin returned by the base generator. *)
Definition isInsideBaseClip (i : Inputs) (innerRadius : R) (x y : R) : bool :=
  if is_path i "spiral" then
    Rleb (hypot (x - centerX i) (y - centerY i)) (baseRadius i - innerRadius)
  else if is_path i "squareSpiral" || is_path i "hilbert" then
    let ins := innerRadius in
    Rleb (centerOffset_x i + ins) x && Rleb x (centerOffset_x i + printDim i - ins)
    && Rleb (centerOffset_y i + ins) y && Rleb y (centerOffset_y i + printDim i - ins)
  else
    let ins := innerRadius in
    Rleb (offsetX i + ins) x && Rleb x (offsetX i + printWidth i - ins)
    && Rleb (offsetY i + ins) y && Rleb y (offsetY i + printHeight i - ins).

(** *** The smart move and its squiggle ([doSmartMove], script.js 1411-1477) *)

(** The darkness sampled for the path point [(x, y)] (script.js 1417-1427). *)
Definition darknessAt (i : Inputs) (x y : R) : R :=
  let u := (x - offsetX i) / printWidth i in
  let v_yup := (y - offsetY i) / printHeight i in
  let u_sample := if mirrorimage i then 1 - u else u in
  let v_sample_yup := v_yup in
  getBrightnessAtUV (view i) u_sample v_sample_yup (pixels i) (anaW i) (anaH i) (gammaVal i).

(** The squiggle branch (script.js 1447-1475): sub-point [k] of the segment
    from the previous position to [(x, y)], and the loop over [k = 1..N].

    [squigglePoint] describes the code on a segment of positive length.  On
    a segment of length 0 ([(x, y)] is the previous position) the code has
    [dx = dy = 0] and [norm = 0], the perpendicular is 0/0 = NaN, and every
    sub-point and every extrusion amount it writes is NaN; division by 0
    being 0 over [R], the definition gives the point [(x, y)] there, which
    is not what the code computes.  A statement that follows the squiggle
    point by point is a statement about the code on a segment with
    [0 < hypot (x - startX) (y - startY)]. *)
Definition numSegments (distTotal : R) : nat :=
  Z.to_nat (Z.max 2 (Zfloor (distTotal / 0.1))).

Definition squigglePoint (i : Inputs) (darkness startX startY x y : R) (k : nat) : R * R :=
  let distTotal := hypot (x - startX) (y - startY) in
  let n := INR (numSegments distTotal) in
  let dx := (x - startX) / n in
  let dy := (y - startY) / n in
  let norm := hypot dx dy in
  let dx_perp := - dy / norm in
  let dy_perp := dx / norm in
  let amplitude := squiggleAmp i * darkness in
  let freq := squiggleFreq i * TWO_PI in
  let currentDist := (INR k / n) * distTotal in
  let px_straight := startX + dx * INR k in
  let py_straight := startY + dy * INR k in
  let phase := currentDist * freq in
  let offsetMag := sin phase * amplitude in
  (px_straight + dx_perp * offsetMag, py_straight + dy_perp * offsetMag).

Definition squiggle (i : Inputs) (darkness targetW targetF x y : R) (st : State) : State :=
  let startX := prevX st in
  let startY := prevY st in
  let distTotal := hypot (x - startX) (y - startY) in
  fold_left
    (fun st k =>
       let p := squigglePoint i darkness startX startY x y k in
       fst (writeMove i (fst p) (snd p) targetW targetF false st))
    (seq 1 (numSegments distTotal)) st.

Definition doSmartMove (i : Inputs) (innerRadius : R) (x y : R) (isConnect : bool)
    (st : State) : State :=
  if addCircularBase i && negb (isInsideBaseClip i innerRadius x y) then
    fst (writeMove i x y 0 0 true st)
  else
    let darkness := darknessAt i x y in
    if textMode i && negb isConnect then
      if Rltb darkness (textThreshold i)
      then fst (writeMove i x y 0 0 true st)
      else fst (writeMove i x y (maxW i) (minSpeed i) false st)
    else
      let targetW := minW i + darkness * (maxW i - minW i) in
      let targetF := maxSpeed i - darkness * (maxSpeed i - minSpeed i) in
      if isConnect || negb (useSquiggle i) || Rltb darkness 0.1 then
        fst (writeMove i x y targetW targetF isConnect st)
      else squiggle i darkness targetW targetF x y st.

(** *** Loops *)

(** A counted loop whose body can fail. *)
Fixpoint for_each {A S : Type} (l : list A) (body : A -> S -> option S) (st : S)
  : option S :=
  match l with
  | [] => Some st
  | a :: l' =>
      match body a st with
      | Some st' => for_each l' body st'
      | None => None
      end
  end.

(** [for (let v = lo; v <= hi; v += step) body(v)].  The recursion is on a
    fuel argument; running out of fuel is reported as [None]. *)
Fixpoint for_real {S : Type} (fuel : nat) (v hi step : R) (body : R -> S -> S) (st : S)
  : option S :=
  if Rleb v hi then
    match fuel with
    | O => None
    | Datatypes.S fuel' => for_real fuel' (v + step) hi step body (body v st)
    end
  else Some st.

(** Fuel given to such a loop: more than [(hi - lo) / step] passes. *)
Definition passes (lo hi step : R) : nat := Z.to_nat (up ((hi - lo) / step)).

(** *** The base generators (script.js 679-1016) *)

Definition baseOverlap : R := 0.45.
Definition wallSpacing : R := 0.42.
Definition numWalls : nat := 3.
Definition BASE_LINE_WIDTH : R := 0.5.

(** [writeBaseSegment(x, y, customSpeed)], the same in the three generators. *)
Definition writeBaseSegment (i : Inputs) (x y customSpeed : R) (st : State) : State :=
  let dist := hypot (x - prevX st) (y - prevY st) in
  if Rltb dist 0.01 then st
  else
    let vol := dist * BASE_LINE_WIDTH * layerHeight i in
    let e := vol / filArea i in
    set_prev x y (add_totalE e (push (Print x y e customSpeed) st)).

(** One boustrophedon line between [xa] and [xb] at height [yv]. *)
Definition infill_line (i : Inputs) (xa xb yv currentSpeed : R) (s : State * bool)
  : State * bool :=
  let '(st, goingRight) := s in
  let st :=
    if goingRight
    then writeBaseSegment i xb yv currentSpeed (writeBaseSegment i xa yv currentSpeed st)
    else writeBaseSegment i xa yv currentSpeed (writeBaseSegment i xb yv currentSpeed st) in
  (st, negb goingRight).

(** Circular base, one wall (script.js 709-726). *)
Definition circular_wall (i : Inputs) (st : State) (w : nat) : State :=
  let currentWallRadius := baseRadius i - INR w * wallSpacing in
  let numPoints := Z.max 60 (Zceil (TWO_PI * currentWallRadius / 0.5)) in
  let dAngle := TWO_PI / IZR numPoints in
  let startX := centerX i + currentWallRadius in
  let startY := centerY i in
  let st := set_prev startX startY (push (Travel startX startY) st) in
  fold_left
    (fun st k =>
       let angle := INR k * dAngle in
       writeBaseSegment i (centerX i + currentWallRadius * cos angle)
                        (centerY i + currentWallRadius * sin angle) (baseSpeed i) st)
    (seq 1 (Z.to_nat numPoints)) st.

(** Circular base, one layer (script.js 704-766). *)
Definition circular_layer (i : Inputs) (layer : nat) (st : State) : option State :=
  let z := zOffset i + INR layer * layerHeight i in
  let st := push (LayerZ z (Z.of_nat layer + 1) (baseLayers i)) st in
  let st := fold_left (circular_wall i) (seq 0 numWalls) st in
  let st := push (Comment "G1 E-0.8 F3000") st in
  let st := push (TravelZ (z + 0.4)) st in
  let fillLimitRadius := baseRadius i - INR numWalls * wallSpacing in
  let infillTotalHeight := fillLimitRadius * 2 in
  let firstY := centerY i - fillLimitRadius in
  let st := push (Travel (centerX i) firstY) st in
  let st := push (MoveZ z) st in
  let st := push (Comment "G1 E0.9 F3000") st in
  let st := set_prev (centerX i) firstY st in
  let line (yRel : R) (s : State * bool) : State * bool :=
    let xLimit := sqrt (Rmax 0 (fillLimitRadius ^ 2 - yRel ^ 2)) in
    let xLeft := centerX i - xLimit in
    let xRight := centerX i + xLimit in
    let currentY := centerY i + yRel in
    let currentSpeed :=
      if Rltb yRel (- fillLimitRadius + infillTotalHeight * 0.1)
      then baseSpeed i * 0.5 else baseSpeed i in
    infill_line i xLeft xRight currentY currentSpeed s in
  match for_real (passes (- fillLimitRadius) fillLimitRadius baseOverlap)
                 (- fillLimitRadius) fillLimitRadius baseOverlap line (st, true) with
  | Some (st, _) => Some (push (TravelZ (z + 0.5)) st)
  | None => None
  end.

(** [generateCircularBase(params)]: the new state and the returned value. *)
Definition generateCircularBase (i : Inputs) (st : State) : option (State * R) :=
  let st := push (Comment "; --- Circular Base (Adaptive) ---") st in
  match for_each (seq 0 (Z.to_nat (baseLayers i))) (circular_layer i) st with
  | Some st => Some (st, baseMargin i)
  | None => None
  end.

(** Square and rectangular base, one wall of the rectangle with corner
    [(ox, oy)], width [w] and height [h] (script.js 806-843, 935-972). *)
Definition rect_wall (i : Inputs) (ox oy w h : R) (st : State) (wall : nat) : State :=
  let inset := INR wall * wallSpacing in
  let x0 := ox + inset in
  let y0 := oy + inset in
  let x1 := ox + w - inset in
  let y1 := oy + h - inset in
  let st := set_prev x0 y0 (push (Travel x0 y0) st) in
  let bottomSegs := Z.to_nat (Z.max 2 (Zfloor ((x1 - x0) / 0.5))) in
  let st :=
    fold_left (fun st k =>
      writeBaseSegment i (x0 + (x1 - x0) * (INR k / INR bottomSegs)) y0 (baseSpeed i) st)
      (seq 1 bottomSegs) st in
  let rightSegs := Z.to_nat (Z.max 2 (Zfloor ((y1 - y0) / 0.5))) in
  let st :=
    fold_left (fun st k =>
      writeBaseSegment i x1 (y0 + (y1 - y0) * (INR k / INR rightSegs)) (baseSpeed i) st)
      (seq 1 rightSegs) st in
  let st :=
    fold_left (fun st k =>
      writeBaseSegment i (x1 - (x1 - x0) * (INR k / INR bottomSegs)) y1 (baseSpeed i) st)
      (seq 1 bottomSegs) st in
  fold_left (fun st k =>
    writeBaseSegment i x0 (y1 - (y1 - y0) * (INR k / INR rightSegs)) (baseSpeed i) st)
    (seq 1 (rightSegs - 1)) st.

(** Square and rectangular base, one layer (script.js 801-883, 930-1010). *)
Definition rect_layer (i : Inputs) (ox oy w h : R) (layer : nat) (st : State)
  : option State :=
  let z := zOffset i + INR layer * layerHeight i in
  let st := push (LayerZ z (Z.of_nat layer + 1) (baseLayers i)) st in
  let st := fold_left (rect_wall i ox oy w h) (seq 0 numWalls) st in
  let st := push (Comment "G1 E-0.8 F3000") st in
  let st := push (TravelZ (z + 0.4)) st in
  let innerMargin := INR numWalls * wallSpacing in
  let fillX0 := ox + innerMargin in
  let fillY0 := oy + innerMargin in
  let fillX1 := ox + w - innerMargin in
  let fillY1 := oy + h - innerMargin in
  let fillHeight := fillY1 - fillY0 in
  let st := push (Travel fillX0 fillY0) st in
  let st := push (MoveZ z) st in
  let st := push (Comment "G1 E0.9 F3000") st in
  let st := set_prev fillX0 fillY0 st in
  let line (yRel : R) (s : State * bool) : State * bool :=
    let currentSpeed :=
      if Rltb (yRel - fillY0) (fillHeight * 0.1)
      then baseSpeed i * 0.5 else baseSpeed i in
    infill_line i fillX0 fillX1 yRel currentSpeed s in
  match for_real (passes fillY0 fillY1 baseOverlap)
                 fillY0 fillY1 baseOverlap line (st, true) with
  | Some (st, _) => Some (push (TravelZ (z + 0.5)) st)
  | None => None
  end.

(** [generateSquareBase(params)]. *)
Definition generateSquareBase (i : Inputs) (st : State) : option (State * R) :=
  let st := push (Comment "; --- Square Base (Adaptive) ---") st in
  match for_each (seq 0 (Z.to_nat (baseLayers i)))
                 (rect_layer i (centerOffset_x i) (centerOffset_y i) (printDim i) (printDim i))
                 st with
  | Some st => Some (st, baseMargin i + INR numWalls * wallSpacing)
  | None => None
  end.

(** [generateRectangularBase(params)]. *)
Definition generateRectangularBase (i : Inputs) (st : State) : option (State * R) :=
  let st := push (Comment "; --- Rectangular Base (Adaptive) ---") st in
  match for_each (seq 0 (Z.to_nat (baseLayers i)))
                 (rect_layer i (offsetX i) (offsetY i) (printWidth i) (printHeight i))
                 st with
  | Some st => Some (st, baseMargin i + INR numWalls * wallSpacing)
  | None => None
  end.

(** The shape dispatch of the orchestrator (script.js 1288-1296); the value
    returned becomes [innerRadius] (script.js 1339). *)
Definition generateBase (i : Inputs) (st : State) : option (State * R) :=
  if is_path i "spiral" then generateCircularBase i st
  else if is_path i "squareSpiral" || is_path i "hilbert" then generateSquareBase i st
  else generateRectangularBase i st.

(** *** The zigzag (script.js 1614-1635)

    The state passed in is the one at the start of the artwork phase: the
    previous position is the start point [(offsetX, offsetY)]. *)
Definition zigzag_row (i : Inputs) (innerRadius : R) (st : State) (row : nat) : State :=
  let y := INR row * spacing i in
  let even := Nat.even row in
  let xStart := if even then 0 else printWidth i in
  let xEnd := if even then printWidth i else 0 in
  let st :=
    if (0 <? row)%nat
    then doSmartMove i innerRadius (offsetX i + xStart) (offsetY i + y) true st
    else st in
  let distLine := printWidth i in
  let numSegs := Z.to_nat (Z.max 2 (Zfloor (distLine / 0.5))) in
  fold_left
    (fun st k =>
       let t := INR k / INR numSegs in
       let currX := xStart + (xEnd - xStart) * t in
       doSmartMove i innerRadius (offsetX i + currX) (offsetY i + y) false st)
    (seq 1 numSegs) st.

Definition zigzag_path (i : Inputs) (innerRadius : R) (st : State) : State :=
  let lines := Z.to_nat (Zfloor (printHeight i / spacing i)) in
  fold_left (zigzag_row i innerRadius) (seq 0 lines) st.

(** *** The Archimedean spiral (script.js 1587-1612) *)

(** The [while] loop.  The result is the final radius, angle and iteration
    count and the state; it is [None] only if the fuel runs out. *)
Fixpoint spiral_loop (fuel : nat) (i : Inputs) (innerRadius maxRadius cx cy : R)
    (radius angle : R) (iterations : Z) (st : State) : option (R * R * Z * State) :=
  if Rltb radius maxRadius && (iterations <? MAX_LOOP_ITERATIONS)%Z then
    match fuel with
    | O => None
    | S fuel' =>
        let iterations := (iterations + 1)%Z in
        let res := 0.5 in
        let dTheta := res / Rmax 0.5 radius in
        let angle := angle + dTheta in
        let radius := spacing i / TWO_PI * angle in
        if Rltb maxRadius radius then Some (radius, angle, iterations, st)
        else
          let px := cx + radius * cos angle in
          let py := cy + radius * sin angle in
          spiral_loop fuel' i innerRadius maxRadius cx cy radius angle iterations
                      (doSmartMove i innerRadius px py false st)
    end
  else Some (radius, angle, iterations, st).

Definition spiral_maxRadius (i : Inputs) (innerRadius : R) : R :=
  if addCircularBase i then baseRadius i - innerRadius else printDim i / 2.

Definition spiral_path (i : Inputs) (innerRadius : R) (st : State)
  : option (R * R * Z * State) :=
  let cx := offsetX i + printWidth i / 2 in
  let cy := offsetY i + printHeight i / 2 in
  spiral_loop (Z.to_nat MAX_LOOP_ITERATIONS) i innerRadius
              (spiral_maxRadius i innerRadius) cx cy 0 0 0 st.

(** [iterations >= MAX_LOOP_ITERATIONS]: the warning "Spiral hit max
    iterations" is logged. *)
Definition spiral_hit_cap (iterations : Z) : bool :=
  (MAX_LOOP_ITERATIONS <=? iterations)%Z.

End Core.

(** ** Reading the emitted instructions *)

Module Trace.
Import Core.
Local Open Scope R_scope.

(** The point an instruction moves to, for the two kinds that move in XY. *)
Definition endpoint (ins : Instr) : option (R * R) :=
  match ins with
  | Travel x y => Some (x, y)
  | Print x y _ _ => Some (x, y)
  | _ => None
  end.

(** [ins] is a travel, or a printing move of line width [w] and speed [f]
    over a segment of length at least 0.01. *)
Definition uniform (i : Inputs) (w f : R) (ins : Instr) : Prop :=
  match ins with
  | Travel _ _ => True
  | Print _ _ e f' =>
      f' = f /\ exists dist, 0.01 <= dist /\ e = dist * w * layerHeight i / filArea i
  | _ => False
  end.

End Trace.

(** ** Concrete runs

    Inputs the form can deliver, used to evaluate the program.  Unless said
    otherwise the fields hold the defaults of [processImageCore]. *)

Module Runs.
Import Core.
Local Open Scope R_scope.

(** Two numbers agree within the relative tolerance 1e-9. *)
Definition rel_close (a b : R) : Prop := Rabs (a - b) <= 1e-9 * Rabs b.

Definition no_pan : View := mkView 1 0 0.
Definition start_state : State := mkState 0 0 0 [].

(** A black image of one pixel and a two-pixel image, black then white. *)
Definition black_pixels : list Z := [0; 0; 0; 255]%Z.
Definition gradient_pixels : list Z := [0; 0; 0; 255; 255; 255; 255; 255]%Z.

(** The defaults, with the thinnest layer and the widest filament the form
    accepts (0.05 and 5). *)
Definition thin_inputs : Inputs :=
  mkInputs "zigzag" 5 0.05 0.2 250 250 false 100 100 0.6 0.05 0.8 false
           10 100 1.5 0 1 6 false 2 2 false 0.4 30 1 1 black_pixels no_pan.

(** Zigzag over a base, on a black image, squiggle amplitude 5 and
    frequency 7.5. *)
Definition zigzag_base_inputs : Inputs :=
  mkInputs "zigzag" 1.75 0.2 0.2 250 250 false 100 100 0.6 0.2 0.8 false
           10 100 1.5 5 7.5 6 true 2 2 false 0.4 30 1 1 black_pixels no_pan.

(** Zigzag without a base on the two-pixel gradient, gamma 1, squiggle
    amplitude 1 and frequency 1. *)
Definition gradient_inputs : Inputs :=
  mkInputs "zigzag" 1.75 0.2 0.2 250 250 false 100 100 0.6 0.2 0.8 false
           10 100 1 1 1 6 false 2 2 false 0.4 30 2 1 gradient_pixels no_pan.

(** The spiral with the finest line spacing the form accepts (0.1), no base. *)
Definition fine_spiral_inputs : Inputs :=
  mkInputs "spiral" 1.75 0.2 0.2 250 250 false 100 100 0.1 0.2 0.8 false
           10 100 1.5 0 1 6 false 2 2 false 0.4 30 1 1 black_pixels no_pan.

(** The spiral over a base, everything else at its default. *)
Definition spiral_base_inputs : Inputs :=
  mkInputs "spiral" 1.75 0.2 0.2 250 250 false 100 100 0.6 0.2 0.8 false
           10 100 1.5 0 1 6 true 2 2 false 0.4 30 1 1 black_pixels no_pan.

End Runs.

(** ** The other path drivers of [processImageCore] (script.js 1213-1228,
       1480-1586) *)

Module Paths.
Import Core.
Local Open Scope R_scope.

(** *** The Hilbert path (script.js 1222-1228, 1480-1489) *)

(** [N = 1 << order] and [step = printDim / N]. *)
Definition hilbert_N (i : Inputs) : Z := JS.shl 1 (fractalOrder i).
Definition hilbert_step (i : Inputs) : R := printDim i / IZR (hilbert_N i).

(** The path point of index [d]:
    [(centerOffset.x + p.x * step, centerOffset.y + p.y * step)]. *)
Definition hilbert_xy (i : Inputs) (d : Z) : option (R * R) :=
  match Hilbert.hilbert (fractalOrder i) d with
  | Some (x, y) =>
      Some (centerOffset_x i + IZR x * hilbert_step i,
            centerOffset_y i + IZR y * hilbert_step i)
  | None => None
  end.

(** [for (let d = 1; d < totalPoints; d++) doSmartMove(...)]. *)
Definition hilbert_path (i : Inputs) (innerRadius : R) (st : State) : option State :=
  let N := hilbert_N i in
  let totalPoints := (N * N)%Z in
  for_each (map Z.of_nat (seq 1 (Z.to_nat totalPoints - 1)))
    (fun d st =>
       match hilbert_xy i d with
       | Some (x, y) => Some (doSmartMove i innerRadius x y false st)
       | None => None
       end) st.

(** [startPoint], the position the artwork phase starts from
    (script.js 1213-1228). *)
Definition startPoint (i : Inputs) : option (R * R) :=
  if is_path i "spiral" || is_path i "squareSpiral" then Some (centerX i, centerY i)
  else if is_path i "hilbert" then hilbert_xy i 0
  else Some (offsetX i, offsetY i).

(** *** The square spiral (script.js 1490-1534) *)

(** [moveLine(startX, startY, endX, endY, length)], with [res = 0.5]. *)
Definition moveLine (i : Inputs) (innerRadius : R)
    (startX startY endX endY length : R) (st : State) : State :=
  let numSegs := Z.to_nat (Z.max 2 (Zfloor (length / 0.5))) in
  fold_left
    (fun st k =>
       let t := INR k / INR numSegs in
       doSmartMove i innerRadius
         (startX + (endX - startX) * t) (startY + (endY - startY) * t) false st)
    (seq 1 numSegs) st.

(** One pass through the body of the [while] loop: the four sides of the
    square of side [currentSize] at [currentOffset = (ox, oy)], then the
    connecting move to the next, inner square. *)
Definition squareSpiral_lap (i : Inputs) (innerRadius : R)
    (currentSize ox oy : R) (st : State) : State :=
  let x0 := ox in
  let y0 := oy in
  let x1 := ox + currentSize in
  let y1 := oy + currentSize in
  let st := moveLine i innerRadius x0 y0 x1 y0 currentSize st in
  let st := moveLine i innerRadius x1 y0 x1 y1 currentSize st in
  let st := moveLine i innerRadius x1 y1 x0 y1 currentSize st in
  let remainingLength := currentSize - spacing i in
  let st := moveLine i innerRadius x0 y1 x0 (y1 - remainingLength) remainingLength st in
  let nextX := ox + spacing i in
  let nextY := oy + spacing i in
  doSmartMove i innerRadius nextX nextY true st.

(** The [while] loop.  The result is the final [currentSize],
    [currentOffset], iteration count and state; it is [None] only if the
    fuel runs out. *)
Fixpoint squareSpiral_loop (fuel : nat) (i : Inputs) (innerRadius : R)
    (currentSize ox oy : R) (iterations : Z) (st : State)
  : option (R * R * R * Z * State) :=
  if Rltb (spacing i * 1.5) currentSize && (iterations <? MAX_LOOP_ITERATIONS)%Z then
    match fuel with
    | O => None
    | S fuel' =>
        let iterations := (iterations + 1)%Z in
        let st := squareSpiral_lap i innerRadius currentSize ox oy st in
        squareSpiral_loop fuel' i innerRadius
          (currentSize - spacing i * 2) (ox + spacing i) (oy + spacing i) iterations st
    end
  else Some (currentSize, ox, oy, iterations, st).

(** The closing move to the middle of what is left
    ([if (currentSize > 0) doSmartMove(...)]). *)
Definition squareSpiral_close (i : Inputs) (innerRadius : R)
    (currentSize ox oy : R) (st : State) : State :=
  if Rltb 0 currentSize
  then doSmartMove i innerRadius (ox + currentSize / 2) (oy + currentSize / 2) false st
  else st.

(** The whole branch: the final [currentSize], the iteration count and the
    state. *)
Definition squareSpiral_path (i : Inputs) (innerRadius : R) (st : State)
  : option (R * Z * State) :=
  match squareSpiral_loop (Z.to_nat MAX_LOOP_ITERATIONS) i innerRadius
          (printDim i) (centerOffset_x i) (centerOffset_y i) 0 st with
  | Some (currentSize, ox, oy, iterations, st) =>
      Some (currentSize, iterations, squareSpiral_close i innerRadius currentSize ox oy st)
  | None => None
  end.

(** [iterations >= MAX_LOOP_ITERATIONS]: the warning "Square spiral hit max
    iterations" is logged. *)
Definition squareSpiral_hit_cap (iterations : Z) : bool :=
  (MAX_LOOP_ITERATIONS <=? iterations)%Z.

(** *** The diagonal zigzag (script.js 1535-1586) *)

Definition axisStep (i : Inputs) : R := spacing i * sqrt 2.

(** The two ends of diagonal [n] on the boundary of the print rectangle,
    relative to its corner, after the clamp; in the order
    [(p1x, p1y, p2x, p2y)]. *)
Definition diagonal_ends (i : Inputs) (n : nat) : R * R * R * R :=
  let sum := INR n * axisStep i in
  let p1x := if Rleb sum (printHeight i) then 0 else sum - printHeight i in
  let p1y := if Rleb sum (printHeight i) then sum else printHeight i in
  let p2x := if Rleb sum (printWidth i) then sum else printWidth i in
  let p2y := if Rleb sum (printWidth i) then 0 else sum - printWidth i in
  let p1x := Rmax 0 (Rmin (printWidth i) p1x) in
  let p1y := Rmax 0 (Rmin (printHeight i) p1y) in
  let p2x := Rmax 0 (Rmin (printWidth i) p2x) in
  let p2y := Rmax 0 (Rmin (printHeight i) p2y) in
  (p1x, p1y, p2x, p2y).

(** The start and the end of diagonal [n]: the direction alternates. *)
Definition diagonal_span (i : Inputs) (n : nat) : R * R * R * R :=
  let '(p1x, p1y, p2x, p2y) := diagonal_ends i n in
  if Nat.even n then (p1x, p1y, p2x, p2y) else (p2x, p2y, p1x, p1y).

(** One pass through the body of the [for] loop. *)
Definition diagonal_line (i : Inputs) (innerRadius : R) (st : State) (n : nat) : State :=
  let '(startX, startY, endX, endY) := diagonal_span i n in
  let distLine := hypot (endX - startX) (endY - startY) in
  if Rltb distLine 0.01 then st
  else
    let st :=
      if (n =? 0)%nat
      then doSmartMove i innerRadius (offsetX i + startX) (offsetY i + startY) true st
      else doSmartMove i innerRadius (offsetX i + startX) (offsetY i + startY) false st in
    let numSegs := Z.to_nat (Z.max 2 (Zfloor (distLine / 0.5))) in
    fold_left
      (fun st k =>
         let t := INR k / INR numSegs in
         doSmartMove i innerRadius
           (offsetX i + startX + (endX - startX) * t)
           (offsetY i + startY + (endY - startY) * t) false st)
      (seq 1 numSegs) st.

(** [for (let i = 0; i <= numDiagonals; i++)]. *)
Definition diagonal_path (i : Inputs) (innerRadius : R) (st : State) : State :=
  let maxSum := printWidth i + printHeight i in
  let numDiagonals := Zfloor (maxSum / axisStep i) in
  fold_left (diagonal_line i innerRadius) (seq 0 (Z.to_nat (numDiagonals + 1))) st.

(** *** The dispatch on the path type (script.js 1480, 1490, 1535, 1587,
        1613) *)
Definition artwork_path (i : Inputs) (innerRadius : R) (st : State) : option State :=
  if is_path i "hilbert" then hilbert_path i innerRadius st
  else if is_path i "squareSpiral" then
    match squareSpiral_path i innerRadius st with
    | Some (_, _, st) => Some st
    | None => None
    end
  else if is_path i "diagonal" then Some (diagonal_path i innerRadius st)
  else if is_path i "spiral" then
    match spiral_path i innerRadius st with
    | Some (_, _, _, st) => Some st
    | None => None
    end
  else Some (zigzag_path i innerRadius st).

End Paths.

(** ** Pan and zoom of the source image ([setupImageManipulationHandlers],
       script.js 410-505)

    The two handlers that change [appState.imageZoom] and the image
    offsets, as functions on the [View] that the brightness sampler reads;
    each is the body that runs once the guards of the handler have passed
    (an image is loaded and, for [mousemove], a drag is under way).
    The print dimensions and offsets are read from the form with the same
    defaults and clamps as in [processImageCore], so they are taken from
    [Inputs]. *)

Module PanZoom.
Import Core.
Local Open Scope R_scope.

Definition PREVIEW_SCALE : R := 3.
Definition ZOOM_MIN : R := 1.
Definition ZOOM_MAX : R := 10.
Definition ZOOM_FACTOR : R := 1.1.

(** The view set when an image is loaded (script.js 552-554; also the
    initial [appState]). *)
Definition reset : View := mkView 1 0 0.

(** The [mousemove] handler while dragging; [dx], [dy] are the mouse
    deltas in pixels. *)
Definition mousemove (i : Inputs) (dx dy : R) (v : View) : View :=
  let areaWidthOnScreen := printWidth i * PREVIEW_SCALE in
  let areaHeightOnScreen := printHeight i * PREVIEW_SCALE in
  let uvDeltaX := dx / areaWidthOnScreen in
  let uvDeltaY := dy / areaHeightOnScreen in
  let ox := imageOffsetX v - uvDeltaX / imageZoom v in
  let oy := imageOffsetY v + uvDeltaY / imageZoom v in
  let maxOffset := 1 - 1 / imageZoom v in
  mkView (imageZoom v) (Rmax 0 (Rmin maxOffset ox)) (Rmax 0 (Rmin maxOffset oy)).

(** The part of the print area under the cursor, clamped to it:
    [u_clamped] and [v_clamped] for a cursor at [(mx, my)] canvas pixels
    from the top left of a canvas [canvasHeight] pixels high. *)
Definition cursor_u (i : Inputs) (mx : R) : R :=
  let mouseX_mm := mx / PREVIEW_SCALE in
  let u_print := (mouseX_mm - offsetX i) / printWidth i in
  Rmax 0 (Rmin 1 u_print).
Definition cursor_v (i : Inputs) (my canvasHeight : R) : R :=
  let mouseY_mm := (canvasHeight - my) / PREVIEW_SCALE in
  let v_print := (mouseY_mm - offsetY i) / printHeight i in
  Rmax 0 (Rmin 1 v_print).

(** The [wheel] handler; [deltaY] is the scroll amount of the event. *)
Definition wheel (i : Inputs) (mx my canvasHeight deltaY : R) (v : View) : View :=
  let u_clamped := cursor_u i mx in
  let v_clamped := cursor_v i my canvasHeight in
  let v_print_ydown := 1 - v_clamped in
  let u_source_old := u_clamped / imageZoom v + imageOffsetX v in
  let v_source_old := v_print_ydown / imageZoom v + imageOffsetY v in
  let zoomDelta := if Rltb deltaY 0 then ZOOM_FACTOR else 1 / ZOOM_FACTOR in
  let newZoom := imageZoom v * zoomDelta in
  let zoom := Rmax ZOOM_MIN (Rmin ZOOM_MAX newZoom) in
  let newOffsetX := u_source_old - u_clamped / zoom in
  let newOffsetY := v_source_old - v_print_ydown / zoom in
  let maxOffset := 1 - 1 / zoom in
  mkView zoom (Rmax 0 (Rmin maxOffset newOffsetX)) (Rmax 0 (Rmin maxOffset newOffsetY)).

(** The events that change the view, and a session: the view after a
    sequence of events that follows the loading of an image. *)
Inductive Event : Type :=
| Mousemove (dx dy : R)
| Wheel (mx my canvasHeight deltaY : R)
| ImageLoad.

Definition handle (i : Inputs) (v : View) (e : Event) : View :=
  match e with
  | Mousemove dx dy => mousemove i dx dy v
  | Wheel mx my h deltaY => wheel i mx my h deltaY v
  | ImageLoad => reset
  end.

Definition session (i : Inputs) (events : list Event) : View :=
  fold_left (handle i) events reset.

(** The source coordinates that [getBrightnessAtUV] computes before it
    clamps them. *)
Definition u_source (v : View) (u_print : R) : R := u_print / imageZoom v + imageOffsetX v.
Definition v_source (v : View) (v_print_yup : R) : R :=
  (1 - v_print_yup) / imageZoom v + imageOffsetY v.

(** The zoom is within its limits and the window that the view shows, of
    side [1 / imageZoom] at the image offsets, lies within the image. *)
Definition in_image (v : View) : Prop :=
  ZOOM_MIN <= imageZoom v <= ZOOM_MAX /\
  0 <= imageOffsetX v <= 1 - 1 / imageZoom v /\
  0 <= imageOffsetY v <= 1 - 1 / imageZoom v.

End PanZoom.

(** ** Reading the form ([safeParseFloat], script.js 37-43) *)

Module Form.
Local Open Scope R_scope.

(** [safeParseFloat(value, defaultValue, min, max)].  [parsed] is the result
    of [parseFloat(value)], with [None] for the results that the function
    rejects ([NaN] and the infinities). *)
Definition safeParseFloat (parsed : option R) (defaultValue min max : R) : R :=
  match parsed with
  | None => defaultValue
  | Some p => Rmax min (Rmin max p)
  end.

(** The bed and print dimensions as [processImageCore] reads them
    (script.js 1077-1082). *)
Definition read_bed (parsed : option R) : R := safeParseFloat parsed 250 50 1000.
Definition read_print (parsed : option R) (bed : R) : R := safeParseFloat parsed 100 1 bed.

End Form.

(** ** Reading whole instruction lists *)

Module Ledger.
Import Core Trace.
Local Open Scope R_scope.

(** The sum of the extrusion lengths of the printing moves of a list. *)
Fixpoint extruded (l : list Instr) : R :=
  match l with
  | [] => 0
  | Print _ _ e _ :: rest => e + extruded rest
  | _ :: rest => extruded rest
  end.

(** The instruction moves in XY to a point that satisfies [P] (or does not
    move in XY). *)
Definition lands (P : R -> R -> Prop) (ins : Instr) : Prop :=
  match endpoint ins with
  | Some (x, y) => P x y
  | None => True
  end.

(** The print rectangle and the centred print square. *)
Definition in_print_rect (i : Inputs) (x y : R) : Prop :=
  offsetX i <= x <= offsetX i + printWidth i /\
  offsetY i <= y <= offsetY i + printHeight i.
Definition in_print_square (i : Inputs) (x y : R) : Prop :=
  centerOffset_x i <= x <= centerOffset_x i + printDim i /\
  centerOffset_y i <= y <= centerOffset_y i + printDim i.

(** [st'] is [st] after more instructions were pushed: each of them
    satisfies [P], and the extrusion total has grown by the sum of the
    extrusion lengths of the printing moves among them. *)
Definition appends (P : Instr -> Prop) (st st' : State) : Prop :=
  exists new,
    gcode st' = gcode st ++ new /\ Forall P new /\
    totalE st' = totalE st + extruded new.

(** An artwork move within the limits of the form: a travel, or a printing
    move over at least 0.01 mm whose feed rate is between the minimum and
    the maximum speed and whose extrusion length is positive and is that of
    a line width between the minimum and the maximum width. *)
Definition within_limits (i : Inputs) (ins : Instr) : Prop :=
  match ins with
  | Travel _ _ => True
  | Print _ _ e f =>
      minSpeed i <= f <= maxSpeed i /\ 0 < e /\
      exists w dist,
        minW i <= w <= maxW i /\ 0.01 <= dist /\
        e = dist * w * layerHeight i / filArea i
  | _ => False
  end.

(** The square of side [size] at [(ox, oy)] lies in the print square. *)
Definition nested (i : Inputs) (size ox oy : R) : Prop :=
  centerOffset_x i <= ox /\ ox + size <= centerOffset_x i + printDim i /\
  centerOffset_y i <= oy /\ oy + size <= centerOffset_y i + printDim i.

(** The region that the path of the selected type covers: the disc of the
    spiral, the centred square of the square spiral and of the Hilbert
    path, the print rectangle of the diagonal and zigzag paths. *)
Definition path_region (i : Inputs) (innerRadius : R) (x y : R) : Prop :=
  if is_path i "spiral" then
    hypot (x - centerX i) (y - centerY i) <= spiral_maxRadius i innerRadius
  else if is_path i "squareSpiral" || is_path i "hilbert" then in_print_square i x y
  else in_print_rect i x y.

(** A move of the base: any instruction that does not print, or a printing
    move over at least 0.01 mm at the base speed or at half of it, whose
    extrusion length is that of the base line width. *)
Definition base_move (i : Inputs) (ins : Instr) : Prop :=
  match ins with
  | Print _ _ e f =>
      (f = baseSpeed i \/ f = baseSpeed i * 0.5) /\
      exists dist, 0.01 <= dist /\ e = dist * BASE_LINE_WIDTH * layerHeight i / filArea i
  | _ => True
  end.

(** A printing move ends at a point that passes the clip test. *)
Definition prints_clipped (i : Inputs) (innerRadius : R) (ins : Instr) : Prop :=
  match ins with
  | Print x y _ _ => isInsideBaseClip i innerRadius x y = true
  | _ => True
  end.

Definition is_travel (ins : Instr) : Prop :=
  match ins with Travel _ _ => True | _ => False end.

(** The inputs with other squiggle settings. *)
Definition with_squiggle (amp freq : R) (i : Inputs) : Inputs :=
  mkInputs (pathType i) (filamentDia i) (layerHeight i) (zOffset i)
           (bedWidth i) (bedHeight i) (originAtCenter i)
           (printWidth i) (printHeight i) (spacing i) (minW i) (maxW i)
           (mirrorimage i) (minSpeedMMS i) (maxSpeedMMS i) (gammaVal i)
           amp freq (fractalOrder i) (addCircularBase i) (baseMargin i)
           (baseLayers i) (textMode i) (textThreshold i) (baseSpeedMMS i)
           (anaW i) (anaH i) (pixels i) (view i).

(** The values read from the form, as [processImageCore] accepts them:
    the clamps of [safeParseFloat] and the three checks that abort the run
    (script.js 1074-1107). *)
Definition valid (i : Inputs) : Prop :=
  0.1 <= filamentDia i <= 5 /\ 0.05 <= layerHeight i <= 1 /\
  1 <= printWidth i /\ 1 <= printHeight i /\
  0.1 <= spacing i <= 10 /\
  0.05 <= minW i /\ minW i < maxW i /\ maxW i <= 3 /\
  1 <= minSpeedMMS i /\ minSpeedMMS i < maxSpeedMMS i /\ maxSpeedMMS i <= 300 /\
  0.5 <= gammaVal i <= 3 /\
  0 <= squiggleAmp i <= 5 /\
  (3 <= fractalOrder i <= 8)%Z /\
  0 <= baseMargin i <= 100.

(** An RGBA byte array. *)
Definition bytes (pixels : list Z) : Prop := Forall (fun p => (0 <= p <= 255)%Z) pixels.

(** The array of an image of [anaW] by [anaH] pixels, at least one pixel
    each way, as [getImageData] returns it (script.js 1141): four entries
    for each pixel. *)
Definition image_data (pixels : list Z) (anaW anaH : Z) : Prop :=
  (1 <= anaW)%Z /\ (1 <= anaH)%Z /\
  Z.of_nat (List.length pixels) = (4 * anaW * anaH)%Z.

End Ledger.

(** ** Reading a template *)

Module Markers.
Import Merge.
Local Open Scope string_scope.

(** The two tests that the marker scan makes on a line. *)
Definition is_start (l : string) : bool := includes (toUpperCase l) ";START_ART".
Definition is_end (l : string) : bool := includes (toUpperCase l) ";END_ART".

(** The directive and the frame that the merge puts around the artwork
    block, for the value [modeValue] of the filament-change selector. *)
Definition spliced (modeValue : option string) (art : string) : string :=
  changeCommand (changeMode modeValue) ++ artwork_frame art.

(** A template of five lines whose markers are written in lower case and
    whose start marker occurs twice. *)
Definition twice_template : string :=
  ";start_art" ++ nl ++ "G28 ;start_art" ++ nl ++ "X" ++ nl ++ ";end_art" ++ nl ++ "M84".

(** A template whose end marker comes before its start marker. *)
Definition swapped_template : string :=
  ";END_ART" ++ nl ++ ";START_ART" ++ nl ++ "M84".

End Markers.

(** ** More concrete runs *)

Module Samples.
Import Core Runs.
Local Open Scope R_scope.

(** The defaults with the Hilbert path of order 6. *)
Definition hilbert_inputs : Inputs :=
  mkInputs "hilbert" 1.75 0.2 0.2 250 250 false 100 100 0.6 0.2 0.8 false
           10 100 1.5 0 1 6 false 2 2 false 0.4 30 1 1 black_pixels no_pan.

(** The defaults with the zigzag path in text mode, squiggle amplitude 2. *)
Definition text_inputs : Inputs :=
  mkInputs "zigzag" 1.75 0.2 0.2 250 250 false 100 100 0.6 0.2 0.8 false
           10 100 1.5 2 1 6 false 2 2 true 0.4 30 1 1 black_pixels no_pan.

(** The defaults with the square spiral and with the diagonal path. *)
Definition squareSpiral_inputs : Inputs :=
  mkInputs "squareSpiral" 1.75 0.2 0.2 250 250 false 100 100 0.6 0.2 0.8 false
           10 100 1.5 0 1 6 false 2 2 false 0.4 30 1 1 black_pixels no_pan.
Definition diagonal_inputs : Inputs :=
  mkInputs "diagonal" 1.75 0.2 0.2 250 250 false 100 100 0.6 0.2 0.8 false
           10 100 1.5 0 1 6 false 2 2 false 0.4 30 1 1 black_pixels no_pan.

(** An image of 2 by 2 pixels: black and white in the first row, white and
    black in the second. *)
Definition checker_pixels : list Z :=
  [0; 0; 0; 255;  255; 255; 255; 255;  255; 255; 255; 255;  0; 0; 0; 255]%Z.

(** A zigzag of 6 mm by 6 mm over a base with the default margin of 2. *)
Definition small_base_inputs : Inputs :=
  mkInputs "zigzag" 1.75 0.2 0.2 250 250 false 6 6 0.6 0.2 0.8 false
           10 100 1.5 0 1 6 true 2 2 false 0.4 30 1 1 black_pixels no_pan.

End Samples.

(* ================================================================== *)
(** * Part II.  Theorems *)
(* ================================================================== *)

Section HilbertFacts.
Import Hilbert.
Local Open Scope Z_scope.

Lemma ToInt32_mod2 z : JS.ToInt32 z mod 2 = z mod 2.
Proof.
  unfold JS.ToInt32.
  change (2 ^ 31) with 2147483648. change (2 ^ 32) with 4294967296.
  Z.to_euclidean_division_equations. lia.
Qed.

Lemma land1_mod2 z : Z.land 1 z = z mod 2.
Proof.
  rewrite Z.land_comm. change 1 with (Z.ones 1).
  rewrite Z.land_ones by lia. reflexivity.
Qed.

Lemma lxor_mod2 a b : Z.lxor a b mod 2 = (a + b) mod 2.
Proof.
  rewrite (Z.add_mod a b) by lia.
  rewrite <- (Z.bit0_mod (Z.lxor a b)), <- (Z.bit0_mod a), <- (Z.bit0_mod b).
  rewrite Z.lxor_spec.
  destruct (Z.testbit a 0), (Z.testbit b 0); reflexivity.
Qed.

Lemma and1_spec b : JS.and 1 b = b mod 2.
Proof.
  unfold JS.and. change (JS.ToInt32 1) with 1.
  rewrite land1_mod2. apply ToInt32_mod2.
Qed.

Lemma xor_mod2 a b : JS.xor a b mod 2 = (a + b) mod 2.
Proof.
  unfold JS.xor. rewrite lxor_mod2.
  rewrite Z.add_mod, !ToInt32_mod2, <- Z.add_mod by lia. reflexivity.
Qed.

Lemma shl_one o : 0 <= o <= 30 -> JS.shl 1 o = 2 ^ o.
Proof.
  intros Ho. unfold JS.shl. change (JS.ToInt32 1) with 1.
  rewrite Z.mod_small by lia.
  rewrite Z.shiftl_1_l. unfold JS.ToInt32.
  assert (0 < 2 ^ o) by (apply Z.pow_pos_nonneg; lia).
  assert (2 ^ o <= 2 ^ 30) by (apply Z.pow_le_mono_r; lia).
  change (2 ^ 30) with 1073741824 in *.
  change (2 ^ 31) with 2147483648. change (2 ^ 32) with 4294967296.
  rewrite Z.mod_small by lia. lia.
Qed.

Example hilbert_order1 :
  map (hilbert 1) [0; 1; 2; 3] = [Some (0, 0); Some (0, 1); Some (1, 1); Some (1, 0)].
Proof. reflexivity. Qed.

Example hilbert_order3_ends : hilbert 3 0 = Some (0, 0) /\ hilbert 3 63 = Some (7, 0).
Proof. split; reflexivity. Qed.

(** The loop body places the accumulated point in the quadrant selected by
    the two low bits of the remaining index. *)
Lemma body_quad s x y t :
  0 <= t ->
  body s (x, y, t) =
  (fst (quad s (t mod 4) (x, y)), snd (quad s (t mod 4) (x, y)), t / 4).
Proof.
  intros Ht. unfold body.
  rewrite !and1_spec, xor_mod2, Z.quot_div_nonneg by lia.
  assert (Hq : t mod 4 = 0 \/ t mod 4 = 1 \/ t mod 4 = 2 \/ t mod 4 = 3)
    by (pose proof (Z.mod_pos_bound t 4); lia).
  unfold quad.
  destruct Hq as [Hq | [Hq | [Hq | Hq]]]; rewrite Hq; cbn [Z.eqb fst snd].
  - assert (Hrx : (t / 2) mod 2 = 0) by (Z.to_euclidean_division_equations; lia).
    rewrite Hrx.
    assert (Hry : (t + 0) mod 2 = 0) by (Z.to_euclidean_division_equations; lia).
    rewrite Hry. cbn. f_equal. f_equal; lia.
  - assert (Hrx : (t / 2) mod 2 = 0) by (Z.to_euclidean_division_equations; lia).
    rewrite Hrx.
    assert (Hry : (t + 0) mod 2 = 1) by (Z.to_euclidean_division_equations; lia).
    rewrite Hry. cbn. f_equal. f_equal; lia.
  - assert (Hrx : (t / 2) mod 2 = 1) by (Z.to_euclidean_division_equations; lia).
    rewrite Hrx.
    assert (Hry : (t + 1) mod 2 = 1) by (Z.to_euclidean_division_equations; lia).
    rewrite Hry. cbn. f_equal. f_equal; lia.
  - assert (Hrx : (t / 2) mod 2 = 1) by (Z.to_euclidean_division_equations; lia).
    rewrite Hrx.
    assert (Hry : (t + 1) mod 2 = 0) by (Z.to_euclidean_division_equations; lia).
    rewrite Hry. cbn. f_equal. f_equal; lia.
Qed.

Lemma pow4_S k : 4 ^ Z.of_nat (S k) = 4 ^ Z.of_nat k * 4.
Proof. rewrite Nat2Z.inj_succ, Z.pow_succ_r by lia. lia. Qed.

Lemma pow2_S k : 2 ^ Z.of_nat (S k) = 2 ^ Z.of_nat k * 2.
Proof. rewrite Nat2Z.inj_succ, Z.pow_succ_r by lia. lia. Qed.

Lemma pow4_pos k : 0 < 4 ^ Z.of_nat k.
Proof. apply Z.pow_pos_nonneg; lia. Qed.

Lemma pow2_pos k : 0 < 2 ^ Z.of_nat k.
Proof. apply Z.pow_pos_nonneg; lia. Qed.

(** After [k] passes the loop holds [curve k d] and the index shifted by
    [2k] bits; [m] more passes reach the end of the loop. *)
Lemma loop_curve (o : nat) :
  forall (m k fuel : nat) (d : Z),
    (k + m = o)%nat -> (m <= fuel)%nat -> 0 <= d ->
    loop fuel (2 ^ Z.of_nat o) (2 ^ Z.of_nat k)
         (fst (curve k d), snd (curve k d), d / 4 ^ Z.of_nat k)
    = Some (curve o d).
Proof.
  induction m as [| m IH]; intros k fuel d Hk Hf Hd.
  - assert (k = o) by lia. subst k.
    destruct fuel; cbn [loop]; rewrite Z.ltb_irrefl;
      destruct (curve o d); reflexivity.
  - destruct fuel as [| fuel]; [lia |].
    cbn [loop].
    assert (Hlt : 2 ^ Z.of_nat k < 2 ^ Z.of_nat o)
      by (apply Z.pow_lt_mono_r; lia).
    apply Z.ltb_lt in Hlt. rewrite Hlt.
    rewrite body_quad by (apply Z.div_pos; [lia | apply pow4_pos]).
    rewrite <- pow2_S.
    rewrite Z.div_div by (pose proof (pow4_pos k); lia).
    rewrite <- pow4_S.
    rewrite <- (surjective_pairing (curve k d)).
    change (quad (2 ^ Z.of_nat k) ((d / 4 ^ Z.of_nat k) mod 4) (curve k d))
      with (curve (S k) d).
    apply IH; lia.
Qed.

(** The generator returns, and what it returns is the recursive curve. *)
Lemma hilbert_curve o d :
  0 <= o <= 30 -> 0 <= d -> hilbert o d = Some (curve (Z.to_nat o) d).
Proof.
  intros Ho Hd. unfold hilbert. rewrite shl_one by lia.
  pose proof (loop_curve (Z.to_nat o) (Z.to_nat o) 0 (Z.to_nat (2 ^ o)) d) as H.
  rewrite Z2Nat.id in H by lia.
  cbn [curve fst snd Z.of_nat] in H. rewrite Z.pow_0_r, Z.div_1_r in H.
  apply H; [lia | | lia].
  apply Z2Nat.inj_le; try lia.
  pose proof (Z.pow_gt_lin_r 2 o). lia.
Qed.

(** *** The recursive curve is a bijection with unit steps *)

Lemma quad_range s q p :
  0 < s -> 0 <= q < 4 -> 0 <= fst p < s -> 0 <= snd p < s ->
  0 <= fst (quad s q p) < s * 2 /\ 0 <= snd (quad s q p) < s * 2.
Proof.
  destruct p as [x y]. cbn [fst snd]. intros Hs Hq Hx Hy.
  assert (Hc : q = 0 \/ q = 1 \/ q = 2 \/ q = 3) by lia.
  destruct Hc as [-> | [-> | [-> | ->]]]; cbn; lia.
Qed.

Lemma quad_inj s q1 q2 p1 p2 :
  0 < s -> 0 <= q1 < 4 -> 0 <= q2 < 4 ->
  0 <= fst p1 < s -> 0 <= snd p1 < s ->
  0 <= fst p2 < s -> 0 <= snd p2 < s ->
  quad s q1 p1 = quad s q2 p2 -> q1 = q2 /\ p1 = p2.
Proof.
  destruct p1 as [x1 y1], p2 as [x2 y2]. cbn [fst snd].
  intros Hs Hq1 Hq2 Hx1 Hy1 Hx2 Hy2.
  assert (Hc1 : q1 = 0 \/ q1 = 1 \/ q1 = 2 \/ q1 = 3) by lia.
  assert (Hc2 : q2 = 0 \/ q2 = 1 \/ q2 = 2 \/ q2 = 3) by lia.
  destruct Hc1 as [-> | [-> | [-> | ->]]];
    destruct Hc2 as [-> | [-> | [-> | ->]]];
    cbn; intros H; injection H as Ha Hb;
    first [ lia | split; [reflexivity | f_equal; lia] ].
Qed.

Lemma quad_manhattan s q p1 p2 :
  0 <= q < 4 -> manhattan (quad s q p1) (quad s q p2) = manhattan p1 p2.
Proof.
  destruct p1 as [x1 y1], p2 as [x2 y2]. intros Hq.
  assert (Hc : q = 0 \/ q = 1 \/ q = 2 \/ q = 3) by lia.
  destruct Hc as [-> | [-> | [-> | ->]]]; unfold manhattan; cbn; lia.
Qed.

Lemma curve_range k d :
  0 <= fst (curve k d) < 2 ^ Z.of_nat k /\ 0 <= snd (curve k d) < 2 ^ Z.of_nat k.
Proof.
  induction k as [| k IH].
  - cbn. lia.
  - cbn [curve]. rewrite pow2_S.
    apply quad_range; try apply IH.
    + apply pow2_pos.
    + apply Z.mod_pos_bound. lia.
Qed.

Lemma digit_mod k d :
  ((d mod 4 ^ Z.of_nat (S k)) / 4 ^ Z.of_nat k) mod 4 = (d / 4 ^ Z.of_nat k) mod 4.
Proof.
  pose proof (pow4_pos k) as HP.
  rewrite pow4_S, Z.rem_mul_r by lia.
  rewrite Z.add_comm, Z.mul_comm, Z.div_add_l by lia.
  rewrite (Z.div_small (d mod _)) by (apply Z.mod_pos_bound; lia).
  rewrite Z.add_0_r. apply Z.mod_mod. lia.
Qed.

Lemma mod_pow4_S k d :
  (d mod 4 ^ Z.of_nat (S k)) mod 4 ^ Z.of_nat k = d mod 4 ^ Z.of_nat k.
Proof.
  apply Z.mod_mod_divide. exists 4. rewrite pow4_S. lia.
Qed.

(** [curve k] only reads the [k] low base-4 digits of the index. *)
Lemma curve_mod k : forall d, curve k (d mod 4 ^ Z.of_nat k) = curve k d.
Proof.
  induction k as [| k IH]; intros d.
  - reflexivity.
  - cbn [curve]. rewrite digit_mod. f_equal.
    rewrite <- (IH (d mod _)), mod_pow4_S. apply IH.
Qed.

Lemma curve_split k d :
  0 <= d < 4 ^ Z.of_nat (S k) ->
  curve (S k) d =
  quad (2 ^ Z.of_nat k) (d / 4 ^ Z.of_nat k) (curve k (d mod 4 ^ Z.of_nat k)).
Proof.
  intros Hd. pose proof (pow4_pos k) as HP. rewrite pow4_S in Hd.
  cbn [curve]. rewrite curve_mod. f_equal.
  apply Z.mod_small. split.
  - apply Z.div_pos; lia.
  - apply Z.div_lt_upper_bound; lia.
Qed.

Lemma digits_join P q r :
  0 <= r < P -> (q * P + r) / P = q /\ (q * P + r) mod P = r.
Proof.
  intros Hr. split.
  - rewrite Z.div_add_l by lia. rewrite Z.div_small by lia. lia.
  - rewrite Z.add_comm, Z.mod_add by lia. apply Z.mod_small. lia.
Qed.

Lemma digit_bound k d :
  0 <= d < 4 ^ Z.of_nat (S k) -> 0 <= d / 4 ^ Z.of_nat k < 4.
Proof.
  intros Hd. pose proof (pow4_pos k) as HP. rewrite pow4_S in Hd. split.
  - apply Z.div_pos; lia.
  - apply Z.div_lt_upper_bound; lia.
Qed.

Lemma curve_inj k :
  forall d1 d2, 0 <= d1 < 4 ^ Z.of_nat k -> 0 <= d2 < 4 ^ Z.of_nat k ->
    curve k d1 = curve k d2 -> d1 = d2.
Proof.
  induction k as [| k IH]; intros d1 d2 H1 H2 Heq.
  - cbn in H1, H2. lia.
  - pose proof (pow4_pos k) as HP.
    rewrite !curve_split in Heq by assumption.
    apply quad_inj in Heq; try apply curve_range;
      try (apply digit_bound; assumption); try apply pow2_pos.
    destruct Heq as [Hq Hr].
    apply IH in Hr; try (apply Z.mod_pos_bound; lia).
    rewrite (Z.div_mod d1 (4 ^ Z.of_nat k)), (Z.div_mod d2 (4 ^ Z.of_nat k)) by lia.
    congruence.
Qed.

Lemma curve_surj k :
  forall x y, 0 <= x < 2 ^ Z.of_nat k -> 0 <= y < 2 ^ Z.of_nat k ->
    exists d, 0 <= d < 4 ^ Z.of_nat k /\ curve k d = (x, y).
Proof.
  induction k as [| k IH]; intros x y Hx Hy.
  - exists 0. cbn in *. split; [lia | f_equal; lia].
  - pose proof (pow4_pos k) as HP. pose proof (pow2_pos k) as HS.
    rewrite pow2_S in Hx, Hy.
    set (s := 2 ^ Z.of_nat k) in *.
    assert (Hsel : exists q x' y', 0 <= q < 4 /\ 0 <= x' < s /\ 0 <= y' < s /\
                                   quad s q (x', y') = (x, y)).
    { destruct (Z_lt_dec x s) as [Hxs | Hxs], (Z_lt_dec y s) as [Hys | Hys].
      - exists 0, y, x. cbn. repeat split; lia.
      - exists 1, x, (y - s). cbn. repeat split; try lia. f_equal; lia.
      - exists 3, (s - 1 - y), (s * 2 - 1 - x). cbn.
        repeat split; try lia. f_equal; lia.
      - exists 2, (x - s), (y - s). cbn. repeat split; try lia. f_equal; lia. }
    destruct Hsel as (q & x' & y' & Hq & Hx' & Hy' & Hquad).
    destruct (IH x' y' Hx' Hy') as (r & Hr & Hcr).
    exists (q * 4 ^ Z.of_nat k + r).
    assert (Hd : 0 <= q * 4 ^ Z.of_nat k + r < 4 ^ Z.of_nat (S k))
      by (rewrite pow4_S; nia).
    split; [exact Hd |].
    rewrite curve_split by exact Hd.
    destruct (digits_join (4 ^ Z.of_nat k) q r Hr) as [-> ->].
    rewrite Hcr. exact Hquad.
Qed.

Lemma curve_first k : curve k 0 = (0, 0).
Proof.
  induction k as [| k IH]; [reflexivity |].
  cbn [curve]. rewrite IH, Z.div_0_l by (pose proof (pow4_pos k); lia).
  reflexivity.
Qed.

Lemma curve_last k : curve k (4 ^ Z.of_nat k - 1) = (2 ^ Z.of_nat k - 1, 0).
Proof.
  induction k as [| k IH]; [reflexivity |].
  pose proof (pow4_pos k) as HP.
  rewrite curve_split by (rewrite pow4_S; lia).
  replace (4 ^ Z.of_nat (S k) - 1) with (3 * 4 ^ Z.of_nat k + (4 ^ Z.of_nat k - 1))
    by (rewrite pow4_S; lia).
  destruct (digits_join (4 ^ Z.of_nat k) 3 (4 ^ Z.of_nat k - 1)) as [-> ->]; [lia |].
  rewrite IH, pow2_S. cbn. f_equal; lia.
Qed.

(** Consecutive indices are one grid step apart. *)
Lemma curve_adjacent k :
  forall d, 0 <= d -> d + 1 < 4 ^ Z.of_nat k ->
    manhattan (curve k d) (curve k (d + 1)) = 1.
Proof.
  induction k as [| k IH]; intros d Hd Hd1.
  - cbn in Hd1. lia.
  - pose proof (pow4_pos k) as HP. pose proof (pow2_pos k) as HS.
    set (P := 4 ^ Z.of_nat k) in *.
    assert (HdP : 0 <= d < 4 ^ Z.of_nat (S k)) by lia.
    pose proof (digit_bound k d HdP) as Hq. fold P in Hq.
    pose proof (Z.mod_pos_bound d P HP) as Hr.
    pose proof (Z.div_mod d P ltac:(lia)) as Hdm.
    rewrite !curve_split by lia. fold P.
    destruct (Z_lt_dec (d mod P + 1) P) as [Hin | Hout].
    + assert (Hsucc : d + 1 = d / P * P + (d mod P + 1)) by lia.
      rewrite Hsucc.
      destruct (digits_join P (d / P) (d mod P + 1)) as [-> ->]; [lia |].
      rewrite quad_manhattan by lia.
      apply IH; lia.
    + assert (Hr1 : d mod P = P - 1) by lia.
      assert (Hsucc : d + 1 = (d / P + 1) * P + 0) by lia.
      rewrite Hsucc.
      destruct (digits_join P (d / P + 1) 0) as [-> ->]; [lia |].
      rewrite Hr1. unfold P at 2. rewrite curve_last, curve_first.
      assert (Hq2 : d / P + 1 < 4).
      { rewrite pow4_S in Hd1. fold P in Hd1. nia. }
      set (s := 2 ^ Z.of_nat k) in *.
      assert (Hc : d / P = 0 \/ d / P = 1 \/ d / P = 2) by lia.
      destruct Hc as [-> | [-> | ->]]; unfold manhattan; cbn; lia.
Qed.

Lemma manhattan_chebyshev p q : manhattan p q = 1 -> chebyshev p q = 1.
Proof. unfold manhattan, chebyshev. lia. Qed.

(** C1.  For every curve order [o] the UI can select (3 to 8), [hilbert(o, .)]
    is a bijection from the indices [0, 4^o) onto the [2^o x 2^o] grid: it
    returns a cell of the grid for every index, distinct indices give
    distinct cells, and every cell of the grid is reached. *)
Theorem hilbert_bijection (o : Z) :
  3 <= o <= 8 ->
  (forall d, 0 <= d < 4 ^ o ->
     exists x y, hilbert o d = Some (x, y) /\ 0 <= x < 2 ^ o /\ 0 <= y < 2 ^ o) /\
  (forall d1 d2, 0 <= d1 < 4 ^ o -> 0 <= d2 < 4 ^ o ->
     hilbert o d1 = hilbert o d2 -> d1 = d2) /\
  (forall x y, 0 <= x < 2 ^ o -> 0 <= y < 2 ^ o ->
     exists d, 0 <= d < 4 ^ o /\ hilbert o d = Some (x, y)).
Proof.
  intros Ho.
  assert (Hid : Z.of_nat (Z.to_nat o) = o) by (apply Z2Nat.id; lia).
  split; [| split].
  - intros d Hd.
    exists (fst (curve (Z.to_nat o) d)), (snd (curve (Z.to_nat o) d)).
    rewrite hilbert_curve, <- surjective_pairing by lia.
    pose proof (curve_range (Z.to_nat o) d) as Hr. rewrite Hid in Hr.
    split; [reflexivity | exact Hr].
  - intros d1 d2 H1 H2 Heq.
    rewrite !hilbert_curve in Heq by lia.
    injection Heq as Heq.
    apply (curve_inj (Z.to_nat o)); rewrite ?Hid; assumption.
  - intros x y Hx Hy.
    destruct (curve_surj (Z.to_nat o) x y) as (d & Hd & Hc);
      rewrite ?Hid; try assumption.
    rewrite Hid in Hd. exists d. split; [exact Hd |].
    rewrite hilbert_curve by lia. congruence.
Qed.

Lemma hilbert_bijection_witness :
  3 <= 3 <= 8 /\
  (forall d1 d2, 0 <= d1 < 4 ^ 3 -> 0 <= d2 < 4 ^ 3 ->
     hilbert 3 d1 = hilbert 3 d2 -> d1 = d2).
Proof.
  split; [lia |].
  apply (hilbert_bijection 3). lia.
Defined.

(** C2.  For every curve order [o] from 3 to 8 and every pair of consecutive
    indices [d], [d+1] in [0, 4^o), the cells [hilbert(o, d)] and
    [hilbert(o, d+1)] are at Chebyshev distance exactly 1. *)
Theorem hilbert_locality (o d : Z) :
  3 <= o <= 8 -> 0 <= d -> d + 1 < 4 ^ o ->
  exists p q, hilbert o d = Some p /\ hilbert o (d + 1) = Some q /\
              chebyshev p q = 1.
Proof.
  intros Ho Hd Hd1.
  exists (curve (Z.to_nat o) d), (curve (Z.to_nat o) (d + 1)).
  rewrite !hilbert_curve by lia.
  split; [reflexivity | split; [reflexivity |]].
  apply manhattan_chebyshev, curve_adjacent; [lia |].
  rewrite Z2Nat.id by lia. exact Hd1.
Qed.

Lemma hilbert_locality_witness :
  exists p q, hilbert 3 20 = Some p /\ hilbert 3 (20 + 1) = Some q /\
              chebyshev p q = 1.
Proof.
  apply (hilbert_locality 3 20); [lia | lia | reflexivity].
Defined.

End HilbertFacts.

(** ** The template merger *)

Section MergeFacts.
Import Merge.
Local Open Scope string_scope.

Lemma length_append (s1 s2 : string) :
  String.length (s1 ++ s2) = (String.length s1 + String.length s2)%nat.
Proof. induction s1 as [| c s1 IH]; cbn; [reflexivity | now rewrite IH]. Qed.

Lemma append_nil_r (s : string) : s ++ EmptyString = s.
Proof. induction s as [| c s IH]; cbn; [reflexivity | now rewrite IH]. Qed.

Example roundtrip_lines :
  split_lines roundtrip_template = ["A"; ";START_ART"; "X"; ";END_ART"; "B"].
Proof. reflexivity. Qed.

Example roundtrip_markers :
  scan (split_lines roundtrip_template) 0 (-1) (-1) = (1, 3)%Z.
Proof. reflexivity. Qed.

Example split_crlf :
  split_lines ("a" ++ String CR nl ++ "b" ++ String CR "c") = ["a"; "b" ++ String CR "c"].
Proof. reflexivity. Qed.

(** A scan that meets no start marker leaves the start index as it was. *)
Lemma scan_no_start lines :
  forall i s e,
    (forall l, In l lines -> includes (toUpperCase l) ";START_ART" = false) ->
    fst (scan lines i s e) = s.
Proof.
  induction lines as [| l rest IH]; intros i s e Hno.
  - reflexivity.
  - cbn [scan]. rewrite (Hno l) by (left; reflexivity).
    apply IH. intros l' Hl'. apply Hno. right. exact Hl'.
Qed.

(** C8 (as the code has it).  For the template "A\n;START_ART\nX\n;END_ART\nB"
    and the artwork block "ART", in every filament-change mode, the merge
    returns the header "A\n;START_ART" (the lines up to the start marker
    joined by newlines, with no newline after the marker line), then the
    change directive, which is "\n; --- MANUAL PAUSE ---\nM600\n" in manual
    mode and empty in every other mode, then
    "\n; --- START ARTWORK ---\nART\n; --- END ARTWORK ---\n", then the footer
    ";END_ART\nB".  No warning is logged when the document has the
    filament-change selector; when it is missing, the mode is manual and the
    one warning "Element not found: filamentChangeMode" is logged. *)
Theorem merge_roundtrip (modeValue : option string) :
  mergeWithTemplate (Some roundtrip_template) modeValue "ART" =
  (roundtrip_header
     ++ (if String.eqb (changeMode modeValue) "manual"
         then nl ++ "; --- MANUAL PAUSE ---" ++ nl ++ "M600" ++ nl
         else EmptyString)
     ++ artwork_frame "ART" ++ roundtrip_footer,
   match modeValue with
   | Some _ => []
   | None => ["Element not found: filamentChangeMode"]
   end).
Proof.
  unfold mergeWithTemplate, changeCommand.
  destruct modeValue as [v |];
    [destruct (String.eqb (changeMode (Some v)) "manual") |]; reflexivity.
Qed.

(** C8 as stated fails: in a mode whose change directive is empty (here the
    slot-select mode "ams") the output is not the header "A\n;START_ART\n"
    followed by a directive, the artwork frame and the footer, whatever the
    directive: the code puts no newline of its own after the marker line. *)
Lemma merge_roundtrip_counterexample :
  ~ exists directive : string,
      fst (mergeWithTemplate (Some roundtrip_template) (Some "ams") "ART") =
      (roundtrip_header ++ nl) ++ directive ++ artwork_frame "ART" ++ roundtrip_footer.
Proof.
  intros [directive H].
  apply (f_equal String.length) in H.
  rewrite !length_append in H.
  match type of H with
  | ?l = _ => let v := eval vm_compute in l in change l with v in H
  end.
  cbn in H. lia.
Qed.

(** C9 (as the code has it).  If the loaded template is not the empty string
    and none of its lines, in upper case, contains ";START_ART", the merge
    logs one warning and returns the whole template text, a newline and the
    artwork block: nothing is spliced, dropped or inserted. *)
Theorem merge_marker_missing (content : string) (modeValue : option string) (art : string) :
  content <> EmptyString ->
  (forall l, In l (split_lines content) ->
             includes (toUpperCase l) ";START_ART" = false) ->
  mergeWithTemplate (Some content) modeValue art =
  (content ++ nl ++ art, ["Marker ;START_ART not found in template"]).
Proof.
  intros Hne Hno. unfold mergeWithTemplate, falsy.
  destruct (String.eqb_spec content EmptyString) as [Heq | _]; [contradiction |].
  pose proof (scan_no_start (split_lines content) 0 (-1) (-1) Hno) as Hs.
  destruct (scan (split_lines content) 0 (-1) (-1)) as [s e].
  cbn [fst] in Hs. subst s. reflexivity.
Qed.

Lemma merge_marker_missing_witness :
  mergeWithTemplate (Some ("G28" ++ nl ++ "M104 S200")) None "ART" =
  (("G28" ++ nl ++ "M104 S200") ++ nl ++ "ART",
   ["Marker ;START_ART not found in template"]).
Proof.
  apply merge_marker_missing.
  - discriminate.
  - intros l Hl. cbn in Hl.
    destruct Hl as [<- | [<- | []]]; reflexivity.
Defined.

(** C9 as stated fails for a loaded template that is the empty string: it
    has a single line, without the marker, yet the merge returns the bare
    artwork block, without the newline in front and without a warning. *)
Lemma merge_marker_missing_counterexample :
  (forall l, In l (split_lines EmptyString) ->
             includes (toUpperCase l) ";START_ART" = false) /\
  mergeWithTemplate (Some EmptyString) None "ART" = ("ART", []) /\
  mergeWithTemplate (Some EmptyString) None "ART" <>
  (EmptyString ++ nl ++ "ART", ["Marker ;START_ART not found in template"]).
Proof.
  split; [| split].
  - intros l [<- | []]. reflexivity.
  - reflexivity.
  - discriminate.
Qed.

(** C10.  With no template loaded ([null]) the merge is the identity on the
    artwork block: no warning, no directive, no markers, header or footer;
    the final output of the run is the joined artwork lines. *)
Theorem merge_no_template (modeValue : option string) (art : string) (gcode : list string) :
  mergeWithTemplate None modeValue art = (art, []) /\
  finalGcode None modeValue gcode = join gcode.
Proof. split; reflexivity. Qed.

End MergeFacts.

(** ** Real comparisons, loops and base generators *)

Section LoopFacts.
Import Core.
Local Open Scope R_scope.

Lemma Rltb_true a b : a < b -> Rltb a b = true.
Proof. intros H. unfold Rltb. destruct (Rlt_dec a b); [reflexivity | contradiction]. Qed.

Lemma Rltb_false a b : b <= a -> Rltb a b = false.
Proof. intros H. unfold Rltb. destruct (Rlt_dec a b); [lra | reflexivity]. Qed.

Lemma Rleb_true a b : a <= b -> Rleb a b = true.
Proof. intros H. unfold Rleb. destruct (Rle_dec a b); [reflexivity | contradiction]. Qed.

Lemma Rleb_false a b : b < a -> Rleb a b = false.
Proof. intros H. unfold Rleb. destruct (Rle_dec a b); [lra | reflexivity]. Qed.

Lemma Rltb_spec a b : reflect (a < b) (Rltb a b).
Proof. unfold Rltb. destruct (Rlt_dec a b); constructor; assumption. Qed.

Lemma Rleb_spec a b : reflect (a <= b) (Rleb a b).
Proof. unfold Rleb. destruct (Rle_dec a b); constructor; assumption. Qed.

(** *** Termination of the real-stepped loops *)

Lemma for_real_total {S : Type} (body : R -> S -> S) (hi step : R) :
  0 < step ->
  forall (fuel : nat) (v : R) (st : S),
    hi - v < INR fuel * step ->
    exists st', for_real fuel v hi step body st = Some st'.
Proof.
  intros Hstep. induction fuel as [| fuel IH]; intros v st Hf.
  - cbn [INR] in Hf. cbn [for_real].
    rewrite Rleb_false by lra. eexists. reflexivity.
  - cbn [for_real]. destruct (Rleb_spec v hi) as [Hle | Hgt].
    + apply IH. rewrite S_INR in Hf. lra.
    + eexists. reflexivity.
Qed.

Lemma passes_enough lo hi step :
  0 < step -> hi - lo < INR (passes lo hi step) * step.
Proof.
  intros Hstep. unfold passes.
  set (q := (hi - lo) / step).
  assert (Hq : hi - lo = q * step) by (unfold q; field; lra).
  destruct (archimed q) as [Hup _].
  destruct (Z_le_gt_dec (up q) 0) as [Hneg | Hpos].
  - assert (IZR (up q) <= 0) by (apply IZR_le in Hneg; exact Hneg).
    replace (Z.to_nat (up q)) with 0%nat by lia. cbn [INR]. nra.
  - rewrite INR_IZR_INZ, Z2Nat.id by lia. nra.
Qed.

Lemma for_each_total {A S : Type} (body : A -> S -> option S) :
  (forall a st, exists st', body a st = Some st') ->
  forall l st, exists st', for_each l body st = Some st'.
Proof.
  intros Hb. induction l as [| a l IH]; intros st.
  - eexists. reflexivity.
  - cbn [for_each]. destruct (Hb a st) as [st1 ->]. apply IH.
Qed.

Lemma baseOverlap_pos : 0 < baseOverlap.
Proof. unfold baseOverlap. lra. Qed.

Lemma circular_layer_total i layer st :
  exists st', circular_layer i layer st = Some st'.
Proof.
  unfold circular_layer.
  match goal with
  | |- context [for_real ?f ?v ?hi ?s ?b ?x] =>
      destruct (for_real_total b hi s baseOverlap_pos f v x) as [[st1 g] ->]
  end.
  - apply passes_enough, baseOverlap_pos.
  - eexists. reflexivity.
Qed.

Lemma rect_layer_total i ox oy w h layer st :
  exists st', rect_layer i ox oy w h layer st = Some st'.
Proof.
  unfold rect_layer.
  match goal with
  | |- context [for_real ?f ?v ?hi ?s ?b ?x] =>
      destruct (for_real_total b hi s baseOverlap_pos f v x) as [[st1 g] ->]
  end.
  - apply passes_enough, baseOverlap_pos.
  - eexists. reflexivity.
Qed.

Lemma wall_inset : INR numWalls * wallSpacing = 1.26.
Proof. unfold numWalls, wallSpacing. cbn [INR]. lra. Qed.

Lemma generateSquareBase_margin i st :
  exists st', generateSquareBase i st = Some (st', baseMargin i + 3 * 0.42).
Proof.
  unfold generateSquareBase.
  match goal with
  | |- context [for_each ?l ?b ?x] =>
      destruct (for_each_total b (rect_layer_total i _ _ _ _) l x) as [st1 ->]
  end.
  exists st1. rewrite wall_inset. do 2 f_equal. lra.
Qed.

Lemma generateRectangularBase_margin i st :
  exists st', generateRectangularBase i st = Some (st', baseMargin i + 3 * 0.42).
Proof.
  unfold generateRectangularBase.
  match goal with
  | |- context [for_each ?l ?b ?x] =>
      destruct (for_each_total b (rect_layer_total i _ _ _ _) l x) as [st1 ->]
  end.
  exists st1. rewrite wall_inset. do 2 f_equal. lra.
Qed.

Lemma generateCircularBase_margin i st :
  exists st', generateCircularBase i st = Some (st', baseMargin i).
Proof.
  unfold generateCircularBase.
  match goal with
  | |- context [for_each ?l ?b ?x] =>
      destruct (for_each_total b (circular_layer_total i) l x) as [st1 ->]
  end.
  exists st1. reflexivity.
Qed.

End LoopFacts.

(** ** The motion encoder *)

Section MotionFacts.
Import Core Runs.
Local Open Scope R_scope.

Lemma hypot_nonneg a b : 0 <= hypot a b.
Proof. apply sqrt_pos. Qed.

Lemma hypot_x0 a : 0 <= a -> hypot a 0 = a.
Proof.
  intros Ha. unfold hypot.
  replace (a * a + 0 * 0) with (a * a) by ring. apply sqrt_square, Ha.
Qed.

Lemma hypot_ge_l a b : 0 <= a -> a <= hypot a b.
Proof.
  intros Ha. unfold hypot.
  rewrite <- (sqrt_square a Ha) at 1.
  apply sqrt_le_1_alt. nra.
Qed.

Lemma filArea_pos i : 0 < filamentDia i -> 0 < filArea i.
Proof.
  intros Hd. unfold filArea. pose proof PI_RGT_0.
  apply Rmult_lt_0_compat; [lra | apply pow_lt; lra].
Qed.

(** [toFixed] moves a number by at most half a unit of the last digit. *)
Lemma toFixed_error x digits :
  Rabs (IZR (toFixed x digits) / 10 ^ digits - x) <= / 2 / 10 ^ digits.
Proof.
  assert (Hp : 0 < 10 ^ digits) by (apply pow_lt; lra).
  set (p := 10 ^ digits) in *.
  assert (Hkey : forall m : R, Rabs (m - x * p) <= / 2 ->
                               Rabs (m / p - x) <= / 2 / p).
  { intros m Hm.
    replace (m / p - x) with ((m - x * p) / p) by (field; lra).
    unfold Rdiv at 1. rewrite Rabs_mult, (Rabs_pos_eq (/ p)).
    - apply Rmult_le_compat_r; [| exact Hm].
      left. apply Rinv_0_lt_compat, Hp.
    - left. apply Rinv_0_lt_compat, Hp. }
  apply Hkey. unfold toFixed. fold p.
  destruct (Rltb_spec x 0) as [Hneg | Hpos].
  - pose proof (Zfloor_bound (- x * p + / 2)) as [Hlo Hhi].
    rewrite opp_IZR. apply Rabs_le. lra.
  - pose proof (Zfloor_bound (x * p + / 2)) as [Hlo Hhi].
    apply Rabs_le. lra.
Qed.

Lemma writeMove_travel i x y w f isTravel st :
  isTravel = true \/ hypot (x - prevX st) (y - prevY st) < 0.01 ->
  fst (writeMove i x y w f isTravel st) =
  mkState x y (totalE st) (gcode st ++ [Travel x y]).
Proof.
  intros H. unfold writeMove. cbn [fst].
  assert (Hc : isTravel || Rltb (hypot (x - prevX st) (y - prevY st)) 0.01 = true).
  { destruct H as [-> | H]; [reflexivity |].
    rewrite (Rltb_true _ _ H). apply orb_true_r. }
  rewrite Hc. reflexivity.
Qed.

Lemma writeMove_print i x y w f st :
  0.01 <= hypot (x - prevX st) (y - prevY st) ->
  fst (writeMove i x y w f false st) =
  mkState x y
    (totalE st + hypot (x - prevX st) (y - prevY st) * w * layerHeight i / filArea i)
    (gcode st ++
       [Print x y (hypot (x - prevX st) (y - prevY st) * w * layerHeight i / filArea i) f]).
Proof.
  intros H. unfold writeMove. cbn [fst orb].
  rewrite (Rltb_false _ _ H). reflexivity.
Qed.

(** C3 (as the code has it).  For every call [writeMove(x, y, targetW,
    targetF, isTravel)], with [dist] the distance from the previous position:
    if [isTravel] holds or [dist < 0.01] one travel line at F6000 is emitted
    and [totalE] is unchanged; otherwise one printing line is emitted for the
    extrusion length [e = dist * targetW * layerHeight / (pi *
    (filamentDia/2)^2)], and [e] itself is added to [totalE].  The text of the
    printing line carries [e] rounded to 5 decimals (within 0.000005 of [e],
    which is not a relative tolerance) and [targetF] rounded to an integer. *)
Theorem writeMove_spec (i : Inputs) (x y targetW targetF : R) (isTravel : bool)
    (st : State) :
  let dist := hypot (x - prevX st) (y - prevY st) in
  let e := dist * targetW * layerHeight i / (PI * (filamentDia i / 2) ^ 2) in
  let st' := fst (writeMove i x y targetW targetF isTravel st) in
  snd (writeMove i x y targetW targetF isTravel st) = dist /\
  prevX st' = x /\ prevY st' = y /\
  (isTravel = true \/ dist < 0.01 ->
     gcode st' = gcode st ++ [Travel x y] /\
     render (Travel x y) = TG0 (toFixed x 3) (toFixed y 3) 6000 /\
     totalE st' = totalE st) /\
  (isTravel = false /\ 0.01 <= dist ->
     gcode st' = gcode st ++ [Print x y e targetF] /\
     render (Print x y e targetF) =
       TG1 (toFixed x 3) (toFixed y 3) (toFixed e 5) (toFixed targetF 0) /\
     Rabs (IZR (toFixed e 5) / 10 ^ 5 - e) <= / 2 / 10 ^ 5 /\
     Rabs (IZR (toFixed targetF 0) - targetF) <= / 2 /\
     totalE st' = totalE st + e).
Proof.
  intros dist e st'. split; [reflexivity |].
  split; [reflexivity |]. split; [reflexivity |]. split.
  - intros H. subst st'. rewrite (writeMove_travel i x y _ _ _ st H).
    repeat split.
  - intros [-> H]. subst st'. rewrite (writeMove_print i x y _ _ st H).
    cbn [gcode totalE]. fold dist. unfold filArea. fold e.
    repeat split.
    + apply toFixed_error.
    + pose proof (toFixed_error targetF 0) as Hf. cbn [pow] in Hf.
      replace (IZR (toFixed targetF 0) / 1) with (IZR (toFixed targetF 0)) in Hf
        by field.
      replace (/ 2 / 1) with (/ 2) in Hf by field. exact Hf.
Qed.

End MotionFacts.

Section MotionRuns.
Import Core Runs.
Local Open Scope R_scope.

Lemma PI_gt_3 : 3 < PI.
Proof. pose proof PI2_3_2. lra. Qed.

Lemma toFixed_eval x digits z :
  0 <= x -> IZR z <= x * 10 ^ digits + / 2 < IZR z + 1 -> toFixed x digits = z.
Proof.
  intros Hx Hz. unfold toFixed. rewrite Rltb_false by lra.
  apply Zfloor_eq. exact Hz.
Qed.

Lemma div_between a d lo :
  0 < a -> 0 < lo -> lo < d -> 0 < a / d < a / lo.
Proof.
  intros Ha Hlo Hd. split.
  - apply Rdiv_lt_0_compat; lra.
  - unfold Rdiv. apply Rmult_lt_compat_l; [lra |].
    apply Rinv_lt_contravar; [nra | lra].
Qed.

Lemma writeMove_spec_witness :
  gcode (fst (writeMove thin_inputs 1 0 0.4 1200 false start_state)) =
    [Print 1 0 (1 * 0.4 * 0.05 / (PI * (5 / 2) ^ 2)) 1200] /\
  totalE (fst (writeMove thin_inputs 1 0 0.4 1200 false start_state)) =
    0 + 1 * 0.4 * 0.05 / (PI * (5 / 2) ^ 2).
Proof.
  pose proof (writeMove_spec thin_inputs 1 0 0.4 1200 false start_state) as H.
  cbv zeta in H. destruct H as (_ & _ & _ & _ & H).
  cbn [prevX prevY totalE gcode start_state thin_inputs layerHeight filamentDia] in H.
  replace (1 - 0) with 1 in H by ring. replace (0 - 0) with 0 in H by ring.
  rewrite (hypot_x0 1) in H by lra.
  destruct H as (Hg & _ & _ & _ & Ht); [split; [reflexivity | lra] |].
  split; [exact Hg | exact Ht].
Defined.

(** C3 as stated fails on the emitted line: with the thinnest layer (0.05),
    the widest filament (5) and a 0.02 mm segment of width 0.05 the
    extrusion length is positive and below 0.000005, so the line printed is
    [G1 X0.020 Y0.000 E0.00000 F600]: its extrusion field is 0, which is not
    within 1e-9 relative of the extrusion length added to [totalE]. *)
Lemma writeMove_extrusion_counterexample :
  let e := 0.02 * 0.05 * 0.05 / (PI * (5 / 2) ^ 2) in
  fst (writeMove thin_inputs 0.02 0 0.05 600 false start_state) =
    mkState 0.02 0 (0 + e) [Print 0.02 0 e 600] /\
  render (Print 0.02 0 e 600) = TG1 20 0 0 600 /\
  ~ rel_close (IZR 0 / 10 ^ 5) e.
Proof.
  intros e.
  assert (He : 0 < e < 0.000004).
  { pose proof PI_gt_3 as Hpi. unfold e.
    destruct (div_between (0.02 * 0.05 * 0.05) (PI * (5 / 2) ^ 2) 18.75)
      as [H0 H1]; lra. }
  split; [| split].
  - rewrite writeMove_print.
    + cbn [prevX prevY totalE gcode start_state thin_inputs layerHeight
           filamentDia filArea app].
      replace (0.02 - 0) with 0.02 by ring. replace (0 - 0) with 0 by ring.
      rewrite hypot_x0 by lra. reflexivity.
    + cbn [prevX prevY start_state].
      replace (0.02 - 0) with 0.02 by ring. replace (0 - 0) with 0 by ring.
      rewrite hypot_x0 by lra. lra.
  - unfold render. f_equal; apply toFixed_eval; cbn [pow]; lra.
  - unfold rel_close. intros Hc.
    replace (IZR 0 / 10 ^ 5 - e) with (- e) in Hc by (cbn [pow]; field).
    rewrite Rabs_Ropp, Rabs_pos_eq in Hc by lra. lra.
Qed.

End MotionRuns.

(** ** The brightness sampler on the two test images *)

Section SamplerRuns.
Import Core Runs.
Local Open Scope R_scope.

(** Evaluates the array reads [nth k pixels 0] of a concrete image. *)
Ltac eval_pixels :=
  unfold pixelBrightness, pixel_at;
  repeat match goal with
  | |- context [IZR (nth ?n ?l ?d)] =>
      let v := eval vm_compute in (nth n l d) in
      change (IZR (nth n l d)) with (IZR v)
  end.

Lemma black_brightness view u v gamma :
  getBrightnessAtUV view u v black_pixels 1 1 gamma = 1.
Proof.
  unfold getBrightnessAtUV.
  change (IZR (1 - 1)) with 0. rewrite !Rmult_0_r.
  rewrite (ZfloorZ 0).
  change (Z.min (0 + 1) (1 - 1)) with 0%Z.
  assert (Hp : pixelBrightness black_pixels 1 0 0 = 0).
  { eval_pixels. lra. }
  rewrite Hp.
  match goal with
  | |- 1 - pow_js ?val _ = 1 => replace val with 0 by (field; lra)
  end.
  unfold pow_js. rewrite Rleb_true by lra. ring.
Qed.

Lemma gradient_brightness u v :
  0 < u < 1 ->
  getBrightnessAtUV no_pan u v gradient_pixels 2 1 1 = 1 - u.
Proof.
  intros Hu. unfold getBrightnessAtUV, no_pan. cbn [imageZoom imageOffsetX imageOffsetY].
  replace (u / 1 + 0) with u by field.
  rewrite (Rmin_right 1 u), (Rmax_right 0 u) by lra.
  change (IZR (2 - 1)) with 1. change (IZR (1 - 1)) with 0.
  rewrite Rmult_1_r, Rmult_0_r.
  rewrite (ZfloorZ 0), (Zfloor_eq 0 u) by (cbn; lra).
  change (Z.min (0 + 1) (2 - 1)) with 1%Z.
  change (Z.min (0 + 1) (1 - 1)) with 0%Z.
  assert (Hp0 : pixelBrightness gradient_pixels 2 0 0 = 0).
  { eval_pixels. lra. }
  assert (Hp1 : pixelBrightness gradient_pixels 2 1 0 = 255).
  { eval_pixels. lra. }
  rewrite Hp0, Hp1.
  match goal with
  | |- 1 - pow_js ?val ?ex = _ =>
      replace val with u by (field; lra); replace ex with 1 by field
  end.
  unfold pow_js. rewrite Rleb_false by lra. rewrite Rpower_1 by lra. reflexivity.
Qed.

Lemma black_darkness x y : darknessAt zigzag_base_inputs x y = 1.
Proof. unfold darknessAt. apply black_brightness. Qed.

Lemma gradient_darkness x y :
  75 < x < 175 -> darknessAt gradient_inputs x y = 1 - (x - 75) / 100.
Proof.
  intros Hx. unfold darknessAt.
  cbn [gradient_inputs view pixels anaW anaH gammaVal mirrorimage offsetX offsetY
       originAtCenter bedWidth bedHeight printWidth printHeight].
  replace ((250 - 100) / 2) with 75 by field.
  apply gradient_brightness. lra.
Qed.

End SamplerRuns.

(** ** The smart move and its squiggle *)

Section SquiggleFacts.
Import Core Trace Runs.
Local Open Scope R_scope.

(** A run of [writeMove] calls with one width and one speed appends one
    instruction per call, ending at the point of the call. *)
Lemma fold_writeMove i w f (pt : nat -> R * R) :
  forall (l : list nat) (st : State),
  exists new,
    gcode (fold_left
             (fun st k => fst (writeMove i (fst (pt k)) (snd (pt k)) w f false st))
             l st) = gcode st ++ new /\
    map endpoint new = map (fun k => Some (pt k)) l /\
    Forall (uniform i w f) new.
Proof.
  induction l as [| k l IH]; intros st.
  - exists []. cbn. rewrite app_nil_r. repeat split. constructor.
  - cbn [fold_left].
    destruct (IH (fst (writeMove i (fst (pt k)) (snd (pt k)) w f false st)))
      as (new & Hg & Hp & Hu).
    destruct (Rlt_dec (hypot (fst (pt k) - prevX st) (snd (pt k) - prevY st)) 0.01)
      as [Hshort | Hlong].
    + rewrite writeMove_travel in Hg |- * by (right; exact Hshort).
      cbn [gcode] in Hg.
      exists (Travel (fst (pt k)) (snd (pt k)) :: new).
      rewrite Hg, <- app_assoc. split; [reflexivity |]. split.
      * cbn [map endpoint]. rewrite Hp, <- surjective_pairing. reflexivity.
      * constructor; [exact I | exact Hu].
    + apply Rnot_lt_le in Hlong.
      rewrite writeMove_print in Hg |- * by exact Hlong.
      cbn [gcode] in Hg.
      eexists (Print (fst (pt k)) (snd (pt k)) _ f :: new).
      rewrite Hg, <- app_assoc. split; [reflexivity |]. split.
      * cbn [map endpoint]. rewrite Hp, <- surjective_pairing. reflexivity.
      * constructor; [| exact Hu].
        split; [reflexivity |]. eexists. split; [exact Hlong | reflexivity].
Qed.

Lemma numSegments_ge_2 d : (2 <= numSegments d)%nat.
Proof. unfold numSegments. lia. Qed.

(** The branch of [doSmartMove] taken for a point inside the clip region,
    outside text mode, with squiggle on and darkness at least 0.1. *)
Lemma doSmartMove_squiggle i innerRadius x y st :
  addCircularBase i && negb (isInsideBaseClip i innerRadius x y) = false ->
  textMode i = false -> useSquiggle i = true -> 0.1 <= darknessAt i x y ->
  doSmartMove i innerRadius x y false st =
  squiggle i (darknessAt i x y)
           (minW i + darknessAt i x y * (maxW i - minW i))
           (maxSpeed i - darknessAt i x y * (maxSpeed i - minSpeed i)) x y st.
Proof.
  intros Hclip Htext Hsq Hd. unfold doSmartMove.
  rewrite Hclip, Htext, Hsq. cbn [andb negb orb].
  rewrite (Rltb_false _ _ Hd). reflexivity.
Qed.


End SquiggleFacts.

Section SquiggleRuns.
Import Core Trace Runs.
Local Open Scope R_scope.

(** The first instruction of a squiggle whose first sub-segment is not
    shorter than 0.01. *)
Lemma squiggle_head i d w f x y st :
  let p := squigglePoint i d (prevX st) (prevY st) x y 1 in
  let dist := hypot (fst p - prevX st) (snd p - prevY st) in
  0.01 <= dist ->
  exists rest,
    gcode (squiggle i d w f x y st) =
    gcode st ++ Print (fst p) (snd p) (dist * w * layerHeight i / filArea i) f :: rest.
Proof.
  intros p dist Hdist. unfold squiggle.
  pose proof (numSegments_ge_2 (hypot (x - prevX st) (y - prevY st))) as Hn.
  destruct (numSegments (hypot (x - prevX st) (y - prevY st))) as [| m]; [lia |].
  cbn [seq fold_left]. fold p.
  destruct (fold_writeMove i w f (squigglePoint i d (prevX st) (prevY st) x y)
              (seq 2 m) (fst (writeMove i (fst p) (snd p) w f false st)))
    as (rest & Hg & _ & _).
  exists rest. rewrite Hg, writeMove_print by exact Hdist.
  cbn [gcode]. rewrite <- app_assoc. reflexivity.
Qed.

(** Sub-point [k] of a segment that runs in the direction of increasing x. *)
Lemma squigglePoint_horizontal i d sx sy x k :
  sx < x ->
  let n := INR (numSegments (x - sx)) in
  squigglePoint i d sx sy x sy k =
  (sx + (x - sx) / n * INR k,
   sy + sin (INR k / n * (x - sx) * (squiggleFreq i * TWO_PI)) * (squiggleAmp i * d)).
Proof.
  intros Hx n. unfold squigglePoint.
  replace (sy - sy) with 0 by ring.
  rewrite (hypot_x0 (x - sx)) by lra. fold n.
  assert (Hn : 0 < n).
  { unfold n. apply lt_0_INR. pose proof (numSegments_ge_2 (x - sx)). lia. }
  replace (0 / n) with 0 by (field; lra).
  assert (Hdx : 0 < (x - sx) / n) by (apply Rdiv_lt_0_compat; lra).
  rewrite (hypot_x0 ((x - sx) / n)) by lra.
  f_equal; field; lra.
Qed.

Lemma numSegments_half : numSegments 0.5 = 5%nat.
Proof.
  unfold numSegments. rewrite (Zfloor_eq 5 (0.5 / 0.1)) by lra. reflexivity.
Qed.

Lemma gradient_darkness_end : darknessAt gradient_inputs 75.5 75 = 0.995.
Proof. rewrite gradient_darkness by lra. lra. Qed.

Lemma gradient_squiggle_on : useSquiggle gradient_inputs = true.
Proof. unfold useSquiggle. apply Rltb_true. cbn [gradient_inputs squiggleAmp]. lra. Qed.


(** The first move of the zigzag on the gradient image: from the start
    point (75, 75) to (75.5, 75).  Its first sub-segment ends at x = 75.1 and
    is printed at the speed given by the darkness at (75.5, 75). *)
Lemma gradient_first_move tot g :
  exists py e rest,
    gcode (doSmartMove gradient_inputs 0 75.5 75 false (mkState 75 75 tot g)) =
    g ++ Print 75.1 py e
           (maxSpeed gradient_inputs - darknessAt gradient_inputs 75.5 75
              * (maxSpeed gradient_inputs - minSpeed gradient_inputs)) :: rest.
Proof.
  set (st := mkState 75 75 tot g).
  set (d := darknessAt gradient_inputs 75.5 75).
  assert (Hp : exists py,
             squigglePoint gradient_inputs d (prevX st) (prevY st) 75.5 75 1
             = (75.1, py)).
  { cbn [st prevX prevY]. eexists.
    rewrite squigglePoint_horizontal by lra.
    replace (75.5 - 75) with 0.5 by lra. rewrite numSegments_half.
    f_equal. cbn [INR]. lra. }
  destruct Hp as [py Hp].
  destruct (squiggle_head gradient_inputs d
              (minW gradient_inputs + d * (maxW gradient_inputs - minW gradient_inputs))
              (maxSpeed gradient_inputs - d * (maxSpeed gradient_inputs - minSpeed gradient_inputs))
              75.5 75 st) as [rest Hg].
  { rewrite Hp. cbn [fst snd st prevX prevY].
    pose proof (hypot_ge_l (75.1 - 75) (py - 75)). lra. }
  rewrite Hp in Hg. cbn [fst snd st gcode] in Hg.
  exists py. eexists. exists rest.
  rewrite doSmartMove_squiggle.
  - exact Hg.
  - reflexivity.
  - reflexivity.
  - exact gradient_squiggle_on.
  - rewrite gradient_darkness_end. lra.
Qed.

End SquiggleRuns.

(** ** The clip test *)

Section ClipFacts.
Import Core Trace Runs.
Local Open Scope R_scope.

Lemma writeMove_emits i x y w f t st ins :
  In ins (gcode (fst (writeMove i x y w f t st))) ->
  In ins (gcode st) \/ ins = Travel x y \/ (t = false /\ exists e, ins = Print x y e f).
Proof.
  unfold writeMove. cbn [fst]. intros H.
  destruct t; cbn [orb] in H.
  - cbn [set_prev push gcode] in H.
    apply in_app_or in H. destruct H as [H | [H | []]]; subst; auto.
  - destruct (Rltb (hypot (x - prevX st) (y - prevY st)) 0.01);
      cbn [set_prev add_totalE push gcode] in H;
      apply in_app_or in H; destruct H as [H | [H | []]]; subst; eauto.
Qed.

(** Outside the squiggle branch, a printing move that [doSmartMove] emits
    over a base ends at the point that passed the clip test. *)
Lemma doSmartMove_plain_clipped i innerRadius x y isConnect st :
  addCircularBase i = true ->
  (isConnect = true \/ useSquiggle i = false \/ textMode i = true
   \/ darknessAt i x y < 0.1) ->
  forall px py e f,
    In (Print px py e f) (gcode (doSmartMove i innerRadius x y isConnect st)) ->
    In (Print px py e f) (gcode st) \/
    (px = x /\ py = y /\ isInsideBaseClip i innerRadius x y = true).
Proof.
  intros Hbase Hplain px py e f Hin. unfold doSmartMove in Hin.
  rewrite Hbase in Hin. cbn [andb] in Hin.
  destruct (isInsideBaseClip i innerRadius x y) eqn:Hclip; cbn [negb] in Hin.
  - assert (Hwm : forall w f' t,
               In (Print px py e f) (gcode (fst (writeMove i x y w f' t st))) ->
               In (Print px py e f) (gcode st) \/ (px = x /\ py = y /\ true = true)).
    { intros w f' t H. apply writeMove_emits in H.
      destruct H as [H | [H | (_ & e' & H)]]; [auto | discriminate |].
      injection H as -> -> _ _. auto. }
    destruct (textMode i && negb isConnect) eqn:Htm.
    + destruct (Rltb (darknessAt i x y) (textThreshold i)); eapply Hwm; exact Hin.
    + destruct (isConnect || negb (useSquiggle i) || Rltb (darknessAt i x y) 0.1) eqn:Hb.
      * eapply Hwm; exact Hin.
      * exfalso. apply orb_false_elim in Hb. destruct Hb as [Hb Hd].
        apply orb_false_elim in Hb. destruct Hb as [Hc Hs].
        apply negb_false_iff in Hs. subst isConnect.
        rewrite andb_true_r in Htm.
        destruct Hplain as [H | [H | [H | H]]]; try congruence.
        apply Rltb_true in H. congruence.
  - apply writeMove_emits in Hin.
    destruct Hin as [H | [H | (H & _)]]; [auto | discriminate | discriminate].
Qed.

Lemma zigzag_base_margin st :
  exists st',
    generateBase zigzag_base_inputs st =
    Some (st', baseMargin zigzag_base_inputs + 3 * 0.42).
Proof.
  unfold generateBase.
  assert (H1 : is_path zigzag_base_inputs "spiral" = false) by reflexivity.
  assert (H2 : is_path zigzag_base_inputs "squareSpiral" = false) by reflexivity.
  assert (H3 : is_path zigzag_base_inputs "hilbert" = false) by reflexivity.
  rewrite H1, H2, H3. cbn [orb].
  apply generateRectangularBase_margin.
Qed.

(** The clip region of the zigzag run over a base: the print rectangle
    [75, 175] x [75, 175] drawn in by 3.26. *)
Lemma zigzag_clip x y :
  isInsideBaseClip zigzag_base_inputs (baseMargin zigzag_base_inputs + 3 * 0.42) x y =
  Rleb 78.26 x && Rleb x 171.74 && Rleb 78.26 y && Rleb y 171.74.
Proof.
  unfold isInsideBaseClip.
  assert (H1 : is_path zigzag_base_inputs "spiral" = false) by reflexivity.
  assert (H2 : is_path zigzag_base_inputs "squareSpiral" = false) by reflexivity.
  assert (H3 : is_path zigzag_base_inputs "hilbert" = false) by reflexivity.
  rewrite H1, H2, H3. cbn [orb].
  cbn [zigzag_base_inputs offsetX offsetY originAtCenter bedWidth bedHeight
       printWidth printHeight baseMargin].
  replace ((250 - 100) / 2 + (2 + 3 * 0.42)) with 78.26 by lra.
  replace ((250 - 100) / 2 + 100 - (2 + 3 * 0.42)) with 171.74 by lra.
  reflexivity.
Qed.

(** The clip region is closed: its corner is inside. *)
Example zigzag_clip_corner :
  isInsideBaseClip zigzag_base_inputs (baseMargin zigzag_base_inputs + 3 * 0.42)
                   78.26 78.26 = true.
Proof. rewrite zigzag_clip. rewrite !Rleb_true by lra. reflexivity. Qed.

(** The squiggle from (78, 78.6) to the in-clip point (78.5, 78.6) starts
    with a printing move to (78.1, 73.6). *)
Lemma squiggle_escape_step tot g :
  exists e rest,
    gcode (doSmartMove zigzag_base_inputs (baseMargin zigzag_base_inputs + 3 * 0.42)
             78.5 78.6 false (mkState 78 78.6 tot g)) =
      g ++ Print 78.1 73.6 e 600 :: rest /\
    0 < e.
Proof.
  assert (Hin : isInsideBaseClip zigzag_base_inputs
                  (baseMargin zigzag_base_inputs + 3 * 0.42) 78.5 78.6 = true).
  { rewrite zigzag_clip. rewrite !Rleb_true by lra. reflexivity. }
  set (st := mkState 78 78.6 tot g).
  assert (Hp : squigglePoint zigzag_base_inputs 1 (prevX st) (prevY st) 78.5 78.6 1
               = (78.1, 73.6)).
  { cbn [st prevX prevY].
    rewrite squigglePoint_horizontal by lra.
    replace (78.5 - 78) with 0.5 by lra. rewrite numSegments_half.
    cbn [INR zigzag_base_inputs squiggleFreq squiggleAmp].
    match goal with
    | |- context [sin ?a] => replace a with (3 * (PI / 2)) by (unfold TWO_PI; lra)
    end.
    rewrite sin_3PI2. f_equal; lra. }
  pose proof (hypot_ge_l (78.1 - 78) (73.6 - 78.6)) as Hd.
  destruct (squiggle_head zigzag_base_inputs 1
              (minW zigzag_base_inputs
               + 1 * (maxW zigzag_base_inputs - minW zigzag_base_inputs))
              (maxSpeed zigzag_base_inputs
               - 1 * (maxSpeed zigzag_base_inputs - minSpeed zigzag_base_inputs))
              78.5 78.6 st) as [rest Hg].
  { rewrite Hp. cbn [fst snd st prevX prevY]. lra. }
  rewrite Hp in Hg. cbn [fst snd st prevX prevY gcode] in Hg.
  eexists. exists rest. split.
  - rewrite doSmartMove_squiggle.
    + rewrite black_darkness.
      replace (maxSpeed zigzag_base_inputs
               - 1 * (maxSpeed zigzag_base_inputs - minSpeed zigzag_base_inputs))
        with 600 in Hg |- *
        by (unfold maxSpeed, minSpeed;
            cbn [zigzag_base_inputs maxSpeedMMS minSpeedMMS]; lra).
      exact Hg.
    + rewrite Hin. reflexivity.
    + reflexivity.
    + unfold useSquiggle. apply Rltb_true.
      cbn [zigzag_base_inputs squiggleAmp]. lra.
    + rewrite black_darkness. lra.
  - pose proof (filArea_pos zigzag_base_inputs) as Hfa.
    cbn [zigzag_base_inputs filamentDia minW maxW layerHeight] in Hfa |- *.
    apply Rdiv_lt_0_compat; [nra | apply Hfa; lra].
Qed.

End ClipFacts.

(** ** The Archimedean spiral *)

Section SpiralFacts.
Import Core Runs.
Local Open Scope R_scope.

(** The angle step: [0.5 / max(0.5, radius)] lies in (0, 1] and turns the
    radius by at most half a unit of arc. *)
Lemma dTheta_bounds radius :
  0 <= radius ->
  let g := 0.5 / Rmax 0.5 radius in
  0 < g <= 1 /\ radius * g <= 0.5 /\ g * Rmax 0.5 radius = 0.5.
Proof.
  intros Hr g. unfold g.
  set (m := Rmax 0.5 radius).
  assert (Hm1 : 0.5 <= m) by apply Rmax_l.
  assert (Hm2 : radius <= m) by apply Rmax_r.
  assert (Hinv : 0 < / m) by (apply Rinv_0_lt_compat; lra).
  assert (Hmm : m * / m = 1) by (apply Rinv_r; lra).
  unfold Rdiv. repeat split; nra.
Qed.

(** The loop returns; it makes at most [MAX_LOOP_ITERATIONS] passes; if it
    stops before the cap, the radius has reached [maxRadius]. *)
Lemma spiral_loop_result i innerRadius maxRadius cx cy :
  forall (fuel : nat) (radius angle : R) (iterations : Z) (st : State),
    (0 <= iterations <= MAX_LOOP_ITERATIONS)%Z ->
    (MAX_LOOP_ITERATIONS - iterations <= Z.of_nat fuel)%Z ->
    exists r a n st',
      spiral_loop fuel i innerRadius maxRadius cx cy radius angle iterations st
      = Some (r, a, n, st') /\
      (iterations <= n <= MAX_LOOP_ITERATIONS)%Z /\
      ((n < MAX_LOOP_ITERATIONS)%Z -> maxRadius <= r).
Proof.
  induction fuel as [| fuel IH]; intros radius angle iterations st Hit Hfuel.
  - assert (iterations = MAX_LOOP_ITERATIONS) by lia. subst iterations.
    cbn [spiral_loop]. rewrite Z.ltb_irrefl, andb_false_r.
    do 4 eexists. split; [reflexivity |]. split; [lia | lia].
  - cbn [spiral_loop].
    destruct (Rltb_spec radius maxRadius) as [Hlt | Hge];
      destruct (Z.ltb_spec iterations MAX_LOOP_ITERATIONS) as [Hcap | Hcap];
      cbn [andb].
    + destruct (Rltb_spec maxRadius
                  (spacing i / TWO_PI * (angle + 0.5 / Rmax 0.5 radius)))
        as [Hbreak | Hgo].
      * do 4 eexists. split; [reflexivity |]. split; [lia |]. intros _. lra.
      * destruct (IH (spacing i / TWO_PI * (angle + 0.5 / Rmax 0.5 radius))
                     (angle + 0.5 / Rmax 0.5 radius) (iterations + 1)%Z
                     (doSmartMove i innerRadius
                        (cx + spacing i / TWO_PI * (angle + 0.5 / Rmax 0.5 radius)
                              * cos (angle + 0.5 / Rmax 0.5 radius))
                        (cy + spacing i / TWO_PI * (angle + 0.5 / Rmax 0.5 radius)
                              * sin (angle + 0.5 / Rmax 0.5 radius))
                        false st))
          as (r & a & n & st' & Heq & Hn & Hr); [lia | lia |].
        exists r, a, n, st'. split; [exact Heq |]. split; [lia | exact Hr].
    + do 4 eexists. split; [reflexivity |]. split; [lia | lia].
    + do 4 eexists. split; [reflexivity |]. split; [lia |]. intros _. lra.
    + do 4 eexists. split; [reflexivity |]. split; [lia | lia].
Qed.

(** One pass adds at most [c + c^2] to the square of the radius, where
    [c = spacing / TWO_PI]. *)
Lemma radius_step_upper c radius :
  0 < c -> 0 <= radius ->
  let r' := radius + c * (0.5 / Rmax 0.5 radius) in
  0 <= r' /\ r' * r' <= radius * radius + (c + c * c).
Proof.
  intros Hc Hr r'. unfold r'.
  destruct (dTheta_bounds radius Hr) as ((Hg0 & Hg1) & Hrg & _).
  set (g := 0.5 / Rmax 0.5 radius) in *.
  assert (H1 : 0 <= c * g) by nra.
  assert (H2 : c * g <= c) by nra.
  assert (H3 : (c * g) * (c * g) <= c * c) by nra.
  assert (H4 : c * (radius * g) <= c * 0.5) by nra.
  split; nra.
Qed.

(** One pass adds at least [c / 2] to [radius * max(0.5, radius)]. *)
Lemma radius_step_lower c radius :
  0 < c -> 0 <= radius ->
  let r' := radius + c * (0.5 / Rmax 0.5 radius) in
  radius * Rmax 0.5 radius + 0.5 * c <= r' * Rmax 0.5 r'.
Proof.
  intros Hc Hr r'. unfold r'.
  destruct (dTheta_bounds radius Hr) as ((Hg0 & Hg1) & Hrg & Hgm).
  set (g := 0.5 / Rmax 0.5 radius) in *.
  assert (Hm' : 0.5 <= Rmax 0.5 (radius + c * g)) by apply Rmax_l.
  assert (Hr' : radius + c * g <= Rmax 0.5 (radius + c * g)) by apply Rmax_r.
  assert (Hcg : 0 <= c * g) by nra.
  set (m' := Rmax 0.5 (radius + c * g)) in *.
  destruct (Rle_dec 0.5 radius) as [Hbig | Hsmall].
  - rewrite (Rmax_right 0.5 radius) in Hgm |- * by lra.
    assert (H1 : c * (g * radius) = c * 0.5) by (rewrite Hgm; reflexivity).
    assert (H2 : 0 <= (radius + c * g) * (m' - (radius + c * g))) by nra.
    assert (H3 : 0 <= (c * g) * (c * g)) by nra.
    nra.
  - rewrite (Rmax_left 0.5 radius) in Hgm |- * by lra.
    assert (Hg : g = 1) by lra.
    assert (H2 : 0 <= (radius + c * g) * (m' - 0.5)) by nra.
    rewrite Hg in *. nra.
Qed.

(** When [MAX_LOOP_ITERATIONS * (c + c^2)] is below [maxRadius^2] the loop
    runs to the cap and stops there with the radius still below
    [maxRadius]. *)
Lemma spiral_loop_capped i innerRadius maxRadius cx cy :
  let c := spacing i / TWO_PI in
  0 < c -> 0 < maxRadius ->
  IZR MAX_LOOP_ITERATIONS * (c + c * c) < maxRadius * maxRadius ->
  forall (fuel : nat) (radius angle : R) (iterations : Z) (st : State),
    (0 <= iterations)%Z ->
    (iterations + Z.of_nat fuel = MAX_LOOP_ITERATIONS)%Z ->
    radius = c * angle -> 0 <= radius ->
    radius * radius <= IZR iterations * (c + c * c) ->
    exists r a st',
      spiral_loop fuel i innerRadius maxRadius cx cy radius angle iterations st
      = Some (r, a, MAX_LOOP_ITERATIONS, st') /\ r < maxRadius.
Proof.
  intros c Hc HM Hcap.
  assert (Hbelow : forall r n, (n <= MAX_LOOP_ITERATIONS)%Z -> 0 <= r ->
                     r * r <= IZR n * (c + c * c) -> r < maxRadius).
  { intros r n Hn Hr Hrr. apply IZR_le in Hn. nra. }
  induction fuel as [| fuel IH]; intros radius angle iterations st Hit Hfuel Hra Hr Hinv.
  - assert (iterations = MAX_LOOP_ITERATIONS) by lia. subst iterations.
    cbn [spiral_loop]. rewrite Z.ltb_irrefl, andb_false_r.
    do 3 eexists. split; [reflexivity |].
    apply (Hbelow radius MAX_LOOP_ITERATIONS); [lia | assumption | assumption].
  - cbn [spiral_loop].
    assert (Hlt : radius < maxRadius)
      by (apply (Hbelow radius iterations); [lia | assumption | assumption]).
    rewrite (Rltb_true _ _ Hlt).
    assert (Hcapb : (iterations <? MAX_LOOP_ITERATIONS)%Z = true)
      by (apply Z.ltb_lt; lia).
    rewrite Hcapb. cbn [andb]. fold c.
    destruct (radius_step_upper c radius Hc Hr) as [Hr' Hup].
    assert (Heq : c * (angle + 0.5 / Rmax 0.5 radius)
                  = radius + c * (0.5 / Rmax 0.5 radius)) by (rewrite Hra; ring).
    assert (Hinv' : (radius + c * (0.5 / Rmax 0.5 radius))
                    * (radius + c * (0.5 / Rmax 0.5 radius))
                    <= IZR (iterations + 1) * (c + c * c))
      by (rewrite plus_IZR; nra).
    rewrite <- Heq in Hr', Hinv'.
    assert (Hlt' : c * (angle + 0.5 / Rmax 0.5 radius) < maxRadius)
      by (apply (Hbelow _ (iterations + 1)%Z); [lia | assumption | assumption]).
    rewrite Rltb_false by lra.
    apply IH; try assumption; try lia. reflexivity.
Qed.

(** When [maxRadius * max(0.5, maxRadius)] is at most
    [c / 2 * (MAX_LOOP_ITERATIONS - 1)] the loop stops before the cap. *)
Lemma spiral_loop_reaches i innerRadius maxRadius cx cy :
  let c := spacing i / TWO_PI in
  0 < c ->
  maxRadius * Rmax 0.5 maxRadius <= 0.5 * c * IZR (MAX_LOOP_ITERATIONS - 1) ->
  forall (fuel : nat) (radius angle : R) (iterations : Z) (st : State),
    (0 <= iterations < MAX_LOOP_ITERATIONS)%Z ->
    (MAX_LOOP_ITERATIONS - iterations <= Z.of_nat fuel)%Z ->
    radius = c * angle -> 0 <= radius ->
    0.5 * c * IZR iterations <= radius * Rmax 0.5 radius ->
    exists r a n st',
      spiral_loop fuel i innerRadius maxRadius cx cy radius angle iterations st
      = Some (r, a, n, st') /\ (n < MAX_LOOP_ITERATIONS)%Z.
Proof.
  intros c Hc Hroom.
  induction fuel as [| fuel IH]; intros radius angle iterations st Hit Hfuel Hra Hr Hinv.
  - lia.
  - cbn [spiral_loop].
    destruct (Rltb_spec radius maxRadius) as [Hlt | Hge]; cbn [andb].
    + assert (Hcapb : (iterations <? MAX_LOOP_ITERATIONS)%Z = true)
        by (apply Z.ltb_lt; lia).
      rewrite Hcapb. fold c.
      assert (Hnext : (iterations + 1 < MAX_LOOP_ITERATIONS)%Z).
      { assert (Hphi : radius * Rmax 0.5 radius < maxRadius * Rmax 0.5 maxRadius).
        { assert (0.5 <= Rmax 0.5 radius) by apply Rmax_l.
          assert (Rmax 0.5 radius <= Rmax 0.5 maxRadius).
          { apply Rmax_lub; [apply Rmax_l |].
            apply Rle_trans with maxRadius; [lra | apply Rmax_r]. }
          nra. }
        assert (Hlt' : IZR iterations < IZR (MAX_LOOP_ITERATIONS - 1)) by nra.
        apply lt_IZR in Hlt'. lia. }
      destruct (Rltb maxRadius (c * (angle + 0.5 / Rmax 0.5 radius))).
      * do 4 eexists. split; [reflexivity | exact Hnext].
      * assert (Heq : c * (angle + 0.5 / Rmax 0.5 radius)
                      = radius + c * (0.5 / Rmax 0.5 radius)) by (rewrite Hra; ring).
        pose proof (radius_step_lower c radius Hc Hr) as Hlow. cbv zeta in Hlow.
        destruct (radius_step_upper c radius Hc Hr) as [Hr' _].
        rewrite <- Heq in Hlow, Hr'.
        apply IH; try assumption; try lia; try reflexivity.
        rewrite plus_IZR. lra.
    + do 4 eexists. split; [reflexivity | lia].
Qed.

(** C7 (as the code has it).  For every spacing > 0 the spiral loop returns
    after at most MAX_LOOP_ITERATIONS = 100000 passes.  If it stops before
    the cap, the radius has reached the maximum radius.  It does stop before
    the cap whenever 4 pi maxRadius max(0.5, maxRadius) <= 99999 spacing
    (the defaults, spacing 0.6 and radius 50, satisfy this); for other valid
    parameters the cap can be what stops the loop. *)
Theorem spiral_terminates (i : Inputs) (innerRadius : R) (st : State) :
  0 < spacing i ->
  let maxRadius := spiral_maxRadius i innerRadius in
  exists r a n st',
    spiral_path i innerRadius st = Some (r, a, n, st') /\
    (0 <= n <= MAX_LOOP_ITERATIONS)%Z /\
    ((n < MAX_LOOP_ITERATIONS)%Z -> maxRadius <= r) /\
    (4 * PI * maxRadius * Rmax 0.5 maxRadius
       <= spacing i * IZR (MAX_LOOP_ITERATIONS - 1) ->
     (n < MAX_LOOP_ITERATIONS)%Z).
Proof.
  intros Hsp maxRadius. unfold spiral_path. fold maxRadius.
  set (cx := offsetX i + printWidth i / 2).
  set (cy := offsetY i + printHeight i / 2).
  destruct (spiral_loop_result i innerRadius maxRadius cx cy
              (Z.to_nat MAX_LOOP_ITERATIONS) 0 0 0 st)
    as (r & a & n & st' & Heq & Hn & Hr).
  { unfold MAX_LOOP_ITERATIONS. lia. }
  { unfold MAX_LOOP_ITERATIONS. lia. }
  exists r, a, n, st'. split; [exact Heq |]. split; [exact Hn |].
  split; [exact Hr |]. intros Hroom.
  assert (Hc : 0 < spacing i / TWO_PI).
  { unfold TWO_PI. pose proof PI_RGT_0. apply Rdiv_lt_0_compat; lra. }
  destruct (spiral_loop_reaches i innerRadius maxRadius cx cy Hc) with
    (fuel := Z.to_nat MAX_LOOP_ITERATIONS) (radius := 0) (angle := 0)
    (iterations := 0%Z) (st := st)
    as (r2 & a2 & n2 & st2 & Heq2 & Hn2).
  - unfold TWO_PI in *. pose proof PI_RGT_0 as Hpi.
    assert (Hq : spacing i / (2 * PI) * (2 * PI) = spacing i) by (field; lra).
    set (q := spacing i / (2 * PI)) in *.
    set (X := maxRadius * Rmax 0.5 maxRadius) in *.
    set (K := IZR (MAX_LOOP_ITERATIONS - 1)) in *.
    assert (Hx : 4 * PI * X <= q * (2 * PI) * K).
    { rewrite Hq. unfold X, K.
      replace (4 * PI * (maxRadius * Rmax 0.5 maxRadius))
        with (4 * PI * maxRadius * Rmax 0.5 maxRadius) by ring.
      exact Hroom. }
    clearbody q X K. nra.
  - unfold MAX_LOOP_ITERATIONS. lia.
  - unfold MAX_LOOP_ITERATIONS. lia.
  - ring.
  - lra.
  - rewrite Rmult_0_r, Rmult_0_l. lra.
  - rewrite Heq in Heq2. injection Heq2 as _ _ <- _. exact Hn2.
Qed.

Lemma spiral_terminates_witness :
  exists r a n st',
    spiral_path fine_spiral_inputs 0 start_state = Some (r, a, n, st') /\
    (0 <= n <= MAX_LOOP_ITERATIONS)%Z /\
    ((n < MAX_LOOP_ITERATIONS)%Z -> spiral_maxRadius fine_spiral_inputs 0 <= r) /\
    (4 * PI * spiral_maxRadius fine_spiral_inputs 0
       * Rmax 0.5 (spiral_maxRadius fine_spiral_inputs 0)
       <= spacing fine_spiral_inputs * IZR (MAX_LOOP_ITERATIONS - 1) ->
     (n < MAX_LOOP_ITERATIONS)%Z).
Proof.
  apply (spiral_terminates fine_spiral_inputs 0 start_state).
  cbn [fine_spiral_inputs spacing]. lra.
Defined.

(** C7 as stated fails: with the finest spacing (0.1) and the default
    100 x 100 print (maximum radius 50, no base) the loop makes all 100000
    passes and stops at the cap with the radius still below 50; the warning
    is logged. *)
Lemma spiral_cap_counterexample :
  spiral_maxRadius fine_spiral_inputs 0 = 50 /\
  exists r a st',
    spiral_path fine_spiral_inputs 0 start_state
    = Some (r, a, MAX_LOOP_ITERATIONS, st') /\
    r < 50 /\
    spiral_hit_cap MAX_LOOP_ITERATIONS = true.
Proof.
  assert (HM : spiral_maxRadius fine_spiral_inputs 0 = 50).
  { unfold spiral_maxRadius, printDim.
    cbn [fine_spiral_inputs addCircularBase printWidth printHeight].
    rewrite Rmin_left by lra. lra. }
  split; [exact HM |].
  unfold spiral_path. rewrite HM.
  pose proof PI_gt_3 as Hpi.
  assert (Hc : 0 < spacing fine_spiral_inputs / TWO_PI < 0.0167).
  { unfold TWO_PI. cbn [fine_spiral_inputs spacing].
    destruct (div_between 0.1 (2 * PI) 6) as [H0 H1]; lra. }
  destruct (spiral_loop_capped fine_spiral_inputs 0 50
              (offsetX fine_spiral_inputs + printWidth fine_spiral_inputs / 2)
              (offsetY fine_spiral_inputs + printHeight fine_spiral_inputs / 2))
    with (fuel := Z.to_nat MAX_LOOP_ITERATIONS) (radius := 0) (angle := 0)
         (iterations := 0%Z) (st := start_state)
    as (r & a & st' & Heq & Hr).
  - lra.
  - lra.
  - unfold MAX_LOOP_ITERATIONS. nra.
  - lia.
  - unfold MAX_LOOP_ITERATIONS. lia.
  - ring.
  - lra.
  - lra.
  - exists r, a, st'. split; [exact Heq |]. split; [exact Hr | reflexivity].
Qed.

End SpiralFacts.

(** ** The margin returned by the base generators *)

Section BaseMarginFacts.
Import Core Runs.
Local Open Scope R_scope.

(** C6 fails on the code for the circular base.  Every base generator
    returns, and the square and the rectangular generator return
    [baseMargin + 3 * 0.42], wall count times wall spacing plus the configured
    margin; the circular generator returns [baseMargin] alone.  For the spiral
    over a base with the default margin 2 the orchestrator receives 2, not
    3.26. *)
Theorem circular_base_margin :
  (forall i st, exists st', generateCircularBase i st = Some (st', baseMargin i)) /\
  (forall i st, exists st',
      generateSquareBase i st = Some (st', baseMargin i + 3 * 0.42)) /\
  (forall i st, exists st',
      generateRectangularBase i st = Some (st', baseMargin i + 3 * 0.42)) /\
  (exists st', generateBase spiral_base_inputs start_state = Some (st', 2)) /\
  2 <> baseMargin spiral_base_inputs + 3 * 0.42.
Proof.
  split; [exact generateCircularBase_margin |].
  split; [exact generateSquareBase_margin |].
  split; [exact generateRectangularBase_margin |].
  split.
  - unfold generateBase.
    assert (H1 : is_path spiral_base_inputs "spiral" = true) by reflexivity.
    rewrite H1. apply (generateCircularBase_margin spiral_base_inputs).
  - cbn [spiral_base_inputs baseMargin]. lra.
Qed.

End BaseMarginFacts.

(** ** Whole zigzag runs *)

Section ZigzagRuns.
Import Core Trace Runs.
Local Open Scope R_scope.

Lemma writeMove_extends i x y w f t st :
  exists ins, gcode (fst (writeMove i x y w f t st)) = gcode st ++ [ins].
Proof.
  unfold writeMove. cbn [fst].
  destruct (t || Rltb (hypot (x - prevX st) (y - prevY st)) 0.01);
    eexists; reflexivity.
Qed.

(** [doSmartMove] only appends to the instruction array. *)
Lemma doSmartMove_extends i r x y c st :
  exists new, gcode (doSmartMove i r x y c st) = gcode st ++ new.
Proof.
  unfold doSmartMove.
  repeat match goal with
  | |- context [if ?b then _ else _] => destruct b
  end;
  try (match goal with
       | |- context [writeMove ?i ?x ?y ?w ?f ?t ?st] =>
           destruct (writeMove_extends i x y w f t st) as [ins ->]; eexists; reflexivity
       end).
  unfold squiggle.
  match goal with
  | |- context [fold_left _ ?l ?st] =>
      destruct (fold_writeMove i
                  (minW i + darknessAt i x y * (maxW i - minW i))
                  (maxSpeed i - darknessAt i x y * (maxSpeed i - minSpeed i))
                  (squigglePoint i (darknessAt i x y) (prevX st) (prevY st) x y) l st)
        as (new & Hg & _)
  end.
  exists new. exact Hg.
Qed.

Lemma fold_extends {A : Type} (f : State -> A -> State) :
  (forall st a, exists new, gcode (f st a) = gcode st ++ new) ->
  forall l st, exists new, gcode (fold_left f l st) = gcode st ++ new.
Proof.
  intros Hf. induction l as [| a l IH]; intros st.
  - exists []. cbn. now rewrite app_nil_r.
  - cbn [fold_left]. destruct (IH (f st a)) as [n2 H2].
    destruct (Hf st a) as [n1 H1].
    exists (n1 ++ n2). rewrite H2, H1, app_assoc. reflexivity.
Qed.

Lemma fold_left_mid {A B : Type} (f : A -> B -> A) l1 b l2 a :
  fold_left f (l1 ++ b :: l2) a = fold_left f l2 (f (fold_left f l1 a) b).
Proof. rewrite fold_left_app. reflexivity. Qed.

Lemma fold_left_head {A B : Type} (f : A -> B -> A) b l a :
  fold_left f (b :: l) a = fold_left f l (f a b).
Proof. reflexivity. Qed.

Lemma zigzag_row_extends i r st row :
  exists new, gcode (zigzag_row i r st row) = gcode st ++ new.
Proof.
  unfold zigzag_row.
  match goal with
  | |- context [fold_left ?ff ?ll ?ss] =>
      destruct (fold_extends ff (fun s k => doSmartMove_extends _ _ _ _ _ s) ll ss)
        as [n2 H2]
  end.
  rewrite H2.
  destruct (0 <? row)%nat.
  - match goal with
    | |- context [doSmartMove ?i ?r ?x ?y ?c ?s] =>
        destruct (doSmartMove_extends i r x y c s) as [n1 ->]
    end.
    exists (n1 ++ n2). now rewrite app_assoc.
  - exists n2. reflexivity.
Qed.

(** Over a base, a point outside the clip region is reached by a travel. *)
Lemma doSmartMove_outside i r x y c st :
  addCircularBase i = true -> isInsideBaseClip i r x y = false ->
  doSmartMove i r x y c st = mkState x y (totalE st) (gcode st ++ [Travel x y]).
Proof.
  intros Hb Hc. unfold doSmartMove. rewrite Hb, Hc. cbn [andb negb].
  apply writeMove_travel. left. reflexivity.
Qed.

(** After a run of points outside the clip region the previous position is
    the last of them. *)
Lemma fold_outside i r c (px py : nat -> R) :
  addCircularBase i = true ->
  forall (l : list nat) (st : State),
    l <> [] ->
    (forall k, In k l -> isInsideBaseClip i r (px k) (py k) = false) ->
    let st' := fold_left (fun st k => doSmartMove i r (px k) (py k) c st) l st in
    prevX st' = px (last l 0%nat) /\ prevY st' = py (last l 0%nat).
Proof.
  intros Hb. induction l as [| k l IH]; intros st Hne Hout; [congruence |].
  destruct l as [| k' l'].
  - cbn [fold_left last]. rewrite doSmartMove_outside; auto.
    apply Hout. left. reflexivity.
  - change (last (k :: k' :: l') 0%nat) with (last (k' :: l') 0%nat).
    cbn [fold_left] in *. apply IH; [discriminate |].
    intros j Hj. apply Hout. right. exact Hj.
Qed.

Lemma segs_200 : Z.to_nat (Z.max 2 (Zfloor (100 / 0.5))) = 200%nat.
Proof. rewrite (Zfloor_eq 200 (100 / 0.5)) by lra. reflexivity. Qed.

Lemma lines_166 : Z.to_nat (Zfloor (100 / 0.6)) = 166%nat.
Proof. rewrite (Zfloor_eq 166 (100 / 0.6)) by lra. reflexivity. Qed.

Lemma INR_200 : INR 200 = 200.
Proof. rewrite INR_IZR_INZ. reflexivity. Qed.

(** Scan row 6 of the zigzag over a base (y = 78.6): the connector and the
    first six points are outside the clip region, the seventh, (78.5, 78.6),
    is inside, and its squiggle prints to (78.1, 73.6). *)
Lemma zigzag_base_row6 st :
  exists e before after,
    gcode (zigzag_row zigzag_base_inputs
             (baseMargin zigzag_base_inputs + 3 * 0.42) st 6) =
      gcode st ++ before ++ Print 78.1 73.6 e 600 :: after /\
    0 < e.
Proof.
  set (r := baseMargin zigzag_base_inputs + 3 * 0.42).
  unfold zigzag_row.
  cbn [zigzag_base_inputs printWidth spacing offsetX offsetY originAtCenter
       bedWidth bedHeight printHeight Nat.even Nat.ltb Nat.leb].
  rewrite segs_200, INR_200.
  replace (seq 1 200) with (seq 1 6 ++ 7%nat :: seq 8 193) by reflexivity.
  rewrite fold_left_mid.
  set (F := fun (st0 : State) (k : nat) =>
              doSmartMove zigzag_base_inputs r
                ((250 - 100) / 2 + (0 + (100 - 0) * (INR k / 200)))
                ((250 - 100) / 2 + INR 6 * 0.6) false st0).
  set (st1 := doSmartMove zigzag_base_inputs r ((250 - 100) / 2 + 0)
                          ((250 - 100) / 2 + INR 6 * 0.6) true st).
  assert (H6 : INR 6 = 6) by (cbn [INR]; lra).
  destruct (doSmartMove_extends zigzag_base_inputs r ((250 - 100) / 2 + 0)
              ((250 - 100) / 2 + INR 6 * 0.6) true st) as [n1 Hn1].
  fold st1 in Hn1.
  destruct (fold_extends F (fun s k => doSmartMove_extends _ _ _ _ _ s) (seq 1 6) st1)
    as [n2 Hn2].
  destruct (fold_outside zigzag_base_inputs r false
              (fun k => (250 - 100) / 2 + (0 + (100 - 0) * (INR k / 200)))
              (fun _ => (250 - 100) / 2 + INR 6 * 0.6) eq_refl
              (seq 1 6) st1) as [Hpx Hpy].
  { discriminate. }
  { intros k Hk. apply in_seq in Hk.
    assert (Hk6 : INR k <= 6) by (rewrite <- H6; apply le_INR; lia).
    unfold r. rewrite zigzag_clip. rewrite (Rleb_false 78.26) by lra. reflexivity. }
  change (fold_left _ (seq 1 6) st1) with (fold_left F (seq 1 6) st1) in Hpx, Hpy.
  set (st2 := fold_left F (seq 1 6) st1) in *.
  change (last (seq 1 6) 0%nat) with 6%nat in Hpx, Hpy.
  rewrite H6 in Hpx, Hpy.
  assert (Hst2 : st2 = mkState 78 78.6 (totalE st2) (gcode st2)).
  { destruct st2 as [a b t g]. cbn [prevX prevY totalE gcode] in *.
    f_equal; lra. }
  destruct (squiggle_escape_step (totalE st2) (gcode st2)) as (e & rest & Hg & He).
  fold r in Hg. rewrite <- Hst2 in Hg.
  assert (H7 : doSmartMove zigzag_base_inputs r
                 ((250 - 100) / 2 + (0 + (100 - 0) * (INR 7 / 200)))
                 ((250 - 100) / 2 + INR 6 * 0.6) false st2
               = doSmartMove zigzag_base_inputs r 78.5 78.6 false st2).
  { f_equal; [cbn [INR] | rewrite H6]; lra. }
  rewrite H7.
  destruct (fold_extends F (fun s k => doSmartMove_extends _ _ _ _ _ s)
              (seq 8 193) (doSmartMove zigzag_base_inputs r 78.5 78.6 false st2))
    as [n3 Hn3].
  exists e, (n1 ++ n2), (rest ++ n3). split; [| exact He].
  rewrite Hn3, Hg, Hn2, Hn1.
  rewrite <- !app_assoc. reflexivity.
Qed.

(** C4 fails on the code.  Zigzag over a base (margin 2, so the clip margin
    returned by the base generator is 3.26, the clip region
    [78.26, 171.74] x [78.26, 171.74]), black image, squiggle amplitude 5 and
    frequency 7.5, defaults otherwise: whatever was emitted before the
    artwork, the artwork of the run contains a printing move, with positive
    extrusion, that ends at (78.1, 73.6), outside the clip region (and below
    the print area, which starts at y = 75).  It is the first sub-segment of
    the squiggle towards the path point (78.5, 78.6), which passed the clip
    test. *)
Theorem squiggle_escapes_base_clip :
  let i := zigzag_base_inputs in
  let innerRadius := baseMargin i + 3 * 0.42 in
  (forall st, exists st', generateBase i st = Some (st', innerRadius)) /\
  addCircularBase i = true /\
  isInsideBaseClip i innerRadius 78.5 78.6 = true /\
  isInsideBaseClip i innerRadius 78.1 73.6 = false /\
  forall (tot : R) (g : list Instr),
  exists e before after,
    gcode (zigzag_path i innerRadius (mkState (offsetX i) (offsetY i) tot g)) =
      before ++ Print 78.1 73.6 e 600 :: after /\
    0 < e.
Proof.
  cbv zeta.
  split; [exact zigzag_base_margin |]. split; [reflexivity |].
  split; [rewrite zigzag_clip, !Rleb_true by lra; reflexivity |].
  split; [rewrite zigzag_clip, (Rleb_false 78.26 78.1) by lra; reflexivity |].
  intros tot g. unfold zigzag_path.
  set (r := baseMargin zigzag_base_inputs + 3 * 0.42).
  set (st0 := mkState (offsetX zigzag_base_inputs) (offsetY zigzag_base_inputs) tot g).
  replace (Z.to_nat (Zfloor (printHeight zigzag_base_inputs / spacing zigzag_base_inputs)))
    with 166%nat by (symmetry; exact lines_166).
  replace (seq 0 166) with (seq 0 6 ++ 6%nat :: seq 7 159) by reflexivity.
  rewrite fold_left_mid.
  destruct (fold_extends (zigzag_row zigzag_base_inputs r)
              (zigzag_row_extends zigzag_base_inputs r) (seq 0 6) st0) as [na Ha].
  set (sta := fold_left (zigzag_row zigzag_base_inputs r) (seq 0 6) st0) in *.
  destruct (zigzag_base_row6 sta) as (e & before & after & Hb & He).
  fold r in Hb.
  destruct (fold_extends (zigzag_row zigzag_base_inputs r)
              (zigzag_row_extends zigzag_base_inputs r) (seq 7 159)
              (zigzag_row zigzag_base_inputs r sta 6)) as [nc Hc].
  exists e, (gcode st0 ++ na ++ before), (after ++ nc). split; [| exact He].
  rewrite Hc, Hb, Ha. rewrite <- !app_assoc. reflexivity.
Qed.


End ZigzagRuns.

(** ** The Hilbert curve beyond its index range, and the Hilbert path *)

Section HilbertPathFacts.
Import Hilbert Core Paths.

(** X1.  An index beyond the last cell wraps around: for every order from 0
    to 30 and every index [d >= 0], [hilbert(order, d)] is the cell of
    index [d mod 4^order]; the loop reads only the [order] low base-4
    digits of [d]. *)
Theorem hilbert_index_wraps (o d : Z) :
  (0 <= o <= 30)%Z -> (0 <= d)%Z ->
  hilbert o d = hilbert o (d mod 4 ^ o).
Proof.
  intros Ho Hd.
  assert (Hp : (0 < 4 ^ o)%Z) by (apply Z.pow_pos_nonneg; lia).
  rewrite (hilbert_curve o d Ho Hd).
  rewrite (hilbert_curve o (d mod 4 ^ o) Ho) by (apply Z.mod_pos_bound; exact Hp).
  replace (4 ^ o)%Z with (4 ^ Z.of_nat (Z.to_nat o))%Z by (rewrite Z2Nat.id; lia).
  now rewrite curve_mod.
Qed.

Lemma hilbert_index_wraps_witness :
  hilbert 3 (64 + 5) = hilbert 3 ((64 + 5) mod 4 ^ 3).
Proof. apply hilbert_index_wraps; lia. Defined.

Local Open Scope R_scope.

Lemma hilbert_N_pow i :
  (0 <= fractalOrder i <= 30)%Z -> hilbert_N i = (2 ^ fractalOrder i)%Z.
Proof. intros H. unfold hilbert_N. now apply shl_one. Qed.

Lemma hilbert_N_pos i : (0 <= fractalOrder i <= 30)%Z -> 0 < IZR (hilbert_N i).
Proof.
  intros H. rewrite hilbert_N_pow by exact H. apply IZR_lt.
  apply Z.pow_pos_nonneg; lia.
Qed.

Lemma hilbert_xy_curve i d :
  (0 <= fractalOrder i <= 30)%Z -> (0 <= d)%Z ->
  hilbert_xy i d =
  Some (centerOffset_x i + IZR (fst (curve (Z.to_nat (fractalOrder i)) d)) * hilbert_step i,
        centerOffset_y i + IZR (snd (curve (Z.to_nat (fractalOrder i)) d)) * hilbert_step i).
Proof.
  intros Ho Hd. unfold hilbert_xy. rewrite (hilbert_curve _ _ Ho Hd).
  destruct (curve (Z.to_nat (fractalOrder i)) d); reflexivity.
Qed.

(** X2.  The Hilbert path runs along the bottom of the centred print
    square: for an order from 3 to 8 its first point, which is the start
    point of the artwork phase, is the corner [centerOffset] of the square
    and its last point (index [N * N - 1]) lies on the same height, one
    step short of the opposite corner. *)
Theorem hilbert_path_ends (i : Inputs) :
  (3 <= fractalOrder i <= 8)%Z -> is_path i "hilbert" = true ->
  startPoint i = Some (centerOffset_x i, centerOffset_y i) /\
  hilbert_xy i 0 = Some (centerOffset_x i, centerOffset_y i) /\
  hilbert_xy i (hilbert_N i * hilbert_N i - 1) =
    Some (centerOffset_x i + printDim i - hilbert_step i, centerOffset_y i).
Proof.
  intros Ho Hp.
  assert (Ho' : (0 <= fractalOrder i <= 30)%Z) by lia.
  assert (H0 : hilbert_xy i 0 = Some (centerOffset_x i, centerOffset_y i)).
  { rewrite hilbert_xy_curve by (exact Ho' || lia).
    rewrite curve_first. simpl. f_equal. f_equal; ring. }
  split; [| split].
  - unfold startPoint.
    assert (Hs : is_path i "spiral" = false).
    { unfold is_path in *. apply String.eqb_eq in Hp. rewrite Hp. reflexivity. }
    assert (Hq : is_path i "squareSpiral" = false).
    { unfold is_path in *. apply String.eqb_eq in Hp. rewrite Hp. reflexivity. }
    rewrite Hs, Hq, Hp. exact H0.
  - exact H0.
  - pose proof (hilbert_N_pos i Ho') as HN.
    rewrite hilbert_N_pow in * by exact Ho'.
    set (k := Z.to_nat (fractalOrder i)).
    assert (Hk : fractalOrder i = Z.of_nat k) by (unfold k; rewrite Z2Nat.id; lia).
    assert (H4 : (2 ^ fractalOrder i * 2 ^ fractalOrder i = 4 ^ Z.of_nat k)%Z).
    { rewrite Hk. change 4%Z with (2 * 2)%Z. rewrite Z.pow_mul_l. reflexivity. }
    rewrite H4.
    rewrite hilbert_xy_curve.
    + fold k. rewrite curve_last. simpl fst. simpl snd.
      unfold hilbert_step. rewrite hilbert_N_pow by exact Ho'.
      rewrite <- Hk. rewrite minus_IZR.
      f_equal. f_equal; [field; lra | ring].
    + exact Ho'.
    + pose proof (pow4_pos k). lia.
Qed.

Lemma hilbert_path_ends_witness :
  startPoint Samples.hilbert_inputs =
    Some (centerOffset_x Samples.hilbert_inputs, centerOffset_y Samples.hilbert_inputs).
Proof.
  destruct (hilbert_path_ends Samples.hilbert_inputs) as [H _];
    [simpl; lia | reflexivity | exact H].
Defined.

Lemma hypot_axis a b s :
  0 <= s -> (a = 0 /\ Rabs b = s) \/ (b = 0 /\ Rabs a = s) -> hypot a b = s.
Proof.
  intros Hs [[Ha Hb] | [Hb Ha]]; unfold hypot; subst.
  - replace (0 * 0 + b * b) with (Rsqr b) by (unfold Rsqr; ring).
    apply sqrt_Rsqr_abs.
  - replace (a * a + 0 * 0) with (Rsqr a) by (unfold Rsqr; ring).
    apply sqrt_Rsqr_abs.
Qed.

(** X3.  Every move of the Hilbert path has the same length: for an order
    from 3 to 8 and a print square of side [printDim >= 0], two consecutive
    path points differ in exactly one coordinate, by exactly
    [step = printDim / N], so they are [step] apart. *)
Theorem hilbert_path_unit_steps (i : Inputs) (d : Z) :
  (3 <= fractalOrder i <= 8)%Z -> 0 <= printDim i ->
  (0 <= d)%Z -> (d + 1 < hilbert_N i * hilbert_N i)%Z ->
  exists x y x' y',
    hilbert_xy i d = Some (x, y) /\ hilbert_xy i (d + 1) = Some (x', y') /\
    ((x' = x /\ Rabs (y' - y) = hilbert_step i) \/
     (y' = y /\ Rabs (x' - x) = hilbert_step i)) /\
    hypot (x' - x) (y' - y) = hilbert_step i.
Proof.
  intros Ho Hdim Hd Hd1.
  assert (Ho' : (0 <= fractalOrder i <= 30)%Z) by lia.
  pose proof (hilbert_N_pos i Ho') as HN.
  assert (Hstep : 0 <= hilbert_step i).
  { unfold hilbert_step. apply Rmult_le_pos; [exact Hdim |].
    left. now apply Rinv_0_lt_compat. }
  rewrite hilbert_N_pow in Hd1 by exact Ho'.
  set (k := Z.to_nat (fractalOrder i)).
  assert (Hk : fractalOrder i = Z.of_nat k) by (unfold k; rewrite Z2Nat.id; lia).
  assert (H4 : (2 ^ fractalOrder i * 2 ^ fractalOrder i = 4 ^ Z.of_nat k)%Z).
  { rewrite Hk. change 4%Z with (2 * 2)%Z. rewrite Z.pow_mul_l. reflexivity. }
  rewrite H4 in Hd1.
  pose proof (curve_adjacent k d Hd Hd1) as Hadj.
  rewrite (hilbert_xy_curve i d Ho' Hd).
  rewrite (hilbert_xy_curve i (d + 1) Ho') by lia.
  fold k.
  destruct (curve k d) as [a b]. destruct (curve k (d + 1)) as [a' b'].
  unfold manhattan in Hadj. simpl in Hadj. simpl fst. simpl snd.
  do 4 eexists. split; [reflexivity |]. split; [reflexivity |].
  assert (Hcase : (a' = a /\ Z.abs (b' - b) = 1)%Z \/ (b' = b /\ Z.abs (a' - a) = 1)%Z)
    by lia.
  assert (Habs : forall p q : Z, Z.abs (p - q) = 1%Z ->
            Rabs (IZR p * hilbert_step i - IZR q * hilbert_step i) = hilbert_step i).
  { intros p q Hpq.
    replace (IZR p * hilbert_step i - IZR q * hilbert_step i)
      with (IZR (p - q) * hilbert_step i) by (rewrite minus_IZR; ring).
    rewrite Rabs_mult, (Rabs_pos_eq (hilbert_step i)) by exact Hstep.
    rewrite <- abs_IZR.
    replace (Z.abs (p - q)) with 1%Z by lia. ring. }
  assert (Hor :
    (centerOffset_x i + IZR a' * hilbert_step i = centerOffset_x i + IZR a * hilbert_step i /\
     Rabs (centerOffset_y i + IZR b' * hilbert_step i
           - (centerOffset_y i + IZR b * hilbert_step i)) = hilbert_step i) \/
    (centerOffset_y i + IZR b' * hilbert_step i = centerOffset_y i + IZR b * hilbert_step i /\
     Rabs (centerOffset_x i + IZR a' * hilbert_step i
           - (centerOffset_x i + IZR a * hilbert_step i)) = hilbert_step i)).
  { destruct Hcase as [[E1 E2] | [E1 E2]]; [left | right]; subst.
    - split; [reflexivity |].
      replace (centerOffset_y i + IZR b' * hilbert_step i
               - (centerOffset_y i + IZR b * hilbert_step i))
        with (IZR b' * hilbert_step i - IZR b * hilbert_step i) by ring.
      apply Habs; exact E2.
    - split; [reflexivity |].
      replace (centerOffset_x i + IZR a' * hilbert_step i
               - (centerOffset_x i + IZR a * hilbert_step i))
        with (IZR a' * hilbert_step i - IZR a * hilbert_step i) by ring.
      apply Habs; exact E2. }
  split; [exact Hor |].
  apply hypot_axis; [exact Hstep |].
  destruct Hor as [[E1 E2] | [E1 E2]]; [left | right]; (split; [lra | exact E2]).
Qed.

Lemma hilbert_path_unit_steps_witness :
  exists x y x' y',
    hilbert_xy Samples.hilbert_inputs 20 = Some (x, y) /\
    hilbert_xy Samples.hilbert_inputs (20 + 1) = Some (x', y') /\
    ((x' = x /\ Rabs (y' - y) = hilbert_step Samples.hilbert_inputs) \/
     (y' = y /\ Rabs (x' - x) = hilbert_step Samples.hilbert_inputs)) /\
    hypot (x' - x) (y' - y) = hilbert_step Samples.hilbert_inputs.
Proof.
  apply (hilbert_path_unit_steps Samples.hilbert_inputs 20).
  - simpl; lia.
  - unfold printDim. simpl. unfold Rmin. destruct (Rle_dec 100 100); lra.
  - lia.
  - unfold hilbert_N. change (fractalOrder Samples.hilbert_inputs) with 6%Z.
    vm_compute. reflexivity.
Defined.

End HilbertPathFacts.

(** ** The template merger on every template *)

Section MergeSplice.
Import Merge Markers.
Local Open Scope string_scope.
Local Open Scope list_scope.

Lemma string_append_assoc (a b c : string) : ((a ++ b) ++ c = a ++ b ++ c)%string.
Proof. induction a as [| ch a IH]; [reflexivity | cbn; now rewrite IH]. Qed.

Lemma scan_no_end lines :
  forall i s e,
    (forall l, In l lines -> is_end l = false) -> snd (scan lines i s e) = e.
Proof.
  induction lines as [| l rest IH]; intros i s e Hno.
  - reflexivity.
  - cbn [scan]. pose proof (Hno l (or_introl eq_refl)) as Hl. unfold is_end in Hl.
    rewrite Hl. apply IH. intros l' Hl'. apply Hno. right. exact Hl'.
Qed.

Lemma scan_last_start pre l post :
  is_start l = true -> (forall l', In l' post -> is_start l' = false) ->
  forall i s e, fst (scan (pre ++ l :: post) i s e) = (i + Z.of_nat (List.length pre))%Z.
Proof.
  intros Hl Hpost. unfold is_start in Hl.
  induction pre as [| p pre IH]; intros i s e.
  - cbn [app scan List.length]. rewrite Hl.
    rewrite scan_no_start by exact Hpost. cbn. lia.
  - cbn [app scan List.length]. rewrite IH. lia.
Qed.

Lemma scan_last_end pre l post :
  is_end l = true -> (forall l', In l' post -> is_end l' = false) ->
  forall i s e, snd (scan (pre ++ l :: post) i s e) = (i + Z.of_nat (List.length pre))%Z.
Proof.
  intros Hl Hpost. unfold is_end in Hl.
  induction pre as [| p pre IH]; intros i s e.
  - cbn [app scan List.length]. rewrite Hl.
    rewrite scan_no_end by exact Hpost. cbn. lia.
  - cbn [app scan List.length]. rewrite IH. lia.
Qed.

(** The end index never exceeds the index of the last line that was
    scanned before. *)
Lemma scan_end_before lines :
  forall i s e, (e < i)%Z -> (snd (scan lines i s e) < i + Z.of_nat (List.length lines))%Z.
Proof.
  induction lines as [| l rest IH]; intros i s e He.
  - cbn. lia.
  - cbn [scan List.length].
    destruct (includes (toUpperCase l) ";END_ART").
    + specialize (IH (i + 1)%Z (if includes (toUpperCase l) ";START_ART" then i else s) i).
      lia.
    + specialize (IH (i + 1)%Z (if includes (toUpperCase l) ";START_ART" then i else s) e).
      lia.
Qed.

Lemma scan_app l1 l2 :
  forall i s e,
    scan (l1 ++ l2) i s e =
    scan l2 (i + Z.of_nat (List.length l1))
         (fst (scan l1 i s e)) (snd (scan l1 i s e)).
Proof.
  induction l1 as [| l l1 IH]; intros i s e.
  - cbn. now rewrite Z.add_0_r.
  - cbn [app scan List.length]. rewrite IH. f_equal. lia.
Qed.

(** X4.  When a marker occurs on several lines the last one counts: the scan
    returns the index of the last line that contains ";START_ART" (letters
    in either case), and likewise for ";END_ART"; a marker that occurs on
    no line leaves its index at -1. *)
Theorem scan_last_marker_wins (lines : list string) :
  (forall pre l post, lines = pre ++ l :: post ->
     is_start l = true -> (forall l', In l' post -> is_start l' = false) ->
     fst (scan lines 0 (-1) (-1)) = Z.of_nat (List.length pre)) /\
  (forall pre l post, lines = pre ++ l :: post ->
     is_end l = true -> (forall l', In l' post -> is_end l' = false) ->
     snd (scan lines 0 (-1) (-1)) = Z.of_nat (List.length pre)) /\
  ((forall l, In l lines -> is_start l = false) -> fst (scan lines 0 (-1) (-1)) = (-1)%Z) /\
  ((forall l, In l lines -> is_end l = false) -> snd (scan lines 0 (-1) (-1)) = (-1)%Z).
Proof.
  repeat split.
  - intros pre l post -> Hl Hpost. now rewrite scan_last_start.
  - intros pre l post -> Hl Hpost. now rewrite scan_last_end.
  - intros Hno. now apply scan_no_start.
  - intros Hno. now apply scan_no_end.
Qed.

Lemma scan_last_marker_wins_witness :
  scan (split_lines twice_template) 0 (-1) (-1) = (1, 3)%Z.
Proof.
  destruct (scan_last_marker_wins (split_lines twice_template)) as [Hs [He _]].
  specialize (Hs [";start_art"] "G28 ;start_art" ["X"; ";end_art"; "M84"]
                 eq_refl eq_refl).
  specialize (He [";start_art"; "G28 ;start_art"; "X"] ";end_art" ["M84"]
                 eq_refl eq_refl).
  rewrite (surjective_pairing (scan (split_lines twice_template) 0 (-1) (-1))).
  rewrite Hs, He.
  - reflexivity.
  - intros l' [<- | []]. reflexivity.
  - intros l' [<- | [<- | [<- | []]]]; reflexivity.
Defined.

Lemma firstn_app_length {A : Type} (l1 l2 : list A) :
  firstn (List.length l1) (l1 ++ l2) = l1.
Proof. induction l1 as [| a l1 IH]; [now destruct l2 | cbn; now rewrite IH]. Qed.

Lemma skipn_app_length {A : Type} (l1 l2 : list A) :
  skipn (List.length l1) (l1 ++ l2) = l2.
Proof. induction l1 as [| a l1 IH]; [reflexivity | exact IH]. Qed.

Lemma merge_frame header mode art footer :
  ((header ++ changeCommand mode ++ nl ++ "; --- START ARTWORK ---" ++ nl
           ++ art ++ nl ++ "; --- END ARTWORK ---" ++ nl) ++ footer
   = header ++ (changeCommand mode ++ artwork_frame art) ++ footer)%string.
Proof.
  unfold artwork_frame.
  repeat rewrite string_append_assoc. reflexivity.
Qed.

(** X5.  The splice on a well-formed template.  If the lines of a non-empty
    template are [pre], a line with the start marker, [mid], a line with
    the end marker and [post], with no start marker from [mid] on and no end
    marker in [post], the merge returns the lines through the start-marker
    line, then the change directive and the framed artwork, then the lines
    from the end-marker line on: exactly the lines of [mid] are dropped.
    No warning is logged when the document has the filament-change
    selector; when it is missing, the one warning "Element not found:
    filamentChangeMode" is logged. *)
Theorem merge_splices_between_markers
    (content : string) (modeValue : option string) (art : string)
    (pre mid post : list string) (sl el : string) :
  content <> EmptyString ->
  split_lines content = pre ++ sl :: mid ++ el :: post ->
  is_start sl = true ->
  (forall l, In l (mid ++ el :: post) -> is_start l = false) ->
  is_end el = true ->
  (forall l, In l post -> is_end l = false) ->
  mergeWithTemplate (Some content) modeValue art =
  ((join (pre ++ [sl])%list ++ spliced modeValue art ++ join (el :: post))%string,
   match modeValue with
   | Some _ => []
   | None => ["Element not found: filamentChangeMode"]
   end).
Proof.
  intros Hne Hlines Hsl Hnos Hel Hnoe.
  unfold mergeWithTemplate, falsy.
  destruct (String.eqb_spec content EmptyString) as [Heq | _]; [contradiction |].
  rewrite Hlines.
  pose proof (scan_last_start pre sl (mid ++ el :: post) Hsl Hnos 0 (-1) (-1)) as Hs.
  assert (He : snd (scan (pre ++ sl :: mid ++ el :: post) 0 (-1) (-1))
               = Z.of_nat (List.length (pre ++ sl :: mid))).
  { replace (pre ++ sl :: mid ++ el :: post) with ((pre ++ sl :: mid) ++ el :: post)
      by (rewrite <- app_assoc; reflexivity).
    now rewrite scan_last_end. }
  destruct (scan (pre ++ sl :: mid ++ el :: post) 0 (-1) (-1)) as [s e].
  cbn [fst snd] in Hs, He. subst s e.
  rewrite length_app. cbn [List.length].
  assert (H1 : (0 + Z.of_nat (List.length pre) =? -1)%Z = false) by (apply Z.eqb_neq; lia).
  rewrite H1.
  assert (H2 : (Z.of_nat (List.length pre + S (List.length mid)) =? -1)%Z = false)
    by (apply Z.eqb_neq; lia).
  assert (H3 : (0 + Z.of_nat (List.length pre) <? Z.of_nat (List.length pre + S (List.length mid)))%Z = true)
    by (apply Z.ltb_lt; lia).
  rewrite H2, H3. cbn [negb andb].
  unfold slice_to, slice_from.
  replace (Z.to_nat (0 + Z.of_nat (List.length pre) + 1)) with (List.length (pre ++ [sl]))
    by (rewrite length_app; cbn [List.length]; lia).
  replace (pre ++ sl :: mid ++ el :: post) with ((pre ++ [sl]) ++ mid ++ el :: post) at 1
    by (rewrite <- app_assoc; reflexivity).
  rewrite firstn_app_length.
  replace (Z.to_nat (Z.of_nat (List.length pre + S (List.length mid))))
    with (List.length (pre ++ sl :: mid))
    by (rewrite length_app; cbn [List.length]; lia).
  replace (pre ++ sl :: mid ++ el :: post) with ((pre ++ sl :: mid) ++ el :: post)
    by (rewrite <- app_assoc; reflexivity).
  rewrite skipn_app_length.
  rewrite merge_frame. destruct modeValue; reflexivity.
Qed.

Lemma merge_splices_between_markers_witness :
  mergeWithTemplate (Some twice_template) (Some "ams") "ART" =
  ((join ([";start_art"] ++ ["G28 ;start_art"])%list ++ spliced (Some "ams") "ART"
      ++ join [";end_art"; "M84"])%string, []).
Proof.
  apply (merge_splices_between_markers twice_template (Some "ams") "ART"
           [";start_art"] ["X"] ["M84"] "G28 ;start_art" ";end_art").
  - discriminate.
  - reflexivity.
  - reflexivity.
  - intros l [<- | [<- | [<- | []]]]; reflexivity.
  - reflexivity.
  - intros l [<- | []]. reflexivity.
Defined.

(** X6.  A start marker that no end marker follows loses nothing.  If the
    lines of a non-empty template are [pre], a line with the start marker
    and [post], and [post] contains neither marker, the merge returns the
    lines through the start-marker line, the change directive and the
    framed artwork, and then all of [post]; an end marker on the
    start-marker line or before it is ignored.  No warning is logged when
    the document has the filament-change selector; when it is missing, the
    one warning "Element not found: filamentChangeMode" is logged. *)
Theorem merge_without_end_marker
    (content : string) (modeValue : option string) (art : string)
    (pre post : list string) (sl : string) :
  content <> EmptyString ->
  split_lines content = pre ++ sl :: post ->
  is_start sl = true ->
  (forall l, In l post -> is_start l = false /\ is_end l = false) ->
  mergeWithTemplate (Some content) modeValue art =
  ((join (pre ++ [sl])%list ++ spliced modeValue art ++ join post)%string,
   match modeValue with
   | Some _ => []
   | None => ["Element not found: filamentChangeMode"]
   end).
Proof.
  intros Hne Hlines Hsl Hno.
  unfold mergeWithTemplate, falsy.
  destruct (String.eqb_spec content EmptyString) as [Heq | _]; [contradiction |].
  rewrite Hlines.
  pose proof (scan_last_start pre sl post Hsl (fun l H => proj1 (Hno l H)) 0 (-1) (-1))
    as Hs.
  assert (He : (snd (scan (pre ++ sl :: post) 0 (-1) (-1))
                < 0 + Z.of_nat (List.length pre) + 1)%Z).
  { replace (pre ++ sl :: post) with ((pre ++ [sl]) ++ post)
      by (rewrite <- app_assoc; reflexivity).
    rewrite scan_app.
    rewrite scan_no_end by (intros l H; apply (Hno l H)).
    pose proof (scan_end_before (pre ++ [sl]) 0 (-1) (-1)) as Hb.
    rewrite length_app in Hb. cbn [List.length] in Hb. lia. }
  destruct (scan (pre ++ sl :: post) 0 (-1) (-1)) as [s e].
  cbn [fst snd] in Hs, He. subst s.
  assert (H1 : (0 + Z.of_nat (List.length pre) =? -1)%Z = false) by (apply Z.eqb_neq; lia).
  rewrite H1.
  assert (H3 : (0 + Z.of_nat (List.length pre) <? e)%Z = false) by (apply Z.ltb_ge; lia).
  rewrite H3, andb_false_r.
  unfold slice_to, slice_from.
  replace (Z.to_nat (0 + Z.of_nat (List.length pre) + 1)) with (List.length (pre ++ [sl]))
    by (rewrite length_app; cbn [List.length]; lia).
  replace (pre ++ sl :: post) with ((pre ++ [sl]) ++ post)
    by (rewrite <- app_assoc; reflexivity).
  rewrite firstn_app_length, skipn_app_length.
  rewrite merge_frame. destruct modeValue; reflexivity.
Qed.

Lemma merge_without_end_marker_witness :
  mergeWithTemplate (Some swapped_template) None "ART" =
  ((join ([";END_ART"] ++ [";START_ART"])%list ++ spliced None "ART" ++ join ["M84"])%string,
   ["Element not found: filamentChangeMode"]).
Proof.
  apply (merge_without_end_marker swapped_template None "ART"
           [";END_ART"] ["M84"] ";START_ART").
  - discriminate.
  - reflexivity.
  - reflexivity.
  - intros l [<- | []]. split; reflexivity.
Defined.

(** Splitting and joining. *)

Lemma join_cons l ls : join (l :: ls) =
  match ls with [] => l | _ :: _ => (l ++ nl ++ join ls)%string end.
Proof. destruct ls; reflexivity. Qed.

Lemma split_lines_nonempty s : split_lines s <> [].
Proof.
  destruct s as [| c rest]; [discriminate |].
  cbn [split_lines].
  destruct (Ascii.eqb c LF); [discriminate |].
  assert (Hk : match split_lines rest with
               | l :: ls => String c l :: ls
               | [] => [String c EmptyString]
               end <> []) by (destruct (split_lines rest); discriminate).
  destruct (Ascii.eqb c CR); [| exact Hk].
  destruct rest as [| c' rest']; [exact Hk |].
  destruct (Ascii.eqb c' LF); [discriminate | exact Hk].
Qed.

Lemma join_push c l ls : join (String c l :: ls) = String c (join (l :: ls)).
Proof. destruct ls; reflexivity. Qed.

(** X7.  Splitting a text into lines and joining the lines with "\n" gives
    the text back, whenever the text contains no carriage return: on such a
    template the header and the footer of a merge are verbatim pieces of
    the template. *)
Theorem join_split_lines (s : string) :
  ~ In CR (list_ascii_of_string s) -> join (split_lines s) = s.
Proof.
  induction s as [| c rest IH]; intros Hcr.
  - reflexivity.
  - cbn [list_ascii_of_string] in Hcr.
    assert (Hc : Ascii.eqb c CR = false).
    { apply Ascii.eqb_neq. intros ->. apply Hcr. left. reflexivity. }
    assert (Hrest : join (split_lines rest) = rest).
    { apply IH. intros H. apply Hcr. right. exact H. }
    cbn [split_lines]. rewrite Hc.
    destruct (Ascii.eqb_spec c LF) as [-> | Hlf].
    + rewrite join_cons.
      pose proof (split_lines_nonempty rest) as Hne.
      destruct (split_lines rest) as [| l ls] eqn:E; [contradiction |].
      rewrite Hrest. reflexivity.
    + destruct (split_lines rest) as [| l ls] eqn:E.
      * exfalso. now apply (split_lines_nonempty rest).
      * rewrite join_push, Hrest. reflexivity.
Qed.

Lemma join_split_lines_witness :
  join (split_lines twice_template) = twice_template.
Proof.
  apply join_split_lines. cbn. intros H.
  repeat (destruct H as [H | H]; [discriminate H |]). exact H.
Defined.

(** X8.  The merge never loses the artwork: for every template, loaded or
    not, with or without markers, and every mode, the text returned contains
    the artwork block verbatim. *)
Theorem merge_keeps_artwork
    (template modeValue : option string) (art : string) :
  exists before after : string,
    fst (mergeWithTemplate template modeValue art) = (before ++ art ++ after)%string.
Proof.
  unfold mergeWithTemplate.
  destruct template as [content |].
  - destruct (falsy (Some content)).
    + exists EmptyString, EmptyString. cbn [fst]. now rewrite append_nil_r.
    + destruct (scan (split_lines content) 0 (-1) (-1)) as [s e].
      destruct (s =? -1)%Z.
      * exists (content ++ nl)%string, EmptyString. cbn [fst].
        now rewrite append_nil_r, string_append_assoc.
      * cbn [fst].
        set (header := join (slice_to (s + 1) (split_lines content))).
        set (footer := if negb (e =? -1)%Z && (s <? e)%Z
                       then join (slice_from e (split_lines content))
                       else join (slice_from (s + 1) (split_lines content))).
        exists (header ++ changeCommand (changeMode modeValue) ++ nl
                  ++ "; --- START ARTWORK ---" ++ nl)%string,
               (nl ++ "; --- END ARTWORK ---" ++ nl ++ footer)%string.
        rewrite merge_frame. unfold artwork_frame.
        repeat rewrite string_append_assoc. reflexivity.
  - exists EmptyString, EmptyString. cbn [fst]. now rewrite append_nil_r.
Qed.

Lemma scan_start_range lines :
  forall i s e, fst (scan lines i s e) = s \/ (i <= fst (scan lines i s e))%Z.
Proof.
  induction lines as [| l rest IH]; intros i s e; [left; reflexivity |].
  cbn [scan].
  destruct (includes (toUpperCase l) ";START_ART").
  - right.
    destruct (IH (i + 1)%Z i (if includes (toUpperCase l) ";END_ART" then i else e))
      as [-> | H]; lia.
  - destruct (IH (i + 1)%Z s (if includes (toUpperCase l) ";END_ART" then i else e))
      as [-> | H]; [left; reflexivity | right; lia].
Qed.

Lemma scan_start_found lines :
  forall i s e,
    (exists l, In l lines /\ is_start l = true) ->
    (i <= fst (scan lines i s e))%Z.
Proof.
  induction lines as [| l rest IH]; intros i s e [l0 [Hin Hl0]]; [contradiction |].
  cbn [scan]. destruct Hin as [<- | Hin].
  - unfold is_start in Hl0. rewrite Hl0.
    destruct (scan_start_range rest (i + 1)%Z i
                (if includes (toUpperCase l) ";END_ART" then i else e)) as [-> | H]; lia.
  - specialize (IH (i + 1)%Z
                   (if includes (toUpperCase l) ";START_ART" then i else s)
                   (if includes (toUpperCase l) ";END_ART" then i else e)
                   (ex_intro _ l0 (conj Hin Hl0))).
    lia.
Qed.

(** X9.  The start-marker warning is logged exactly when the start marker
    is missing: for a non-empty template, the merge logs the one warning
    "Marker ;START_ART not found in template" if and only if no line of the
    template contains ";START_ART" (letters in either case).  When some
    line does, the merge logs nothing if the document has the
    filament-change selector, and the one warning "Element not found:
    filamentChangeMode" if it is missing. *)
Theorem merge_warns_iff_start_missing
    (content : string) (modeValue : option string) (art : string) :
  content <> EmptyString ->
  (snd (mergeWithTemplate (Some content) modeValue art)
     = ["Marker ;START_ART not found in template"%string] <->
   ~ exists l, In l (split_lines content) /\ is_start l = true) /\
  ((exists l, In l (split_lines content) /\ is_start l = true) ->
   snd (mergeWithTemplate (Some content) modeValue art)
     = match modeValue with
       | Some _ => []
       | None => ["Element not found: filamentChangeMode"%string]
       end).
Proof.
  intros Hne. unfold mergeWithTemplate, falsy.
  destruct (String.eqb_spec content EmptyString) as [Heq | _]; [contradiction |].
  destruct (scan (split_lines content) 0 (-1) (-1)) as [s e] eqn:E.
  assert (Hfound : (exists l, In l (split_lines content) /\ is_start l = true) ->
                   s <> (-1)%Z).
  { intros Hex.
    pose proof (scan_start_found (split_lines content) 0 (-1) (-1) Hex) as H.
    rewrite E in H. cbn [fst] in H. lia. }
  assert (Hmiss : (~ exists l, In l (split_lines content) /\ is_start l = true) ->
                  s = (-1)%Z).
  { intros Hno.
    assert (Hall : forall l, In l (split_lines content) ->
              includes (toUpperCase l) ";START_ART" = false).
    { intros l Hl. destruct (is_start l) eqn:Hl'; [| exact Hl'].
      exfalso. apply Hno. exists l. split; assumption. }
    pose proof (scan_no_start (split_lines content) 0 (-1) (-1) Hall) as H.
    rewrite E in H. exact H. }
  destruct (Z.eqb_spec s (-1)) as [Hs | Hs]; cbn [snd].
  - split.
    + split; [| reflexivity].
      intros _ Hex. apply (Hfound Hex Hs).
    + intros Hex. exfalso. apply (Hfound Hex Hs).
  - split.
    + split.
      * destruct modeValue; cbn [getElement_warns]; discriminate.
      * intros Hno. exfalso. apply Hs, Hmiss, Hno.
    + intros _. destruct modeValue; reflexivity.
Qed.

Lemma merge_warns_iff_start_missing_witness :
  snd (mergeWithTemplate (Some swapped_template) (Some "manual"%string) "ART") = [].
Proof.
  destruct (merge_warns_iff_start_missing swapped_template (Some "manual"%string) "ART")
    as [_ H].
  - discriminate.
  - apply H. exists ";START_ART"%string. split; [right; left |]; reflexivity.
Defined.

End MergeSplice.

(** ** The brightness sampler on every image, and the view it reads *)

Section SamplerFacts.
Import Core Ledger.
Local Open Scope R_scope.

Lemma clamp_range lo hi x : lo <= hi -> lo <= Rmax lo (Rmin hi x) <= hi.
Proof.
  intros H. unfold Rmax, Rmin.
  destruct (Rle_dec hi x); destruct (Rle_dec lo _); lra.
Qed.

Lemma clamp_id lo hi x : lo <= x <= hi -> Rmax lo (Rmin hi x) = x.
Proof.
  intros H. unfold Rmax, Rmin.
  destruct (Rle_dec hi x); destruct (Rle_dec lo _); lra.
Qed.

Lemma div_unit a b : 0 <= a <= b -> 0 < b -> 0 <= a / b <= 1.
Proof.
  intros Ha Hb. unfold Rdiv.
  assert (Hi : 0 < / b) by now apply Rinv_0_lt_compat.
  split; [apply Rmult_le_pos; lra |].
  apply Rmult_le_reg_r with b; [exact Hb |].
  rewrite Rmult_assoc, Rinv_l by lra. lra.
Qed.

Lemma pixel_at_range pixels idx :
  bytes pixels -> 0 <= pixel_at pixels idx <= 255.
Proof.
  intros Hb. unfold pixel_at.
  assert (H : (0 <= nth (Z.to_nat idx) pixels 0 <= 255)%Z).
  { destruct (nth_in_or_default (Z.to_nat idx) pixels 0%Z) as [Hin | ->]; [| lia].
    unfold bytes in Hb. rewrite Forall_forall in Hb. now apply Hb. }
  split; apply IZR_le; lia.
Qed.

Lemma pixelBrightness_range pixels w px py :
  bytes pixels -> 0 <= pixelBrightness pixels w px py <= 255.
Proof.
  intros Hb. unfold pixelBrightness.
  pose proof (pixel_at_range pixels ((py * w + px) * 4) Hb).
  pose proof (pixel_at_range pixels ((py * w + px) * 4 + 1) Hb).
  pose proof (pixel_at_range pixels ((py * w + px) * 4 + 2) Hb).
  lra.
Qed.

Lemma bilinear_range c00 c10 c01 c11 tx ty :
  0 <= c00 <= 255 -> 0 <= c10 <= 255 -> 0 <= c01 <= 255 -> 0 <= c11 <= 255 ->
  0 <= tx <= 1 -> 0 <= ty <= 1 ->
  0 <= c00 * (1 - tx) * (1 - ty) + c10 * tx * (1 - ty)
       + c01 * (1 - tx) * ty + c11 * tx * ty <= 255.
Proof.
  intros H00 H10 H01 H11 Hx Hy.
  assert (W00 : 0 <= (1 - tx) * (1 - ty)) by (apply Rmult_le_pos; lra).
  assert (W10 : 0 <= tx * (1 - ty)) by (apply Rmult_le_pos; lra).
  assert (W01 : 0 <= (1 - tx) * ty) by (apply Rmult_le_pos; lra).
  assert (W11 : 0 <= tx * ty) by (apply Rmult_le_pos; lra).
  assert (A00 : 0 <= c00 * ((1 - tx) * (1 - ty)) <= 255 * ((1 - tx) * (1 - ty))).
  { split; [apply Rmult_le_pos; lra | apply Rmult_le_compat_r; lra]. }
  assert (A10 : 0 <= c10 * (tx * (1 - ty)) <= 255 * (tx * (1 - ty))).
  { split; [apply Rmult_le_pos; lra | apply Rmult_le_compat_r; lra]. }
  assert (A01 : 0 <= c01 * ((1 - tx) * ty) <= 255 * ((1 - tx) * ty)).
  { split; [apply Rmult_le_pos; lra | apply Rmult_le_compat_r; lra]. }
  assert (A11 : 0 <= c11 * (tx * ty) <= 255 * (tx * ty)).
  { split; [apply Rmult_le_pos; lra | apply Rmult_le_compat_r; lra]. }
  replace (c00 * (1 - tx) * (1 - ty) + c10 * tx * (1 - ty)
           + c01 * (1 - tx) * ty + c11 * tx * ty)
    with (c00 * ((1 - tx) * (1 - ty)) + c10 * (tx * (1 - ty))
          + c01 * ((1 - tx) * ty) + c11 * (tx * ty)) by ring.
  assert (Hsum : (1 - tx) * (1 - ty) + tx * (1 - ty) + (1 - tx) * ty + tx * ty = 1)
    by ring.
  lra.
Qed.

Lemma frac_range x : 0 <= x - IZR (Zfloor x) <= 1.
Proof. pose proof (Zfloor_bound x). lra. Qed.

Lemma pow_js_range b e : 0 <= b <= 1 -> 0 <= e -> 0 <= pow_js b e <= 1.
Proof.
  intros Hb He. unfold pow_js.
  destruct (Rleb_spec b 0) as [Hle | Hgt]; [lra |].
  assert (Hpos : 0 < b) by lra.
  unfold Rpower. split; [left; apply exp_pos |].
  assert (Hln : ln b <= 0).
  { destruct (Req_dec b 1) as [-> | Hne]; [rewrite ln_1; lra |].
    left. rewrite <- ln_1. apply ln_increasing; lra. }
  assert (Hm : e * ln b <= 0).
  { replace 0 with (e * 0) by ring. apply Rmult_le_compat_l; assumption. }
  destruct Hm as [Hlt | Heq].
  - left. rewrite <- exp_0. now apply exp_increasing.
  - rewrite Heq, exp_0. lra.
Qed.

Lemma getBrightnessAtUV_range vw u v pixels w h g :
  bytes pixels -> 0 < g ->
  0 <= getBrightnessAtUV vw u v pixels w h g <= 1.
Proof.
  intros Hb Hg. unfold getBrightnessAtUV. cbv zeta.
  match goal with
  | |- 0 <= 1 - pow_js (?avg / 255) ?e <= 1 =>
      assert (Havg : 0 <= avg <= 255)
        by (apply bilinear_range; try (apply pixelBrightness_range; exact Hb);
            apply frac_range);
      assert (He : 0 <= e)
        by (unfold Rdiv; rewrite Rmult_1_l; left; now apply Rinv_0_lt_compat);
      assert (Hq : 0 <= avg / 255 <= 1) by lra;
      pose proof (pow_js_range (avg / 255) e Hq He) as Hp
  end.
  lra.
Qed.

(** X10.  The darkness that drives line width and speed is a fraction: for an
    image of bytes (0..255) and a gamma above 0, the darkness sampled at any
    point, for any pan, zoom, mirror setting and image size, lies between 0
    and 1. *)
Theorem darkness_in_unit_interval (i : Inputs) (x y : R) :
  bytes (pixels i) -> 0 < gammaVal i -> 0 <= darknessAt i x y <= 1.
Proof.
  intros Hb Hg. unfold darknessAt. cbv zeta.
  apply getBrightnessAtUV_range; assumption.
Qed.

Lemma darkness_in_unit_interval_witness :
  0 <= darknessAt Runs.gradient_inputs 100 80 <= 1.
Proof.
  apply darkness_in_unit_interval.
  - repeat constructor; lia.
  - simpl. lra.
Defined.

(** X11.  The sampler reproduces the image on its pixel grid.  With the view
    as it is after an image is loaded (zoom 1, no offset), at the point of
    the print area that corresponds to pixel [(px, py)] of an image at least
    2 pixels wide and high whose array holds the four bytes of each of its
    [w * h] pixels, namely [u = px / (w - 1)] and, the image being
    upright on the bed, [v = 1 - py / (h - 1)], the bilinear interpolation
    takes that pixel alone: the value returned is
    [1 - ((r + g + b) / 3 / 255) ^ (1 / gamma)] of the pixel. *)
Theorem sampler_exact_at_pixel
    (pixels : list Z) (w h px py : Z) (gamma : R) :
  image_data pixels w h ->
  (2 <= w)%Z -> (2 <= h)%Z -> (0 <= px <= w - 1)%Z -> (0 <= py <= h - 1)%Z ->
  getBrightnessAtUV Runs.no_pan
    (IZR px / IZR (w - 1)) (1 - IZR py / IZR (h - 1)) pixels w h gamma
  = 1 - pow_js (pixelBrightness pixels w px py / 255) (1 / gamma).
Proof.
  intros _ Hw Hh Hpx Hpy.
  assert (Hw1 : 0 < IZR (w - 1)) by (apply IZR_lt; lia).
  assert (Hh1 : 0 < IZR (h - 1)) by (apply IZR_lt; lia).
  assert (Hu : 0 <= IZR px / IZR (w - 1) <= 1).
  { apply div_unit; [split; apply IZR_le; lia | exact Hw1]. }
  assert (Hv : 0 <= IZR py / IZR (h - 1) <= 1).
  { apply div_unit; [split; apply IZR_le; lia | exact Hh1]. }
  unfold getBrightnessAtUV. cbv zeta. unfold Runs.no_pan.
  cbn [imageZoom imageOffsetX imageOffsetY].
  set (u := IZR px / IZR (w - 1)) in *. set (v := IZR py / IZR (h - 1)) in *.
  replace (u / 1 + 0) with u by field.
  replace ((1 - (1 - v)) / 1 + 0) with v by field.
  rewrite (clamp_id 0 1 u Hu), (clamp_id 0 1 v Hv).
  assert (Hx : u * IZR (w - 1) = IZR px) by (unfold u; field; lra).
  assert (Hy : v * IZR (h - 1) = IZR py) by (unfold v; field; lra).
  rewrite Hx, Hy, !ZfloorZ.
  replace (IZR px - IZR px) with 0 by ring.
  replace (IZR py - IZR py) with 0 by ring.
  f_equal. f_equal. f_equal. ring.
Qed.

Lemma sampler_exact_at_pixel_witness :
  getBrightnessAtUV Runs.no_pan (IZR 1 / IZR (2 - 1)) (1 - IZR 1 / IZR (2 - 1))
    Samples.checker_pixels 2 2 1
  = 1 - pow_js (pixelBrightness Samples.checker_pixels 2 1 1 / 255) (1 / 1).
Proof.
  apply (sampler_exact_at_pixel Samples.checker_pixels 2 2 1 1 1);
    [unfold image_data; simpl; repeat split; lia | lia | lia | lia | lia].
Defined.

End SamplerFacts.

Section PanZoomFacts.
Import Core PanZoom.
Local Open Scope R_scope.

Lemma reset_in_image : in_image reset.
Proof. unfold in_image, reset, ZOOM_MIN, ZOOM_MAX. simpl. lra. Qed.

Lemma maxOffset_nonneg z : 1 <= z -> 0 <= 1 - 1 / z.
Proof.
  intros Hz.
  assert (H : 1 / z <= 1).
  { unfold Rdiv. rewrite Rmult_1_l. rewrite <- Rinv_1.
    apply Rinv_le_contravar; lra. }
  lra.
Qed.

Lemma mousemove_in_image i dx dy v : in_image v -> in_image (mousemove i dx dy v).
Proof.
  intros [Hz [Hx Hy]]. unfold in_image, mousemove. cbn [imageZoom imageOffsetX imageOffsetY].
  unfold ZOOM_MIN in *.
  pose proof (maxOffset_nonneg (imageZoom v) (proj1 Hz)) as Hm.
  split; [exact Hz |]. split; apply clamp_range; exact Hm.
Qed.

Lemma wheel_in_image i mx my h deltaY v : in_image (wheel i mx my h deltaY v).
Proof.
  unfold in_image, wheel. cbn [imageZoom imageOffsetX imageOffsetY].
  match goal with
  | |- _ <= ?z <= _ /\ _ => assert (Hz : ZOOM_MIN <= z <= ZOOM_MAX)
  end.
  { apply clamp_range. unfold ZOOM_MIN, ZOOM_MAX. lra. }
  split; [exact Hz |].
  unfold ZOOM_MIN in Hz.
  split; apply clamp_range; apply maxOffset_nonneg; apply Hz.
Qed.

Lemma handle_in_image i v e : in_image v -> in_image (handle i v e).
Proof.
  intros Hv. destruct e; cbn [handle].
  - now apply mousemove_in_image.
  - apply wheel_in_image.
  - apply reset_in_image.
Qed.

Lemma fold_in_image i events :
  forall v, in_image v -> in_image (fold_left (handle i) events v).
Proof.
  induction events as [| e events IH]; intros v Hv; [exact Hv |].
  cbn [fold_left]. apply IH. now apply handle_in_image.
Qed.

Lemma window_in_image v t :
  in_image v -> 0 <= t <= 1 ->
  0 <= t / imageZoom v + imageOffsetX v <= 1 /\
  0 <= t / imageZoom v + imageOffsetY v <= 1.
Proof.
  intros [Hz [Hx Hy]] Ht. unfold ZOOM_MIN in Hz.
  assert (Hi : 0 < / imageZoom v) by (apply Rinv_0_lt_compat; lra).
  assert (H1 : 0 <= t / imageZoom v <= 1 / imageZoom v).
  { unfold Rdiv. split; [apply Rmult_le_pos; lra |].
    apply Rmult_le_compat_r; lra. }
  lra.
Qed.

(** X12.  Panning and zooming never show anything outside the image.  After
    an image is loaded and any sequence of drag and wheel events, on any
    print area, the zoom is between 1 and 10 and both image offsets are
    between 0 and [1 - 1 / zoom]; so for every point of the print area the
    source coordinates that the brightness sampler computes are already
    within [0, 1] and its clamp leaves them as they are. *)
Theorem session_view_in_image (i : Inputs) (events : list Event) :
  let vw := session i events in
  in_image vw /\
  forall u_print v_print_yup,
    0 <= u_print <= 1 -> 0 <= v_print_yup <= 1 ->
    Rmax 0 (Rmin 1 (u_source vw u_print)) = u_source vw u_print /\
    Rmax 0 (Rmin 1 (v_source vw v_print_yup)) = v_source vw v_print_yup.
Proof.
  intros vw.
  assert (Hv : in_image vw) by (apply fold_in_image, reset_in_image).
  split; [exact Hv |].
  intros u v Hu Hvv. unfold u_source, v_source.
  split; apply clamp_id.
  - apply (window_in_image vw u Hv Hu).
  - apply (window_in_image vw (1 - v) Hv). lra.
Qed.

Lemma zoom_in_value z :
  1 <= z <= 10 -> z <= Rmax ZOOM_MIN (Rmin ZOOM_MAX (z * ZOOM_FACTOR)) <= 10.
Proof.
  intros Hz. unfold ZOOM_MIN, ZOOM_MAX, ZOOM_FACTOR, Rmax, Rmin.
  destruct (Rle_dec 10 (z * 1.1)); destruct (Rle_dec 1 _); lra.
Qed.

Lemma zoom_in_offset o t z z' :
  1 <= z -> z <= z' -> 0 <= o <= 1 - 1 / z -> 0 <= t <= 1 ->
  Rmax 0 (Rmin (1 - 1 / z') (t / z + o - t / z')) = t / z + o - t / z'.
Proof.
  intros Hz Hzz Ho Ht. apply clamp_id.
  assert (Ha : 0 < / z) by (apply Rinv_0_lt_compat; lra).
  assert (Hb : 0 < / z') by (apply Rinv_0_lt_compat; lra).
  assert (Hba : / z' <= / z) by (apply Rinv_le_contravar; lra).
  unfold Rdiv in *. rewrite Rmult_1_l in *.
  assert (H1 : t * / z' <= t * / z) by (apply Rmult_le_compat_l; lra).
  assert (H2 : (1 - t) * / z' <= (1 - t) * / z) by (apply Rmult_le_compat_l; lra).
  split; lra.
Qed.

(** X13.  Zooming in keeps the image point under the cursor where it is.
    From a view within the image, a wheel event that zooms in (negative
    [deltaY]) raises the zoom, by the factor 1.1 or up to the limit 10, and
    moves the offsets, without clamping them, so that the source
    coordinates shown at the cursor are the same before and after. *)
Theorem wheel_zoom_in_keeps_cursor_point
    (i : Inputs) (mx my canvasHeight deltaY : R) (v : View) :
  in_image v -> deltaY < 0 ->
  let v' := wheel i mx my canvasHeight deltaY v in
  imageZoom v <= imageZoom v' /\
  u_source v' (cursor_u i mx) = u_source v (cursor_u i mx) /\
  v_source v' (cursor_v i my canvasHeight) = v_source v (cursor_v i my canvasHeight).
Proof.
  intros [Hz [Hx Hy]] Hd v'. unfold ZOOM_MIN, ZOOM_MAX in Hz.
  assert (Hu : 0 <= cursor_u i mx <= 1) by (apply clamp_range; lra).
  assert (Hv : 0 <= cursor_v i my canvasHeight <= 1) by (apply clamp_range; lra).
  pose proof (zoom_in_value (imageZoom v) Hz) as Hz'.
  subst v'. unfold wheel, u_source, v_source.
  cbn [imageZoom imageOffsetX imageOffsetY].
  rewrite (Rltb_true deltaY 0 Hd).
  set (z' := Rmax ZOOM_MIN (Rmin ZOOM_MAX (imageZoom v * ZOOM_FACTOR))) in *.
  rewrite (zoom_in_offset (imageOffsetX v) (cursor_u i mx) (imageZoom v) z')
    by (lra || assumption).
  rewrite (zoom_in_offset (imageOffsetY v) (1 - cursor_v i my canvasHeight) (imageZoom v) z')
    by (lra || assumption).
  split; [lra |]. split; lra.
Qed.

Lemma wheel_zoom_in_keeps_cursor_point_witness :
  imageZoom reset <= imageZoom (wheel Runs.gradient_inputs 300 300 750 (-1) reset).
Proof.
  destruct (wheel_zoom_in_keeps_cursor_point Runs.gradient_inputs 300 300 750 (-1) reset)
    as [H _]; [apply reset_in_image | lra | exact H].
Defined.

(** X14.  Zooming in and then out again at the same cursor position gives
    back the view: from a view within the image whose zoom is at most
    10 / 1.1, a zoom-in wheel event followed by a zoom-out wheel event at the
    same position restores the zoom and both offsets. *)
Theorem wheel_in_out_round_trip
    (i : Inputs) (mx my canvasHeight deltaIn deltaOut : R) (v : View) :
  in_image v -> imageZoom v * ZOOM_FACTOR <= ZOOM_MAX ->
  deltaIn < 0 -> 0 <= deltaOut ->
  wheel i mx my canvasHeight deltaOut (wheel i mx my canvasHeight deltaIn v) = v.
Proof.
  intros [Hz [Hx Hy]] Hmax Hin Hout.
  unfold ZOOM_MIN, ZOOM_MAX, ZOOM_FACTOR in *.
  assert (Hu : 0 <= cursor_u i mx <= 1) by (apply clamp_range; lra).
  assert (Hv : 0 <= cursor_v i my canvasHeight <= 1) by (apply clamp_range; lra).
  destruct v as [z ox oy]. cbn [imageZoom imageOffsetX imageOffsetY] in *.
  unfold wheel at 2. cbn [imageZoom imageOffsetX imageOffsetY].
  rewrite (Rltb_true deltaIn 0 Hin).
  assert (Hz1 : Rmax ZOOM_MIN (Rmin ZOOM_MAX (z * ZOOM_FACTOR)) = z * 1.1).
  { unfold ZOOM_MIN, ZOOM_MAX, ZOOM_FACTOR. apply clamp_id. lra. }
  rewrite Hz1.
  rewrite (zoom_in_offset ox (cursor_u i mx) z (z * 1.1)) by lra.
  rewrite (zoom_in_offset oy (1 - cursor_v i my canvasHeight) z (z * 1.1)) by lra.
  unfold wheel. cbn [imageZoom imageOffsetX imageOffsetY].
  rewrite (Rltb_false deltaOut 0 Hout).
  assert (Hz2 : Rmax ZOOM_MIN (Rmin ZOOM_MAX (z * 1.1 * (1 / ZOOM_FACTOR))) = z).
  { unfold ZOOM_MIN, ZOOM_MAX, ZOOM_FACTOR.
    replace (z * 1.1 * (1 / 1.1)) with z by (field; lra).
    apply clamp_id. lra. }
  rewrite Hz2.
  f_equal.
  - match goal with
    | |- Rmax 0 (Rmin ?m ?e) = _ => replace e with ox by (field; lra)
    end.
    apply clamp_id. lra.
  - match goal with
    | |- Rmax 0 (Rmin ?m ?e) = _ => replace e with oy by (field; lra)
    end.
    apply clamp_id. lra.
Qed.

Lemma wheel_in_out_round_trip_witness :
  wheel Runs.gradient_inputs 300 300 750 1
        (wheel Runs.gradient_inputs 300 300 750 (-1) reset) = reset.
Proof.
  apply wheel_in_out_round_trip.
  - apply reset_in_image.
  - unfold ZOOM_FACTOR, ZOOM_MAX. simpl. lra.
  - lra.
  - lra.
Defined.

End PanZoomFacts.

(** ** What one smart move appends *)

Section LedgerFacts.
Import Core Trace Ledger.
Local Open Scope R_scope.

Lemma extruded_app l1 l2 : extruded (l1 ++ l2) = extruded l1 + extruded l2.
Proof.
  induction l1 as [| a l1 IH]; [cbn; ring |].
  destruct a; cbn [app extruded]; rewrite IH; ring.
Qed.

Lemma appends_refl P st : appends P st st.
Proof.
  exists []. rewrite app_nil_r. split; [reflexivity |].
  split; [constructor | cbn; ring].
Qed.

Lemma appends_trans P st1 st2 st3 :
  appends P st1 st2 -> appends P st2 st3 -> appends P st1 st3.
Proof.
  intros [n1 [G1 [F1 E1]]] [n2 [G2 [F2 E2]]].
  exists (n1 ++ n2). rewrite G2, G1, app_assoc. split; [reflexivity |].
  split; [apply Forall_app; split; assumption |].
  rewrite extruded_app. lra.
Qed.

Lemma appends_weaken (P Q : Instr -> Prop) st st' :
  (forall ins, P ins -> Q ins) -> appends P st st' -> appends Q st st'.
Proof.
  intros H [n [G [F E]]]. exists n. split; [exact G |]. split; [| exact E].
  eapply Forall_impl; [exact H | exact F].
Qed.

Lemma fold_appends {A : Type} (f : State -> A -> State) (P : Instr -> Prop) (l : list A) :
  (forall a st, In a l -> appends P st (f st a)) ->
  forall st, appends P st (fold_left f l st).
Proof.
  induction l as [| a l IH]; intros H st; cbn [fold_left]; [apply appends_refl |].
  eapply appends_trans.
  - apply H. left. reflexivity.
  - apply IH. intros b st' Hb. apply H. right. exact Hb.
Qed.

Lemma appends_one (P : Instr -> Prop) st x y tot ins :
  P ins -> tot = totalE st + extruded [ins] ->
  appends P st (mkState x y tot (gcode st ++ [ins])).
Proof.
  intros HP Ht. exists [ins]. cbn [gcode totalE].
  split; [reflexivity |]. split; [repeat constructor; exact HP | exact Ht].
Qed.

Lemma writeMove_appends i x y w f t st (P : Instr -> Prop) :
  P (Travel x y) ->
  (t = false -> forall dist, 0.01 <= dist ->
     P (Print x y (dist * w * layerHeight i / filArea i) f)) ->
  appends P st (fst (writeMove i x y w f t st)).
Proof.
  intros HT HP.
  destruct (Rlt_dec (hypot (x - prevX st) (y - prevY st)) 0.01) as [Hlt | Hge].
  - rewrite writeMove_travel by (right; exact Hlt).
    apply appends_one; [exact HT | cbn; ring].
  - destruct t.
    + rewrite writeMove_travel by (left; reflexivity).
      apply appends_one; [exact HT | cbn; ring].
    + rewrite writeMove_print by lra.
      apply appends_one; [apply HP; [reflexivity | lra] | cbn; ring].
Qed.

Lemma writeMove_prev i x y w f t st :
  prevX (fst (writeMove i x y w f t st)) = x /\
  prevY (fst (writeMove i x y w f t st)) = y.
Proof. unfold writeMove. cbn. split; reflexivity. Qed.

(** Every move of one call has the same width and speed: those of text
    mode, or those that the darkness at the end point selects. *)
Lemma doSmartMove_uniform i r x y c st :
  exists w f,
    ((w = maxW i /\ f = minSpeed i) \/
     (w = minW i + darknessAt i x y * (maxW i - minW i) /\
      f = maxSpeed i - darknessAt i x y * (maxSpeed i - minSpeed i))) /\
    appends (uniform i w f) st (doSmartMove i r x y c st).
Proof.
  unfold doSmartMove.
  destruct (addCircularBase i && negb (isInsideBaseClip i r x y)).
  { exists (maxW i), (minSpeed i). split; [left; split; reflexivity |].
    apply writeMove_appends; [exact I | discriminate]. }
  destruct (textMode i && negb c).
  { exists (maxW i), (minSpeed i). split; [left; split; reflexivity |].
    destruct (Rltb (darknessAt i x y) (textThreshold i)).
    - apply writeMove_appends; [exact I | discriminate].
    - apply writeMove_appends; [exact I |].
      intros _ dist Hd. cbn. split; [reflexivity |].
      exists dist. split; [exact Hd | reflexivity]. }
  exists (minW i + darknessAt i x y * (maxW i - minW i)),
         (maxSpeed i - darknessAt i x y * (maxSpeed i - minSpeed i)).
  split; [right; split; reflexivity |].
  destruct (c || negb (useSquiggle i) || Rltb (darknessAt i x y) 0.1).
  - apply writeMove_appends; [exact I |].
    intros _ dist Hd. cbn. split; [reflexivity |].
    exists dist. split; [exact Hd | reflexivity].
  - unfold squiggle. apply fold_appends. intros k st' _.
    apply writeMove_appends; [exact I |].
    intros _ dist Hd. cbn. split; [reflexivity |].
    exists dist. split; [exact Hd | reflexivity].
Qed.

Lemma valid_filArea i : valid i -> 0 < filArea i.
Proof. intros H. apply filArea_pos. unfold valid in H. lra. Qed.

Lemma uniform_within_limits i w f ins :
  valid i -> minW i <= w <= maxW i -> minSpeed i <= f <= maxSpeed i ->
  uniform i w f ins -> within_limits i ins.
Proof.
  intros Hv Hw Hf Hu. pose proof (valid_filArea i Hv) as Ha.
  destruct ins; cbn in *; try exact Hu.
  destruct Hu as [-> [dist [Hd ->]]].
  split; [exact Hf |]. split.
  - unfold valid in Hv.
    unfold Rdiv. apply Rmult_lt_0_compat; [| now apply Rinv_0_lt_compat].
    apply Rmult_lt_0_compat; [apply Rmult_lt_0_compat |]; lra.
  - exists w, dist. split; [exact Hw |]. split; [exact Hd | reflexivity].
Qed.

Lemma blend_range lo hi d : lo <= hi -> 0 <= d <= 1 ->
  lo <= lo + d * (hi - lo) <= hi /\ lo <= hi - d * (hi - lo) <= hi.
Proof.
  intros H Hd.
  assert (H0 : 0 <= d * (hi - lo)) by (apply Rmult_le_pos; lra).
  assert (H1 : d * (hi - lo) <= 1 * (hi - lo)) by (apply Rmult_le_compat_r; lra).
  lra.
Qed.

(** One smart move keeps the limits of the form: on a segment of positive
    length, and on any segment when the move does not take the squiggle
    branch. *)
Lemma doSmartMove_within_limits i r x y c st :
  valid i -> bytes (pixels i) -> image_data (pixels i) (anaW i) (anaH i) ->
  0 < hypot (x - prevX st) (y - prevY st) \/
    c = true \/ useSquiggle i = false \/ textMode i = true ->
  appends (within_limits i) st (doSmartMove i r x y c st).
Proof.
  intros Hv Hb _ _.
  assert (Hd : 0 <= darknessAt i x y <= 1).
  { unfold darknessAt. cbv zeta. apply getBrightnessAtUV_range; [exact Hb |].
    unfold valid in Hv. lra. }
  assert (Hw : minW i <= maxW i) by (unfold valid in Hv; lra).
  assert (Hs : minSpeed i <= maxSpeed i)
    by (unfold minSpeed, maxSpeed; unfold valid in Hv; lra).
  destruct (doSmartMove_uniform i r x y c st) as [w [f [Hc Ha]]].
  eapply appends_weaken; [| exact Ha].
  intros ins. apply uniform_within_limits; [exact Hv | |].
  - destruct Hc as [[-> _] | [-> _]]; [lra |].
    apply (blend_range (minW i) (maxW i) _ Hw Hd).
  - destruct Hc as [[_ ->] | [_ ->]]; [lra |].
    apply (blend_range (minSpeed i) (maxSpeed i) _ Hs Hd).
Qed.

(** Outside the squiggle branch one call appends one instruction, which
    moves to the path point, and the path point becomes the previous
    position. *)
Lemma doSmartMove_plain i r x y c st :
  c = true \/ useSquiggle i = false \/ textMode i = true ->
  appends (fun ins => endpoint ins = Some (x, y)) st (doSmartMove i r x y c st) /\
  prevX (doSmartMove i r x y c st) = x /\ prevY (doSmartMove i r x y c st) = y.
Proof.
  intros H. unfold doSmartMove.
  assert (HW : forall w f t,
            appends (fun ins => endpoint ins = Some (x, y)) st
                    (fst (writeMove i x y w f t st)) /\
            prevX (fst (writeMove i x y w f t st)) = x /\
            prevY (fst (writeMove i x y w f t st)) = y).
  { intros w f t. split; [| apply writeMove_prev].
    apply writeMove_appends; [reflexivity | intros; reflexivity]. }
  destruct (addCircularBase i && negb (isInsideBaseClip i r x y)); [apply HW |].
  destruct (textMode i) eqn:Ht; destruct c; cbn [andb negb orb];
    try (destruct (Rltb (darknessAt i x y) (textThreshold i)); apply HW);
    try apply HW.
  destruct H as [H | [H | H]]; try discriminate.
  rewrite H. cbn [negb orb]. apply HW.
Qed.

(** X15.  A connecting move never extrudes: whatever the inputs, the image,
    the mode and the clip region, [doSmartMove(x, y, true)] appends exactly
    one rapid move to [(x, y)], leaves the extrusion total as it is and makes
    [(x, y)] the previous position. *)
Theorem connect_move_is_travel (i : Inputs) (innerRadius x y : R) (st : State) :
  doSmartMove i innerRadius x y true st =
  mkState x y (totalE st) (gcode st ++ [Travel x y]).
Proof.
  unfold doSmartMove.
  destruct (addCircularBase i && negb (isInsideBaseClip i innerRadius x y)).
  - apply writeMove_travel. left. reflexivity.
  - rewrite andb_false_r. cbn [negb orb].
    apply writeMove_travel. left. reflexivity.
Qed.

Lemma with_squiggle_clip a f i r x y :
  isInsideBaseClip (with_squiggle a f i) r x y = isInsideBaseClip i r x y.
Proof. reflexivity. Qed.

Lemma with_squiggle_darkness a f i x y :
  darknessAt (with_squiggle a f i) x y = darknessAt i x y.
Proof. reflexivity. Qed.

Lemma with_squiggle_writeMove a f i x y w s t st :
  writeMove (with_squiggle a f i) x y w s t st = writeMove i x y w s t st.
Proof. reflexivity. Qed.

(** X16.  Text mode switches the squiggle off: with text mode on, a smart
    move gives the same state, instruction for instruction, whatever the
    squiggle amplitude and frequency are. *)
Theorem text_mode_ignores_squiggle
    (i : Inputs) (amp freq innerRadius x y : R) (isConnect : bool) (st : State) :
  textMode i = true ->
  doSmartMove (with_squiggle amp freq i) innerRadius x y isConnect st =
  doSmartMove i innerRadius x y isConnect st.
Proof.
  intros Ht. unfold doSmartMove.
  rewrite with_squiggle_clip, with_squiggle_darkness, !with_squiggle_writeMove.
  change (addCircularBase (with_squiggle amp freq i)) with (addCircularBase i).
  change (textMode (with_squiggle amp freq i)) with (textMode i).
  change (textThreshold (with_squiggle amp freq i)) with (textThreshold i).
  change (maxW (with_squiggle amp freq i)) with (maxW i).
  change (minW (with_squiggle amp freq i)) with (minW i).
  change (minSpeed (with_squiggle amp freq i)) with (minSpeed i).
  change (maxSpeed (with_squiggle amp freq i)) with (maxSpeed i).
  rewrite Ht.
  destruct (addCircularBase i && negb (isInsideBaseClip i innerRadius x y));
    [reflexivity |].
  destruct isConnect; cbn [andb negb orb]; reflexivity.
Qed.

Lemma text_mode_ignores_squiggle_witness :
  doSmartMove (with_squiggle 5 20 Samples.text_inputs) 0 75.5 75 false Runs.start_state =
  doSmartMove Samples.text_inputs 0 75.5 75 false Runs.start_state.
Proof. apply text_mode_ignores_squiggle. reflexivity. Defined.

Lemma hypot_pos_sum a b : 0 < hypot a b -> 0 < a * a + b * b.
Proof.
  intros H. unfold hypot in H.
  destruct (Rlt_le_dec 0 (a * a + b * b)) as [Hp | Hn]; [exact Hp |].
  rewrite sqrt_neg_0 in H by exact Hn. lra.
Qed.

Lemma INR_numSegments_pos d : 0 < INR (numSegments d).
Proof.
  pose proof (numSegments_ge_2 d) as H. apply lt_0_INR. lia.
Qed.

(** X17.  The squiggle stays within its amplitude.  On a segment of positive
    length, sub-point [k] of the squiggle lies at distance
    [|sin(phase)| * |squiggleAmp * darkness|] from the point of the straight
    segment that it displaces, so at most [|squiggleAmp * darkness|] away
    from the segment. *)
Theorem squiggle_within_amplitude (i : Inputs) (darkness sx sy x y : R) (k : nat) :
  0 < hypot (x - sx) (y - sy) ->
  let n := INR (numSegments (hypot (x - sx) (y - sy))) in
  let p := squigglePoint i darkness sx sy x y k in
  let phase := INR k / n * hypot (x - sx) (y - sy) * (squiggleFreq i * TWO_PI) in
  hypot (fst p - (sx + (x - sx) / n * INR k)) (snd p - (sy + (y - sy) / n * INR k))
  = Rabs (sin phase) * Rabs (squiggleAmp i * darkness) /\
  hypot (fst p - (sx + (x - sx) / n * INR k)) (snd p - (sy + (y - sy) / n * INR k))
  <= Rabs (squiggleAmp i * darkness).
Proof.
  intros Hpos n p phase. subst p phase.
  unfold squigglePoint. cbv zeta. cbn [fst snd]. fold n.
  pose proof (INR_numSegments_pos (hypot (x - sx) (y - sy))) as Hn. fold n in Hn.
  set (dx := (x - sx) / n). set (dy := (y - sy) / n).
  set (m := sin (INR k / n * hypot (x - sx) (y - sy) * (squiggleFreq i * TWO_PI))
            * (squiggleAmp i * darkness)).
  assert (Hsum : 0 < dx * dx + dy * dy).
  { pose proof (hypot_pos_sum _ _ Hpos) as Hs.
    assert (Hi : 0 < / n) by now apply Rinv_0_lt_compat.
    replace (dx * dx + dy * dy)
      with (((x - sx) * (x - sx) + (y - sy) * (y - sy)) * (/ n * / n))
      by (unfold dx, dy, Rdiv; ring).
    apply Rmult_lt_0_compat; [exact Hs | now apply Rmult_lt_0_compat]. }
  assert (Hnorm : 0 < hypot dx dy) by (unfold hypot; now apply sqrt_lt_R0).
  assert (Hn2 : hypot dx dy * hypot dx dy = dx * dx + dy * dy)
    by (unfold hypot; apply sqrt_sqrt; lra).
  set (norm := hypot dx dy) in *.
  replace (sx + dx * INR k + - dy / norm * m - (sx + dx * INR k))
    with (- dy / norm * m) by ring.
  replace (sy + dy * INR k + dx / norm * m - (sy + dy * INR k))
    with (dx / norm * m) by ring.
  assert (Hm : hypot (- dy / norm * m) (dx / norm * m) = Rabs m).
  { unfold hypot.
    replace (- dy / norm * m * (- dy / norm * m) + dx / norm * m * (dx / norm * m))
      with ((dx * dx + dy * dy) * (/ norm * / norm) * (m * m))
      by (unfold Rdiv; ring).
    rewrite <- Hn2.
    replace (norm * norm * (/ norm * / norm) * (m * m)) with (Rsqr m)
      by (unfold Rsqr; field; lra).
    apply sqrt_Rsqr_abs. }
  rewrite Hm. unfold m. rewrite Rabs_mult.
  split; [reflexivity |].
  rewrite <- (Rmult_1_l (Rabs (squiggleAmp i * darkness))) at 2.
  apply Rmult_le_compat_r; [apply Rabs_pos |].
  apply Rabs_le. destruct (SIN_bound
    (INR k / n * hypot (x - sx) (y - sy) * (squiggleFreq i * TWO_PI))). lra.
Qed.

Lemma squiggle_within_amplitude_witness :
  hypot (fst (squigglePoint Runs.zigzag_base_inputs 1 78 78.6 78.5 78.6 1)
         - (78 + (78.5 - 78) / INR (numSegments (hypot (78.5 - 78) (78.6 - 78.6)))
                 * INR 1))
        (snd (squigglePoint Runs.zigzag_base_inputs 1 78 78.6 78.5 78.6 1)
         - (78.6 + (78.6 - 78.6) / INR (numSegments (hypot (78.5 - 78) (78.6 - 78.6)))
                   * INR 1))
  = Rabs (sin (INR 1 / INR (numSegments (hypot (78.5 - 78) (78.6 - 78.6)))
               * hypot (78.5 - 78) (78.6 - 78.6)
               * (squiggleFreq Runs.zigzag_base_inputs * TWO_PI)))
    * Rabs (squiggleAmp Runs.zigzag_base_inputs * 1) /\
  hypot (fst (squigglePoint Runs.zigzag_base_inputs 1 78 78.6 78.5 78.6 1)
         - (78 + (78.5 - 78) / INR (numSegments (hypot (78.5 - 78) (78.6 - 78.6)))
                 * INR 1))
        (snd (squigglePoint Runs.zigzag_base_inputs 1 78 78.6 78.5 78.6 1)
         - (78.6 + (78.6 - 78.6) / INR (numSegments (hypot (78.5 - 78) (78.6 - 78.6)))
                   * INR 1))
  <= Rabs (squiggleAmp Runs.zigzag_base_inputs * 1).
Proof.
  apply (squiggle_within_amplitude Runs.zigzag_base_inputs 1 78 78.6 78.5 78.6 1).
  replace (78.6 - 78.6) with 0 by lra.
  rewrite hypot_x0 by lra. lra.
Defined.

End LedgerFacts.

(** ** The path drivers, move by move *)

Section DriverFacts.
Import Core Trace Paths Ledger.
Local Open Scope R_scope.

Lemma Rltb_true_inv a b : Rltb a b = true -> a < b.
Proof. destruct (Rltb_spec a b); [trivial | discriminate]. Qed.

Lemma Rltb_false_inv a b : Rltb a b = false -> b <= a.
Proof. destruct (Rltb_spec a b); [discriminate | lra]. Qed.

Ltac peel tac := eapply appends_trans; [| tac].

Lemma seg_fraction k n : In k (seq 1 n) -> 0 <= INR k / INR n <= 1.
Proof.
  intros Hk. apply in_seq in Hk.
  assert (H1 : INR k <= INR n) by (apply le_INR; lia).
  assert (H0 : 0 < INR k) by (apply lt_0_INR; lia).
  apply div_unit; lra.
Qed.

Lemma segment_in_box lo hi a b t :
  lo <= a <= hi -> lo <= b <= hi -> 0 <= t <= 1 -> lo <= a + (b - a) * t <= hi.
Proof.
  intros Ha Hb Ht.
  replace (a + (b - a) * t) with ((1 - t) * a + t * b) by ring.
  assert (H1 : (1 - t) * lo <= (1 - t) * a <= (1 - t) * hi)
    by (split; apply Rmult_le_compat_l; lra).
  assert (H2 : t * lo <= t * b <= t * hi)
    by (split; apply Rmult_le_compat_l; lra).
  lra.
Qed.

Lemma printDim_le i : printDim i <= printWidth i /\ printDim i <= printHeight i.
Proof. unfold printDim, Rmin. destruct (Rle_dec _ _); lra. Qed.

Lemma printDim_pos i : valid i -> 1 <= printDim i.
Proof.
  intros H. unfold valid in H. unfold printDim, Rmin. destruct (Rle_dec _ _); lra.
Qed.

Lemma square_in_rect i x y : in_print_square i x y -> in_print_rect i x y.
Proof.
  unfold in_print_square, in_print_rect, centerOffset_x, centerOffset_y.
  pose proof (printDim_le i). lra.
Qed.

(** From here on one set of inputs, one clip margin, and a property [P] of
    instructions that every smart move to a point of [Q] keeps. *)
Variable i : Inputs.
Variable r : R.
Variable P : Instr -> Prop.
Variable Q : R -> R -> Prop.
Hypothesis move :
  forall x y c st, Q x y -> appends P st (doSmartMove i r x y c st).

Lemma for_each_appends {A : Type} (body : A -> State -> option State) (l : list A) :
  (forall a st, In a l -> exists st', body a st = Some st' /\ appends P st st') ->
  forall st, exists st', for_each l body st = Some st' /\ appends P st st'.
Proof.
  induction l as [| a l IH]; intros H st; cbn [for_each].
  - exists st. split; [reflexivity | apply appends_refl].
  - destruct (H a st (or_introl eq_refl)) as [st1 [E1 A1]]. rewrite E1.
    destruct (IH (fun b s Hb => H b s (or_intror Hb)) st1) as [st2 [E2 A2]].
    exists st2. split; [exact E2 | eapply appends_trans; eassumption].
Qed.

(** A subdivided straight line whose points are all in [Q]. *)
Lemma line_appends (sx sy ex ey : R) (n : nat) st :
  (forall t, 0 <= t <= 1 -> Q (sx + (ex - sx) * t) (sy + (ey - sy) * t)) ->
  appends P st
    (fold_left
       (fun st k =>
          let t := INR k / INR n in
          doSmartMove i r (sx + (ex - sx) * t) (sy + (ey - sy) * t) false st)
       (seq 1 n) st).
Proof.
  intros HQ. apply fold_appends. intros k st' Hk. cbv zeta.
  apply move, HQ. now apply seg_fraction.
Qed.

Lemma moveLine_appends sx sy ex ey len st :
  (forall t, 0 <= t <= 1 -> Q (sx + (ex - sx) * t) (sy + (ey - sy) * t)) ->
  appends P st (moveLine i r sx sy ex ey len st).
Proof. intros HQ. unfold moveLine. now apply line_appends. Qed.

(** *** Zigzag *)

Lemma zigzag_rows_fit row :
  0 < spacing i -> 0 <= printHeight i ->
  In row (seq 0 (Z.to_nat (Zfloor (printHeight i / spacing i)))) ->
  0 <= INR row * spacing i <= printHeight i - spacing i.
Proof.
  intros Hs Hh Hrow. apply in_seq in Hrow.
  assert (H0 : 0 <= INR row) by apply pos_INR.
  split; [apply Rmult_le_pos; lra |].
  assert (Hlt : (Z.of_nat row + 1 <= Zfloor (printHeight i / spacing i))%Z) by lia.
  pose proof (Zfloor_bound (printHeight i / spacing i)) as [Hf _].
  assert (H1 : INR row + 1 <= printHeight i / spacing i).
  { rewrite INR_IZR_INZ. apply IZR_le in Hlt. rewrite plus_IZR in Hlt. lra. }
  apply Rmult_le_compat_r with (r := spacing i) in H1; [| lra].
  unfold Rdiv in H1. rewrite Rmult_assoc, Rinv_l in H1 by lra. lra.
Qed.

Lemma zigzag_appends st :
  0 < spacing i -> 0 <= printWidth i -> 0 <= printHeight i ->
  (forall x y,
     offsetX i <= x <= offsetX i + printWidth i ->
     offsetY i <= y <= offsetY i + printHeight i - spacing i -> Q x y) ->
  appends P st (zigzag_path i r st).
Proof.
  intros Hs Hw Hh HQ. unfold zigzag_path. apply fold_appends.
  intros row st' Hrow. unfold zigzag_row.
  pose proof (zigzag_rows_fit row Hs Hh Hrow) as Hy.
  assert (HR : forall cx, 0 <= cx <= printWidth i ->
             Q (offsetX i + cx) (offsetY i + INR row * spacing i)).
  { intros cx Hcx. apply HQ; lra. }
  assert (Hends : 0 <= (if Nat.even row then 0 else printWidth i) <= printWidth i /\
                  0 <= (if Nat.even row then printWidth i else 0) <= printWidth i)
    by (destruct (Nat.even row); lra).
  cbv zeta.
  peel ltac:(apply fold_appends; intros k st2 Hk; apply move, HR;
             apply segment_in_box; [apply Hends | apply Hends | now apply seg_fraction]).
  destruct (0 <? row)%nat; [| apply appends_refl].
  apply move, HR. apply Hends.
Qed.

(** *** Diagonal *)

Lemma diagonal_span_box n sx sy ex ey :
  0 <= printWidth i -> 0 <= printHeight i ->
  diagonal_span i n = (sx, sy, ex, ey) ->
  0 <= sx <= printWidth i /\ 0 <= sy <= printHeight i /\
  0 <= ex <= printWidth i /\ 0 <= ey <= printHeight i.
Proof.
  intros Hw Hh. unfold diagonal_span, diagonal_ends.
  destruct (Nat.even n); intros E; injection E as <- <- <- <-;
    repeat split; apply clamp_range; assumption.
Qed.

Lemma diagonal_appends st :
  0 <= printWidth i -> 0 <= printHeight i ->
  (forall x y, in_print_rect i x y -> Q x y) ->
  appends P st (diagonal_path i r st).
Proof.
  intros Hw Hh HQ. unfold diagonal_path. apply fold_appends.
  intros n st' _. unfold diagonal_line.
  destruct (diagonal_span i n) as [[[sx sy] ex] ey] eqn:E.
  destruct (diagonal_span_box n sx sy ex ey Hw Hh E) as [Hsx [Hsy [Hex Hey]]].
  destruct (Rltb (hypot (ex - sx) (ey - sy)) 0.01); [apply appends_refl |].
  assert (HR : forall cx cy, 0 <= cx <= printWidth i -> 0 <= cy <= printHeight i ->
             Q (offsetX i + cx) (offsetY i + cy)).
  { intros cx cy Hcx Hcy. apply HQ. unfold in_print_rect. lra. }
  cbv zeta.
  eapply appends_trans; cycle 1.
  - apply fold_appends. intros k st2 Hk.
    pose proof (seg_fraction k _ Hk) as Ht.
    replace (offsetX i + sx + (ex - sx) * (INR k / INR (Z.to_nat (Z.max 2
               (Zfloor (hypot (ex - sx) (ey - sy) / 0.5))))))
      with (offsetX i + (sx + (ex - sx) * (INR k / INR (Z.to_nat (Z.max 2
               (Zfloor (hypot (ex - sx) (ey - sy) / 0.5))))))) by ring.
    replace (offsetY i + sy + (ey - sy) * (INR k / INR (Z.to_nat (Z.max 2
               (Zfloor (hypot (ex - sx) (ey - sy) / 0.5))))))
      with (offsetY i + (sy + (ey - sy) * (INR k / INR (Z.to_nat (Z.max 2
               (Zfloor (hypot (ex - sx) (ey - sy) / 0.5))))))) by ring.
    apply move, HR; apply segment_in_box; assumption.
  - destruct (n =? 0)%nat; apply move, HR; assumption.
Qed.

(** *** Hilbert *)

Lemma hilbert_cell_in_square d :
  (0 <= fractalOrder i <= 30)%Z -> 0 <= printDim i -> (0 <= d)%Z ->
  exists x y, hilbert_xy i d = Some (x, y) /\ in_print_square i x y.
Proof.
  intros Ho Hd Hd0.
  rewrite (hilbert_xy_curve i d Ho Hd0).
  do 2 eexists. split; [reflexivity |].
  pose proof (curve_range (Z.to_nat (fractalOrder i)) d) as [Hx Hy].
  rewrite Z2Nat.id in Hx, Hy by lia.
  pose proof (hilbert_N_pos i Ho) as HN.
  assert (Hstep : 0 <= hilbert_step i).
  { unfold hilbert_step. apply Rmult_le_pos; [exact Hd |].
    left. now apply Rinv_0_lt_compat. }
  assert (HND : IZR (hilbert_N i) * hilbert_step i = printDim i).
  { unfold hilbert_step. field. lra. }
  rewrite (hilbert_N_pow i Ho) in HND.
  assert (Hc : forall a : Z, (0 <= a < 2 ^ fractalOrder i)%Z ->
            0 <= IZR a * hilbert_step i <= printDim i).
  { intros a [Ha0 Ha1]. apply IZR_le in Ha0. apply IZR_lt in Ha1.
    split; [apply Rmult_le_pos; assumption |].
    rewrite <- HND. apply Rmult_le_compat_r; lra. }
  unfold in_print_square.
  pose proof (Hc _ Hx). pose proof (Hc _ Hy). lra.
Qed.

Lemma hilbert_appends st :
  (0 <= fractalOrder i <= 30)%Z -> 0 <= printDim i ->
  (forall x y, in_print_square i x y -> Q x y) ->
  exists st', hilbert_path i r st = Some st' /\ appends P st st'.
Proof.
  intros Ho Hd HQ. unfold hilbert_path. apply for_each_appends.
  intros d st0 Hin. apply in_map_iff in Hin. destruct Hin as [k [<- _]].
  destruct (hilbert_cell_in_square (Z.of_nat k) Ho Hd) as [x [y [E Hsq]]]; [lia |].
  rewrite E. eexists. split; [reflexivity |]. apply move, HQ, Hsq.
Qed.

(** *** Square spiral *)

Lemma squareSpiral_lap_appends size ox oy st :
  0 <= spacing i -> spacing i * 1.5 < size -> nested i size ox oy ->
  (forall x y, in_print_square i x y -> Q x y) ->
  appends P st (squareSpiral_lap i r size ox oy st).
Proof.
  intros Hs Hsize [Hx0 [Hx1 [Hy0 Hy1]]] HQ. unfold squareSpiral_lap.
  assert (HB : forall x y, ox <= x <= ox + size -> oy <= y <= oy + size -> Q x y).
  { intros x y Hx Hy. apply HQ. unfold in_print_square. lra. }
  assert (Hside : forall a b c d t,
            ox <= a <= ox + size -> ox <= b <= ox + size ->
            oy <= c <= oy + size -> oy <= d <= oy + size ->
            0 <= t <= 1 -> Q (a + (b - a) * t) (c + (d - c) * t)).
  { intros a b c d t Ha Hb Hc Hd Ht. apply HB; apply segment_in_box; assumption. }
  cbv zeta.
  peel ltac:(apply move, HB; lra).
  do 3 peel ltac:(apply moveLine_appends; intros t Ht; apply Hside; (lra || assumption)).
  apply moveLine_appends; intros t Ht; apply Hside; (lra || assumption).
Qed.

Lemma squareSpiral_loop_appends :
  0 <= spacing i ->
  (forall x y, in_print_square i x y -> Q x y) ->
  forall (fuel : nat) (size ox oy : R) (n : Z) (st : State) res,
    nested i size ox oy ->
    squareSpiral_loop fuel i r size ox oy n st = Some res ->
    let '(size', ox', oy', _, st') := res in
    appends P st st' /\ nested i size' ox' oy'.
Proof.
  intros Hs HQ. induction fuel as [| fuel IH]; intros size ox oy n st res Hn;
    cbn [squareSpiral_loop].
  - destruct (Rltb (spacing i * 1.5) size && (n <? MAX_LOOP_ITERATIONS)%Z);
      [discriminate |].
    intros E. injection E as <-. split; [apply appends_refl | exact Hn].
  - destruct (Rltb (spacing i * 1.5) size) eqn:Hc; cbn [andb].
    + apply Rltb_true_inv in Hc.
      destruct (n <? MAX_LOOP_ITERATIONS)%Z.
      * intros E. apply IH in E.
        -- destruct res as [[[[size' ox'] oy'] n'] st'].
           destruct E as [Ha Hn']. split; [| exact Hn'].
           eapply appends_trans; [| exact Ha].
           now apply squareSpiral_lap_appends.
        -- destruct Hn as [Hx0 [Hx1 [Hy0 Hy1]]]. unfold nested. lra.
      * intros E. injection E as <-. split; [apply appends_refl | exact Hn].
    + intros E. injection E as <-. split; [apply appends_refl | exact Hn].
Qed.

(** The numbers of the loop: it ends, by the size or by the cap; each pass
    takes [2 * spacing] off the size and moves the corner by [spacing]. *)
Lemma squareSpiral_loop_result :
  forall (fuel : nat) (size ox oy : R) (n : Z) (st : State),
    (0 <= n <= MAX_LOOP_ITERATIONS)%Z ->
    (MAX_LOOP_ITERATIONS - n <= Z.of_nat fuel)%Z ->
    exists size' ox' oy' n' st',
      squareSpiral_loop fuel i r size ox oy n st = Some (size', ox', oy', n', st') /\
      (n <= n' <= MAX_LOOP_ITERATIONS)%Z /\
      size' = size - IZR (n' - n) * (spacing i * 2) /\
      ox' = ox + IZR (n' - n) * spacing i /\
      oy' = oy + IZR (n' - n) * spacing i /\
      ((n' < MAX_LOOP_ITERATIONS)%Z -> size' <= spacing i * 1.5) /\
      ((n < n')%Z -> spacing i * 1.5 < size' + spacing i * 2).
Proof.
  induction fuel as [| fuel IH]; intros size ox oy n st Hn Hf;
    cbn [squareSpiral_loop].
  - assert (n = MAX_LOOP_ITERATIONS) by lia. subst n.
    rewrite Z.ltb_irrefl, andb_false_r.
    exists size, ox, oy, MAX_LOOP_ITERATIONS, st.
    rewrite Z.sub_diag. cbn [IZR]. repeat split; try lra; lia.
  - destruct (Rltb_spec (spacing i * 1.5) size) as [Hlt | Hge]; cbn [andb].
    + destruct (Z.ltb_spec n MAX_LOOP_ITERATIONS) as [Hcap | Hcap].
      * destruct (IH (size - spacing i * 2) (ox + spacing i) (oy + spacing i) (n + 1)%Z
                     (squareSpiral_lap i r size ox oy st))
          as [size' [ox' [oy' [n' [st' [E [Hn' [Es [Ex [Ey [Hend Hprev]]]]]]]]]]];
          [lia | lia |].
        exists size', ox', oy', n', st'. split; [exact E |].
        assert (Hz : IZR (n' - n) = IZR (n' - (n + 1)) + 1).
        { rewrite <- plus_IZR. f_equal. lia. }
        split; [lia |]. rewrite Hz.
        split; [lra |]. split; [lra |]. split; [lra |]. split; [exact Hend |].
        intros _. destruct (Z.eq_dec n' (n + 1)) as [-> | Hne].
        -- replace (n + 1 - (n + 1))%Z with 0%Z in Es by lia. cbn [IZR] in Es. lra.
        -- apply Hprev. lia.
      * exists size, ox, oy, n, st.
        rewrite Z.sub_diag. cbn [IZR]. repeat split; try lra; lia.
    + exists size, ox, oy, n, st.
      rewrite Z.sub_diag. cbn [IZR]. repeat split; try lra; lia.
Qed.

Lemma nested_start : 0 <= printDim i ->
  nested i (printDim i) (centerOffset_x i) (centerOffset_y i).
Proof. intros H. unfold nested. lra. Qed.

Lemma squareSpiral_appends st :
  0 <= spacing i -> 0 <= printDim i ->
  (forall x y, in_print_square i x y -> Q x y) ->
  exists size n st',
    squareSpiral_path i r st = Some (size, n, st') /\ appends P st st'.
Proof.
  intros Hs Hd HQ. unfold squareSpiral_path.
  destruct (squareSpiral_loop_result (Z.to_nat MAX_LOOP_ITERATIONS)
              (printDim i) (centerOffset_x i) (centerOffset_y i) 0 st)
    as [size' [ox' [oy' [n' [st' [E _]]]]]];
    [unfold MAX_LOOP_ITERATIONS; lia | unfold MAX_LOOP_ITERATIONS; lia |].
  rewrite E.
  pose proof (squareSpiral_loop_appends Hs HQ _ _ _ _ _ _ _ (nested_start Hd) E) as H.
  cbn beta iota in H. destruct H as [Ha [Hx0 [Hx1 [Hy0 Hy1]]]].
  do 3 eexists. split; [reflexivity |].
  eapply appends_trans; [exact Ha |].
  unfold squareSpiral_close.
  destruct (Rltb_spec 0 size') as [Hp | Hn]; [| apply appends_refl].
  apply move, HQ. unfold in_print_square. lra.
Qed.

(** *** Archimedean spiral *)

Lemma hypot_polar rad a : 0 <= rad -> hypot (rad * cos a) (rad * sin a) = rad.
Proof.
  intros H. unfold hypot.
  replace (rad * cos a * (rad * cos a) + rad * sin a * (rad * sin a))
    with (Rsqr rad * (Rsqr (sin a) + Rsqr (cos a))) by (unfold Rsqr; ring).
  rewrite sin2_cos2, Rmult_1_r. now apply sqrt_Rsqr.
Qed.

Lemma spiral_loop_appends maxRadius cx cy :
  0 <= spacing i ->
  (forall x y, hypot (x - cx) (y - cy) <= maxRadius -> Q x y) ->
  forall (fuel : nat) (radius angle : R) (n : Z) (st : State) res,
    0 <= angle ->
    spiral_loop fuel i r maxRadius cx cy radius angle n st = Some res ->
    let '(_, _, _, st') := res in appends P st st'.
Proof.
  intros Hs HQ. induction fuel as [| fuel IH]; intros radius angle n st res Ha;
    cbn [spiral_loop].
  - destruct (Rltb radius maxRadius && (n <? MAX_LOOP_ITERATIONS)%Z); [discriminate |].
    intros E. injection E as <-. apply appends_refl.
  - destruct (Rltb radius maxRadius && (n <? MAX_LOOP_ITERATIONS)%Z).
    + cbv zeta.
      assert (Hg : 0 < 0.5 / Rmax 0.5 radius).
      { unfold Rdiv. apply Rmult_lt_0_compat; [lra |]. apply Rinv_0_lt_compat.
        unfold Rmax. destruct (Rle_dec 0.5 radius); lra. }
      set (angle' := angle + 0.5 / Rmax 0.5 radius).
      assert (Ha' : 0 <= angle') by (unfold angle'; lra).
      assert (Hr' : 0 <= spacing i / TWO_PI * angle').
      { apply Rmult_le_pos; [| exact Ha']. unfold Rdiv, TWO_PI.
        apply Rmult_le_pos; [exact Hs |]. left. apply Rinv_0_lt_compat.
        pose proof PI_RGT_0. lra. }
      destruct (Rltb maxRadius (spacing i / TWO_PI * angle')) eqn:Hout.
      * intros E. injection E as <-. apply appends_refl.
      * apply Rltb_false_inv in Hout.
        intros E. apply IH in E; [| exact Ha'].
        destruct res as [[[r' a'] n'] st'].
        eapply appends_trans; [| exact E].
        apply move, HQ.
        replace (cx + spacing i / TWO_PI * angle' * cos angle' - cx)
          with (spacing i / TWO_PI * angle' * cos angle') by ring.
        replace (cy + spacing i / TWO_PI * angle' * sin angle' - cy)
          with (spacing i / TWO_PI * angle' * sin angle') by ring.
        rewrite hypot_polar by exact Hr'. exact Hout.
    + intros E. injection E as <-. apply appends_refl.
Qed.

Lemma spiral_appends st :
  0 <= spacing i ->
  (forall x y, hypot (x - centerX i) (y - centerY i) <= spiral_maxRadius i r -> Q x y) ->
  exists rad a n st',
    spiral_path i r st = Some (rad, a, n, st') /\ appends P st st'.
Proof.
  intros Hs HQ. unfold spiral_path. unfold centerX, centerY in HQ.
  destruct (spiral_loop_result i r (spiral_maxRadius i r)
              (offsetX i + printWidth i / 2) (offsetY i + printHeight i / 2)
              (Z.to_nat MAX_LOOP_ITERATIONS) 0 0 0 st)
    as [rad [a [n [st' [E _]]]]];
    [unfold MAX_LOOP_ITERATIONS; lia | unfold MAX_LOOP_ITERATIONS; lia |].
  exists rad, a, n, st'. split; [exact E |].
  apply (spiral_loop_appends (spiral_maxRadius i r)
           (offsetX i + printWidth i / 2) (offsetY i + printHeight i / 2)
           Hs HQ _ _ _ _ _ _ (Rle_refl 0) E).
Qed.

End DriverFacts.

Section ArtworkFacts.
Import Core Trace Paths Ledger.
Local Open Scope string_scope.
Local Open Scope R_scope.

(** The artwork phase ends, and keeps every property of instructions that a
    smart move to a point of the region of the path keeps. *)
Lemma artwork_appends (i : Inputs) (r : R) (P : Instr -> Prop) (st : State) :
  valid i ->
  (forall x y c st, path_region i r x y -> appends P st (doSmartMove i r x y c st)) ->
  exists st', artwork_path i r st = Some st' /\ appends P st st'.
Proof.
  intros Hv move.
  pose proof (printDim_pos i Hv) as Hd.
  assert (Hs : 0 < spacing i) by (unfold valid in Hv; lra).
  assert (Hw : 0 <= printWidth i) by (unfold valid in Hv; lra).
  assert (Hh : 0 <= printHeight i) by (unfold valid in Hv; lra).
  assert (Ho : (0 <= fractalOrder i <= 30)%Z) by (unfold valid in Hv; lia).
  unfold artwork_path. unfold path_region in move.
  unfold is_path in *.
  assert (Hne : forall a b : string,
            String.eqb (pathType i) a = true -> String.eqb a b = false ->
            String.eqb (pathType i) b = false).
  { intros a b Ea Eab. apply String.eqb_eq in Ea. now rewrite Ea. }
  destruct (String.eqb (pathType i) "hilbert") eqn:E1.
  { rewrite (Hne _ "spiral" E1 eq_refl), orb_true_r in move.
    apply (hilbert_appends i r P _ move st Ho); [lra | auto]. }
  destruct (String.eqb (pathType i) "squareSpiral") eqn:E2.
  { rewrite (Hne _ "spiral" E2 eq_refl) in move. cbn [orb] in move.
    destruct (squareSpiral_appends i r P _ move st) as [size [n [st' [E' A]]]];
      [lra | lra | auto |].
    rewrite E'. exists st'. split; [reflexivity | exact A]. }
  cbn [orb] in move.
  destruct (String.eqb (pathType i) "diagonal") eqn:E3.
  { rewrite (Hne _ "spiral" E3 eq_refl) in move.
    eexists. split; [reflexivity |].
    apply (diagonal_appends i r P _ move); auto. }
  destruct (String.eqb (pathType i) "spiral") eqn:E4.
  { destruct (spiral_appends i r P _ move st) as [rad [a [n [st' [E' A]]]]];
      [lra | auto |].
    rewrite E'. exists st'. split; [reflexivity | exact A]. }
  eexists. split; [reflexivity |].
  apply (zigzag_appends i r P _ move); auto.
  intros x y Hx Hy. unfold in_print_rect. lra.
Qed.

End ArtworkFacts.

(** ** The whole artwork phase *)

Section ArtworkRuns.
Import Core Trace Paths Ledger.
Local Open Scope string_scope.
Local Open Scope R_scope.

Lemma gradient_inputs_valid : valid Runs.gradient_inputs.
Proof. unfold valid. simpl. repeat split; try lra; lia. Qed.

Lemma gradient_pixels_bytes : bytes (pixels Runs.gradient_inputs).
Proof. simpl. unfold Runs.gradient_pixels. repeat constructor; lia. Qed.

Lemma black_pixels_bytes : bytes Runs.black_pixels.
Proof. unfold Runs.black_pixels. repeat constructor; lia. Qed.

Lemma squareSpiral_inputs_valid : valid Samples.squareSpiral_inputs.
Proof. unfold valid. simpl. repeat split; try lra; lia. Qed.



Lemma hypot_abs_l a b : Rabs a <= hypot a b.
Proof.
  unfold hypot. rewrite <- sqrt_Rsqr_abs. apply sqrt_le_1_alt.
  unfold Rsqr. pose proof (Rle_0_sqr b) as H. unfold Rsqr in H. lra.
Qed.

Lemma hypot_abs_r a b : Rabs b <= hypot a b.
Proof.
  unfold hypot. rewrite <- sqrt_Rsqr_abs. apply sqrt_le_1_alt.
  unfold Rsqr. pose proof (Rle_0_sqr a) as H. unfold Rsqr in H. lra.
Qed.

Lemma abs_bound a h : Rabs a <= h -> - h <= a <= h.
Proof. unfold Rabs. destruct (Rcase_abs a); lra. Qed.

Lemma spiral_maxRadius_le i r :
  0 <= r -> spiral_maxRadius i r <= printDim i / 2.
Proof.
  intros Hr. unfold spiral_maxRadius, baseRadius.
  destruct (addCircularBase i); lra.
Qed.

Lemma region_in_rect i r x y :
  0 <= r -> path_region i r x y -> in_print_rect i x y.
Proof.
  intros Hr. unfold path_region.
  destruct (is_path i "spiral").
  - intros H. pose proof (spiral_maxRadius_le i r Hr) as Hm.
    pose proof (hypot_abs_l (x - centerX i) (y - centerY i)) as Hx.
    pose proof (hypot_abs_r (x - centerX i) (y - centerY i)) as Hy.
    pose proof (printDim_le i) as [Hw Hh].
    unfold in_print_rect. unfold centerX, centerY in *.
    apply abs_bound in Hx. apply abs_bound in Hy. lra.
  - destruct (is_path i "squareSpiral" || is_path i "hilbert").
    + apply square_in_rect.
    + trivial.
Qed.

(** X19.  Without the squiggle no move leaves the print area.  For inputs
    that pass the checks of the form, a clip margin of at least 0 and the
    squiggle off (amplitude at most 0.01, or text mode on), whatever the
    path type and the image, every move that the artwork phase appends,
    rapid or printing, ends inside the print rectangle. *)
Theorem artwork_stays_in_print_area (i : Inputs) (innerRadius : R) (st : State) :
  valid i -> 0 <= innerRadius ->
  useSquiggle i = false \/ textMode i = true ->
  exists st',
    artwork_path i innerRadius st = Some st' /\
    appends (lands (in_print_rect i)) st st'.
Proof.
  intros Hv Hr Hsq. apply artwork_appends; [exact Hv |].
  intros x y c st0 Hreg.
  destruct (doSmartMove_plain i innerRadius x y c st0) as [A _]; [tauto |].
  eapply appends_weaken; [| exact A].
  intros ins E. unfold lands. rewrite E.
  now apply (region_in_rect i innerRadius).
Qed.

Lemma thin_inputs_valid : valid Runs.thin_inputs.
Proof. unfold valid. simpl. repeat split; try lra; lia. Qed.

Lemma artwork_stays_in_print_area_witness :
  exists st',
    artwork_path Runs.thin_inputs 0 Runs.start_state = Some st' /\
    appends (lands (in_print_rect Runs.thin_inputs)) Runs.start_state st'.
Proof.
  apply artwork_stays_in_print_area.
  - exact thin_inputs_valid.
  - lra.
  - left. unfold useSquiggle. simpl. apply Rltb_false. lra.
Defined.

Lemma doSmartMove_prints_clipped i r x y c st :
  addCircularBase i = true ->
  useSquiggle i = false \/ textMode i = true ->
  appends (prints_clipped i r) st (doSmartMove i r x y c st).
Proof.
  intros Hb Hsq.
  destruct (isInsideBaseClip i r x y) eqn:Hclip.
  - destruct (doSmartMove_plain i r x y c st) as [A _]; [tauto |].
    eapply appends_weaken; [| exact A].
    intros ins E. destruct ins; cbn in *; try exact I.
    injection E as -> ->. exact Hclip.
  - rewrite doSmartMove_outside by assumption.
    apply appends_one; [exact I | cbn; ring].
Qed.

(** X20.  Without the squiggle the clip holds for the whole artwork.  For
    inputs that pass the checks of the form, with the base enabled and the
    squiggle off (amplitude at most 0.01, or text mode on), whatever the
    path type and the clip margin, every printing move that the artwork
    phase appends ends at a point that passes the clip test; points that
    fail it are reached by rapid moves. *)
Theorem artwork_prints_inside_clip (i : Inputs) (innerRadius : R) (st : State) :
  valid i -> addCircularBase i = true ->
  useSquiggle i = false \/ textMode i = true ->
  exists st',
    artwork_path i innerRadius st = Some st' /\
    appends (prints_clipped i innerRadius) st st'.
Proof.
  intros Hv Hb Hsq. apply artwork_appends; [exact Hv |].
  intros x y c st0 _. now apply doSmartMove_prints_clipped.
Qed.

Lemma artwork_prints_inside_clip_witness :
  exists st',
    artwork_path Samples.small_base_inputs (2 + 3 * 0.42) Runs.start_state = Some st' /\
    appends (prints_clipped Samples.small_base_inputs (2 + 3 * 0.42))
            Runs.start_state st'.
Proof.
  apply artwork_prints_inside_clip.
  - unfold valid. simpl. repeat split; try lra; lia.
  - reflexivity.
  - left. unfold useSquiggle. simpl. apply Rltb_false. lra.
Defined.

(** X21.  The print area lies on the bed.  With the bed and print
    dimensions read by [safeParseFloat] as [processImageCore] reads them,
    the print rectangle lies within the bed, for a corner origin and for a
    centre origin, provided each print dimension either parses to a finite
    number or, being replaced by the default 100, does not exceed the bed
    (the default is returned without being clamped). *)
Theorem print_area_on_bed (i : Inputs) (bw bh pw ph : option R) :
  bedWidth i = Form.read_bed bw -> bedHeight i = Form.read_bed bh ->
  printWidth i = Form.read_print pw (bedWidth i) ->
  printHeight i = Form.read_print ph (bedHeight i) ->
  pw <> None \/ 100 <= bedWidth i -> ph <> None \/ 100 <= bedHeight i ->
  let lowX := if originAtCenter i then - bedWidth i / 2 else 0 in
  let lowY := if originAtCenter i then - bedHeight i / 2 else 0 in
  1 <= printWidth i <= bedWidth i /\ 1 <= printHeight i <= bedHeight i /\
  lowX <= offsetX i /\ offsetX i + printWidth i <= lowX + bedWidth i /\
  lowY <= offsetY i /\ offsetY i + printHeight i <= lowY + bedHeight i.
Proof.
  intros Ebw Ebh Epw Eph Hpw Hph lowX lowY.
  assert (Hbed : forall v, 50 <= Form.read_bed v <= 1000).
  { intros [p |]; unfold Form.read_bed, Form.safeParseFloat;
      [apply clamp_range; lra | lra]. }
  assert (Hprint : forall v bed, 50 <= bed -> v <> None \/ 100 <= bed ->
            1 <= Form.read_print v bed <= bed).
  { intros [p |] bed Hb Hv; unfold Form.read_print, Form.safeParseFloat.
    - apply clamp_range. lra.
    - destruct Hv as [Hv | Hv]; [contradiction | lra]. }
  pose proof (Hbed bw) as Hw. rewrite <- Ebw in Hw.
  pose proof (Hbed bh) as Hh. rewrite <- Ebh in Hh.
  pose proof (Hprint pw (bedWidth i) (proj1 Hw) Hpw) as Hpw'. rewrite <- Epw in Hpw'.
  pose proof (Hprint ph (bedHeight i) (proj1 Hh) Hph) as Hph'. rewrite <- Eph in Hph'.
  subst lowX lowY. unfold offsetX, offsetY.
  destruct (originAtCenter i); repeat split; lra.
Qed.

Lemma print_area_on_bed_witness :
  1 <= printWidth Runs.thin_inputs <= bedWidth Runs.thin_inputs /\
  0 <= offsetX Runs.thin_inputs /\
  offsetX Runs.thin_inputs + printWidth Runs.thin_inputs
    <= 0 + bedWidth Runs.thin_inputs.
Proof.
  destruct (print_area_on_bed Runs.thin_inputs None None (Some 100) (Some 100))
    as [H1 [_ [H2 [H3 _]]]].
  - reflexivity.
  - reflexivity.
  - simpl. unfold Form.read_print, Form.safeParseFloat.
    rewrite clamp_id by lra. reflexivity.
  - simpl. unfold Form.read_print, Form.safeParseFloat.
    rewrite clamp_id by lra. reflexivity.
  - left. discriminate.
  - left. discriminate.
  - simpl in *. repeat split; lra.
Defined.

(** X22.  The zigzag stops one line short of the top.  For a positive line
    spacing and the squiggle off, every move of the zigzag path ends in the
    print rectangle at a height of at most [printHeight - spacing] above its
    lower edge: the rows run from the lower edge upwards, and the strip of
    one line spacing under the upper edge is never drawn. *)
Theorem zigzag_leaves_top_strip (i : Inputs) (innerRadius : R) (st : State) :
  0 < spacing i -> 0 <= printWidth i -> 0 <= printHeight i ->
  useSquiggle i = false \/ textMode i = true ->
  appends
    (lands (fun x y =>
              offsetX i <= x <= offsetX i + printWidth i /\
              offsetY i <= y <= offsetY i + printHeight i - spacing i))
    st (zigzag_path i innerRadius st).
Proof.
  intros Hs Hw Hh Hsq.
  apply (zigzag_appends i innerRadius _
           (fun x y =>
              offsetX i <= x <= offsetX i + printWidth i /\
              offsetY i <= y <= offsetY i + printHeight i - spacing i));
    try assumption.
  - intros x y c st0 HQ.
    destruct (doSmartMove_plain i innerRadius x y c st0) as [A _]; [tauto |].
    eapply appends_weaken; [| exact A].
    intros ins E. unfold lands. rewrite E. exact HQ.
  - intros x y Hx Hy. split; assumption.
Qed.

Lemma zigzag_leaves_top_strip_witness :
  appends
    (lands (fun x y =>
              offsetX Runs.thin_inputs <= x
                <= offsetX Runs.thin_inputs + printWidth Runs.thin_inputs /\
              offsetY Runs.thin_inputs <= y
                <= offsetY Runs.thin_inputs + printHeight Runs.thin_inputs
                   - spacing Runs.thin_inputs))
    Runs.start_state (zigzag_path Runs.thin_inputs 0 Runs.start_state).
Proof.
  apply zigzag_leaves_top_strip.
  - simpl. lra.
  - simpl. lra.
  - simpl. lra.
  - left. unfold useSquiggle. simpl. apply Rltb_false. lra.
Defined.

Lemma extruded_travel l : Forall is_travel l -> extruded l = 0.
Proof.
  induction 1 as [| ins l Hi _ IH]; [reflexivity |].
  destruct ins; cbn in Hi; try contradiction. cbn. exact IH.
Qed.

Lemma empty_clip_outside i r x y :
  addCircularBase i = true -> printDim i < 2 * r ->
  path_region i r x y -> isInsideBaseClip i r x y = false.
Proof.
  intros Hb Hd. unfold path_region, isInsideBaseClip.
  destruct (is_path i "spiral").
  - intros H. exfalso.
    pose proof (hypot_nonneg (x - centerX i) (y - centerY i)) as H0.
    unfold spiral_maxRadius, baseRadius in H. rewrite Hb in H. lra.
  - destruct (is_path i "squareSpiral" || is_path i "hilbert"); intros _.
    + destruct (Rleb_spec (centerOffset_x i + r) x) as [H1 | H1]; [| reflexivity].
      destruct (Rleb_spec x (centerOffset_x i + printDim i - r)) as [H2 | H2];
        [| reflexivity].
      exfalso. lra.
    + pose proof (printDim_le i) as [Hw Hh].
      unfold printDim, Rmin in Hd.
      destruct (Rle_dec (printWidth i) (printHeight i)) as [Hle | Hgt].
      * destruct (Rleb_spec (offsetX i + r) x) as [H1 | H1]; [| reflexivity].
        destruct (Rleb_spec x (offsetX i + printWidth i - r)) as [H2 | H2];
          [| reflexivity].
        exfalso. lra.
      * destruct (Rleb_spec (offsetY i + r) y) as [H1 | H1];
          [| now rewrite andb_false_r].
        destruct (Rleb_spec y (offsetY i + printHeight i - r)) as [H2 | H2];
          [| now rewrite andb_false_r].
        exfalso. lra.
Qed.

(** X23.  A clip margin of more than half the print leaves no artwork.  With
    the base enabled and a clip margin above half of the smaller print
    dimension, whatever the path type, the artwork phase appends rapid
    moves only and extrudes nothing: [totalE] is what it was. *)
Theorem artwork_empty_when_clip_is_empty (i : Inputs) (innerRadius : R) (st : State) :
  valid i -> addCircularBase i = true -> printDim i < 2 * innerRadius ->
  exists st',
    artwork_path i innerRadius st = Some st' /\
    appends is_travel st st' /\ totalE st' = totalE st.
Proof.
  intros Hv Hb Hd.
  destruct (artwork_appends i innerRadius is_travel st Hv) as [st' [E A]].
  - intros x y c st0 Hreg.
    rewrite doSmartMove_outside;
      [| exact Hb | now apply empty_clip_outside].
    apply appends_one; [exact I | cbn; ring].
  - exists st'. split; [exact E |]. split; [exact A |].
    destruct A as [new [_ [F T]]]. rewrite T, (extruded_travel new F). ring.
Qed.

Lemma small_inputs_valid : valid Samples.small_base_inputs.
Proof. unfold valid. simpl. repeat split; try lra; lia. Qed.

Lemma artwork_empty_when_clip_is_empty_witness :
  exists st',
    artwork_path Samples.small_base_inputs (2 + 3 * 0.42) Runs.start_state = Some st' /\
    appends is_travel Runs.start_state st' /\ totalE st' = totalE Runs.start_state.
Proof.
  apply artwork_empty_when_clip_is_empty.
  - exact small_inputs_valid.
  - reflexivity.
  - unfold printDim. simpl. unfold Rmin. destruct (Rle_dec 6 6); lra.
Defined.

(** X24.  The square spiral never reaches its iteration cap.  For a line
    spacing of at least 0.1 and a print square of at most 1000 mm (the
    limits of the form), with the squiggle off (amplitude at most 0.01, or
    text mode on), the loop ends because the remaining size has dropped to
    [1.5 * spacing] or below, after [n] passes that each take [2 * spacing]
    off the size; the warning is never logged.  The closing move is made
    from the state [st0] that the loop leaves, when the remaining size is
    positive: what it appends ends at the centre of the print area, which
    becomes the previous position.  When the remaining size is 0 or less
    there is no closing move. *)
Theorem squareSpiral_ends_before_cap (i : Inputs) (innerRadius : R) (st : State) :
  0.1 <= spacing i -> printDim i <= 1000 ->
  useSquiggle i = false \/ textMode i = true ->
  exists size ox oy n st0,
    squareSpiral_loop (Z.to_nat MAX_LOOP_ITERATIONS) i innerRadius
      (printDim i) (centerOffset_x i) (centerOffset_y i) 0 st
      = Some (size, ox, oy, n, st0) /\
    squareSpiral_path i innerRadius st
      = Some (size, n, squareSpiral_close i innerRadius size ox oy st0) /\
    squareSpiral_hit_cap n = false /\
    size = printDim i - IZR n * (spacing i * 2) /\
    size <= spacing i * 1.5 /\
    ((0 < n)%Z -> - (spacing i * 0.5) < size) /\
    (0 < size ->
     appends (fun ins => endpoint ins = Some (centerX i, centerY i))
             st0 (squareSpiral_close i innerRadius size ox oy st0) /\
     prevX (squareSpiral_close i innerRadius size ox oy st0) = centerX i /\
     prevY (squareSpiral_close i innerRadius size ox oy st0) = centerY i) /\
    (size <= 0 -> squareSpiral_close i innerRadius size ox oy st0 = st0).
Proof.
  intros Hs Hd Hsq.
  destruct (squareSpiral_loop_result i innerRadius (Z.to_nat MAX_LOOP_ITERATIONS)
              (printDim i) (centerOffset_x i) (centerOffset_y i) 0 st)
    as [size [ox [oy [n [st0 [E [Hn [Es [Ex [Ey [Hend Hprev]]]]]]]]]]];
    [unfold MAX_LOOP_ITERATIONS; lia | unfold MAX_LOOP_ITERATIONS; lia |].
  rewrite Z.sub_0_r in Es, Ex, Ey.
  assert (Hcap : (n < MAX_LOOP_ITERATIONS)%Z).
  { destruct (Z_lt_le_dec n MAX_LOOP_ITERATIONS) as [Hlt | Hge]; [exact Hlt |].
    exfalso.
    assert (Hn' : n = MAX_LOOP_ITERATIONS) by lia.
    assert (Hp : spacing i * 1.5 < size + spacing i * 2)
      by (apply Hprev; unfold MAX_LOOP_ITERATIONS in *; lia).
    rewrite Hn' in Es. unfold MAX_LOOP_ITERATIONS in Es.
    assert (H2 : 100000 * (spacing i * 2) >= 100000 * (0.1 * 2)) by lra.
    lra. }
  exists size, ox, oy, n, st0.
  split; [exact E |].
  split; [unfold squareSpiral_path; rewrite E; reflexivity |].
  split; [unfold squareSpiral_hit_cap; apply Z.leb_gt; exact Hcap |].
  split; [exact Es |]. split; [apply Hend; exact Hcap |].
  split; [intros Hpos; pose proof (Hprev Hpos); lra |].
  split.
  - intros Hpos. unfold squareSpiral_close. rewrite (Rltb_true _ _ Hpos).
    replace (ox + size / 2) with (centerX i)
      by (unfold centerX, centerOffset_x in *; lra).
    replace (oy + size / 2) with (centerY i)
      by (unfold centerY, centerOffset_y in *; lra).
    apply doSmartMove_plain. right. exact Hsq.
  - intros Hle. unfold squareSpiral_close. rewrite (Rltb_false _ _ Hle). reflexivity.
Qed.

Lemma squareSpiral_ends_before_cap_witness :
  exists size ox oy n st0,
    squareSpiral_loop (Z.to_nat MAX_LOOP_ITERATIONS) Samples.squareSpiral_inputs 0
      (printDim Samples.squareSpiral_inputs)
      (centerOffset_x Samples.squareSpiral_inputs)
      (centerOffset_y Samples.squareSpiral_inputs) 0 Runs.start_state
      = Some (size, ox, oy, n, st0) /\
    squareSpiral_path Samples.squareSpiral_inputs 0 Runs.start_state
      = Some (size, n, squareSpiral_close Samples.squareSpiral_inputs 0 size ox oy st0) /\
    squareSpiral_hit_cap n = false /\
    size = printDim Samples.squareSpiral_inputs
           - IZR n * (spacing Samples.squareSpiral_inputs * 2) /\
    size <= spacing Samples.squareSpiral_inputs * 1.5 /\
    ((0 < n)%Z -> - (spacing Samples.squareSpiral_inputs * 0.5) < size) /\
    (0 < size ->
     appends (fun ins => endpoint ins = Some (centerX Samples.squareSpiral_inputs,
                                              centerY Samples.squareSpiral_inputs))
             st0 (squareSpiral_close Samples.squareSpiral_inputs 0 size ox oy st0) /\
     prevX (squareSpiral_close Samples.squareSpiral_inputs 0 size ox oy st0)
       = centerX Samples.squareSpiral_inputs /\
     prevY (squareSpiral_close Samples.squareSpiral_inputs 0 size ox oy st0)
       = centerY Samples.squareSpiral_inputs) /\
    (size <= 0 ->
     squareSpiral_close Samples.squareSpiral_inputs 0 size ox oy st0 = st0).
Proof.
  apply squareSpiral_ends_before_cap.
  - simpl. lra.
  - unfold printDim. simpl. unfold Rmin. destruct (Rle_dec 100 100); lra.
  - left. unfold useSquiggle. simpl. apply Rltb_false. lra.
Defined.

Lemma axisStep_pos i : 0 < spacing i -> 0 < axisStep i.
Proof.
  intros H. unfold axisStep. apply Rmult_lt_0_compat; [exact H | apply Rlt_sqrt2_0].
Qed.

Lemma diagonal_ends_on_line i n :
  0 <= printWidth i -> 0 <= printHeight i ->
  0 <= INR n * axisStep i <= printWidth i + printHeight i ->
  let '(p1x, p1y, p2x, p2y) := diagonal_ends i n in
  p1x + p1y = INR n * axisStep i /\ p2x + p2y = INR n * axisStep i.
Proof.
  intros Hw Hh Hsum. unfold diagonal_ends. cbv zeta.
  set (sum := INR n * axisStep i) in *.
  split.
  - destruct (Rleb_spec sum (printHeight i)) as [Hle | Hgt].
    + rewrite (clamp_id 0 (printHeight i) sum) by lra.
      rewrite (clamp_id 0 (printWidth i) 0) by lra. ring.
    + rewrite (clamp_id 0 (printHeight i) (printHeight i)) by lra.
      rewrite (clamp_id 0 (printWidth i) (sum - printHeight i)) by lra. ring.
  - destruct (Rleb_spec sum (printWidth i)) as [Hle | Hgt].
    + rewrite (clamp_id 0 (printWidth i) sum) by lra.
      rewrite (clamp_id 0 (printHeight i) 0) by lra. ring.
    + rewrite (clamp_id 0 (printWidth i) (printWidth i)) by lra.
      rewrite (clamp_id 0 (printHeight i) (sum - printWidth i)) by lra. ring.
Qed.

Lemma diagonal_index_fits i n :
  0 < spacing i ->
  In n (seq 0 (Z.to_nat (Zfloor ((printWidth i + printHeight i) / axisStep i) + 1))) ->
  0 <= INR n * axisStep i <= printWidth i + printHeight i.
Proof.
  intros Hs Hn. apply in_seq in Hn.
  pose proof (axisStep_pos i Hs) as Ha.
  split; [apply Rmult_le_pos; [apply pos_INR | lra] |].
  assert (Hle : (Z.of_nat n <= Zfloor ((printWidth i + printHeight i) / axisStep i))%Z)
    by lia.
  pose proof (Zfloor_bound ((printWidth i + printHeight i) / axisStep i)) as [Hf _].
  assert (H1 : INR n <= (printWidth i + printHeight i) / axisStep i).
  { rewrite INR_IZR_INZ. apply IZR_le in Hle. lra. }
  apply Rmult_le_compat_r with (r := axisStep i) in H1; [| lra].
  unfold Rdiv in H1. rewrite Rmult_assoc, Rinv_l in H1 by lra. lra.
Qed.

(** X25.  The diagonals are parallel lines, [spacing] apart.  For a positive
    line spacing and every index [n] of the diagonal loop, both ends of
    diagonal [n] lie in the print rectangle on the line
    [x + y = n * spacing * sqrt 2] (coordinates relative to the corner of the
    print area); the lines of two consecutive diagonals are therefore
    [spacing * sqrt 2 / sqrt 2 = spacing] apart. *)
Theorem diagonals_are_parallel_lines (i : Inputs) (n : nat) :
  0 < spacing i -> 0 <= printWidth i -> 0 <= printHeight i ->
  In n (seq 0 (Z.to_nat (Zfloor ((printWidth i + printHeight i) / axisStep i) + 1))) ->
  let '(startX, startY, endX, endY) := diagonal_span i n in
  startX + startY = INR n * axisStep i /\
  endX + endY = INR n * axisStep i /\
  0 <= startX <= printWidth i /\ 0 <= startY <= printHeight i /\
  0 <= endX <= printWidth i /\ 0 <= endY <= printHeight i /\
  (INR (S n) * axisStep i - INR n * axisStep i) / sqrt 2 = spacing i.
Proof.
  intros Hs Hw Hh Hn.
  pose proof (diagonal_index_fits i n Hs Hn) as Hsum.
  pose proof (diagonal_ends_on_line i n Hw Hh Hsum) as Hl.
  destruct (diagonal_span i n) as [[[sx sy] ex] ey] eqn:E.
  pose proof (diagonal_span_box i n sx sy ex ey Hw Hh E) as Hbox.
  unfold diagonal_span in E.
  destruct (diagonal_ends i n) as [[[p1x p1y] p2x] p2y].
  destruct Hl as [H1 H2].
  assert (Hd : (INR (S n) * axisStep i - INR n * axisStep i) / sqrt 2 = spacing i).
  { rewrite S_INR. unfold axisStep. field. apply sqrt2_neq_0. }
  destruct (Nat.even n); injection E as <- <- <- <-; repeat split;
    try tauto; try lra.
Qed.

Lemma diagonals_are_parallel_lines_witness :
  let '(startX, startY, endX, endY) := diagonal_span Samples.diagonal_inputs 1 in
  startX + startY = INR 1 * axisStep Samples.diagonal_inputs /\
  endX + endY = INR 1 * axisStep Samples.diagonal_inputs.
Proof.
  pose proof (diagonals_are_parallel_lines Samples.diagonal_inputs 1) as H.
  destruct (diagonal_span Samples.diagonal_inputs 1) as [[[sx sy] ex] ey].
  destruct H as [H1 [H2 _]].
  - simpl. lra.
  - simpl. lra.
  - simpl. lra.
  - apply in_seq. split; [lia |].
    assert (Hf : (1 <= Zfloor ((printWidth Samples.diagonal_inputs
                                + printHeight Samples.diagonal_inputs)
                               / axisStep Samples.diagonal_inputs))%Z).
    { apply Zfloor_lub. unfold axisStep. simpl.
      pose proof Rlt_sqrt2_0 as Hp.
      assert (Hq : sqrt 2 <= 2).
      { rewrite <- (sqrt_square 2) at 2 by lra. apply sqrt_le_1_alt. lra. }
      apply Rmult_le_reg_r with (0.6 * sqrt 2); [lra |].
      unfold Rdiv. rewrite Rmult_assoc, Rinv_l by lra. lra. }
    lia.
  - split; assumption.
Defined.

(** X26.  The diagonal path never makes its opening travel.  Diagonal 0 is
    the corner point alone, shorter than 0.01 mm, so the loop skips it: the
    pass for index 0, the only one that would move with [isConnect = true],
    leaves the state as it is, and the first diagonal drawn is reached by an
    ordinary smart move. *)
Theorem diagonal_first_line_is_skipped (i : Inputs) (innerRadius : R) (st : State) :
  0 <= printWidth i -> 0 <= printHeight i ->
  diagonal_line i innerRadius st 0 = st /\
  diagonal_path i innerRadius st =
  fold_left (diagonal_line i innerRadius)
    (seq 1 (Z.to_nat (Zfloor ((printWidth i + printHeight i) / axisStep i) + 1) - 1)) st.
Proof.
  intros Hw Hh.
  assert (H0 : diagonal_line i innerRadius st 0 = st).
  { unfold diagonal_line, diagonal_span, diagonal_ends. cbv zeta.
    cbn [Nat.even INR]. rewrite Rmult_0_l.
    rewrite (Rleb_true 0 (printHeight i) Hh), (Rleb_true 0 (printWidth i) Hw).
    rewrite (clamp_id 0 (printWidth i) 0) by lra.
    rewrite (clamp_id 0 (printHeight i) 0) by lra.
    replace (0 - 0) with 0 by ring.
    rewrite hypot_x0 by lra. rewrite Rltb_true by lra. reflexivity. }
  split; [exact H0 |].
  unfold diagonal_path. cbv zeta.
  destruct (Z.to_nat (Zfloor ((printWidth i + printHeight i) / axisStep i) + 1))
    as [| m]; [reflexivity |].
  replace (S m - 1)%nat with m by lia.
  cbn [seq fold_left]. rewrite H0. reflexivity.
Qed.

Lemma diagonal_first_line_is_skipped_witness :
  diagonal_line Samples.diagonal_inputs 0 Runs.start_state 0 = Runs.start_state.
Proof.
  destruct (diagonal_first_line_is_skipped Samples.diagonal_inputs 0 Runs.start_state)
    as [H _]; [simpl; lra | simpl; lra | exact H].
Defined.

End ArtworkRuns.

(** ** The base generators, move by move *)

Section BaseFacts.
Import Core Trace Ledger.
Local Open Scope R_scope.

Ltac peel tac := eapply appends_trans; [| tac].

Lemma hypot_polar_abs rad a : hypot (rad * cos a) (rad * sin a) = Rabs rad.
Proof.
  unfold hypot.
  replace (rad * cos a * (rad * cos a) + rad * sin a * (rad * sin a))
    with (Rsqr rad * (Rsqr (sin a) + Rsqr (cos a))) by (unfold Rsqr; ring).
  rewrite sin2_cos2, Rmult_1_r. apply sqrt_Rsqr_abs.
Qed.

Lemma hypot_abs0 a : hypot a 0 = Rabs a.
Proof.
  unfold hypot. replace (a * a + 0 * 0) with (Rsqr a) by (unfold Rsqr; ring).
  apply sqrt_Rsqr_abs.
Qed.

Lemma hypot_0abs a : hypot 0 a = Rabs a.
Proof.
  unfold hypot. replace (0 * 0 + a * a) with (Rsqr a) by (unfold Rsqr; ring).
  apply sqrt_Rsqr_abs.
Qed.

Lemma infill_on_circle fl yRel (sign : R) :
  - fl <= yRel <= fl -> sign * sign = 1 ->
  hypot (sign * sqrt (Rmax 0 (fl ^ 2 - yRel ^ 2))) yRel = fl.
Proof.
  intros Hy Hs.
  assert (Hfl : 0 <= fl) by lra.
  assert (Hd : 0 <= fl ^ 2 - yRel ^ 2).
  { replace (fl ^ 2 - yRel ^ 2) with ((fl - yRel) * (fl + yRel)) by ring.
    apply Rmult_le_pos; lra. }
  rewrite Rmax_right by exact Hd.
  unfold hypot.
  replace (sign * sqrt (fl ^ 2 - yRel ^ 2) * (sign * sqrt (fl ^ 2 - yRel ^ 2))
           + yRel * yRel)
    with (sign * sign * (sqrt (fl ^ 2 - yRel ^ 2) * sqrt (fl ^ 2 - yRel ^ 2))
          + yRel * yRel) by ring.
  rewrite Hs, sqrt_sqrt by exact Hd.
  replace (1 * (fl ^ 2 - yRel ^ 2) + yRel * yRel) with (fl * fl) by ring.
  now apply sqrt_square.
Qed.

Lemma segment_back lo hi a b t :
  lo <= a <= hi -> lo <= b <= hi -> 0 <= t <= 1 -> lo <= b - (b - a) * t <= hi.
Proof.
  intros Ha Hb Ht. replace (b - (b - a) * t) with (b + (a - b) * t) by ring.
  now apply segment_in_box.
Qed.

Lemma seg_fraction_short k n : In k (seq 1 (n - 1)) -> 0 <= INR k / INR n <= 1.
Proof.
  intros Hk. apply in_seq in Hk.
  assert (H1 : INR k <= INR n) by (apply le_INR; lia).
  assert (H0 : 0 < INR k) by (apply lt_0_INR; lia).
  apply div_unit; lra.
Qed.

Lemma wall_inset_range wall :
  In wall (seq 0 numWalls) -> 0 <= INR wall * wallSpacing <= 0.84.
Proof.
  intros H. apply in_seq in H. unfold numWalls in H. unfold wallSpacing.
  assert (H0 : 0 <= INR wall) by apply pos_INR.
  assert (H2 : INR wall <= 2).
  { replace 2 with (INR 2) by (simpl; lra). apply le_INR. lia. }
  lra.
Qed.

(** From here on one set of inputs, a property [P] of instructions and a
    set [Q] of points such that [P] holds of every base move to a point of
    [Q] and of every instruction that does not move in XY. *)
Variable i : Inputs.
Variable P : Instr -> Prop.
Variable Q : R -> R -> Prop.
Hypothesis HPp :
  forall x y e f, Q x y -> base_move i (Print x y e f) -> P (Print x y e f).
Hypothesis HPt : forall x y, Q x y -> P (Travel x y).
Hypothesis HPo : forall ins, endpoint ins = None -> P ins.

Lemma appends_push st st' ins :
  appends P st st' -> P ins -> extruded [ins] = 0 -> appends P st (push ins st').
Proof.
  intros H HP He. eapply appends_trans; [exact H |].
  exists [ins]. cbn [push gcode totalE]. split; [reflexivity |].
  split; [repeat constructor; exact HP | rewrite He; ring].
Qed.

Lemma appends_set_prev x y st st' :
  appends P st st' -> appends P st (set_prev x y st').
Proof. intros [new H]. exists new. exact H. Qed.

Lemma writeBaseSegment_appends x y speed st :
  Q x y -> speed = baseSpeed i \/ speed = baseSpeed i * 0.5 ->
  appends P st (writeBaseSegment i x y speed st).
Proof.
  intros HQ Hs. unfold writeBaseSegment. cbv zeta.
  destruct (Rltb_spec (hypot (x - prevX st) (y - prevY st)) 0.01) as [Hlt | Hge];
    [apply appends_refl |].
  eexists [_]. cbn [set_prev add_totalE push gcode totalE extruded].
  split; [reflexivity |]. split; [| ring].
  repeat constructor. apply HPp; [exact HQ |].
  cbn. split; [exact Hs |].
  exists (hypot (x - prevX st) (y - prevY st)). split; [lra | reflexivity].
Qed.

Lemma infill_line_appends xa xb yv speed s :
  Q xa yv -> Q xb yv -> speed = baseSpeed i \/ speed = baseSpeed i * 0.5 ->
  appends P (fst s) (fst (infill_line i xa xb yv speed s)).
Proof.
  intros Ha Hb Hs. unfold infill_line. destruct s as [st g]. cbn [fst].
  destruct g; cbn [fst];
    peel ltac:(apply writeBaseSegment_appends; assumption);
    apply writeBaseSegment_appends; assumption.
Qed.

Lemma for_real_appends (body : R -> State * bool -> State * bool) (lo hi step : R) :
  0 < step ->
  (forall v s, lo <= v <= hi -> appends P (fst s) (fst (body v s))) ->
  forall (fuel : nat) (v : R) (s res : State * bool),
    lo <= v -> for_real fuel v hi step body s = Some res ->
    appends P (fst s) (fst res).
Proof.
  intros Hstep Hbody. induction fuel as [| fuel IH]; intros v s res Hv;
    cbn [for_real]; destruct (Rleb_spec v hi) as [Hle | Hgt];
    try discriminate;
    try (intros E; injection E as <-; apply appends_refl).
  intros E. apply IH in E; [| lra].
  eapply appends_trans; [| exact E]. apply Hbody. lra.
Qed.

Lemma for_each_appends_partial {A : Type} (body : A -> State -> option State) :
  (forall a st st', body a st = Some st' -> appends P st st') ->
  forall (l : list A) st st', for_each l body st = Some st' -> appends P st st'.
Proof.
  intros H. induction l as [| a l IH]; intros st st'; cbn [for_each].
  - intros E. injection E as <-. apply appends_refl.
  - destruct (body a st) as [st1 |] eqn:E1; [| discriminate].
    intros E. eapply appends_trans; [apply (H _ _ _ E1) | apply (IH _ _ E)].
Qed.

(** *** Rectangular and square base *)

Section Rect.
Variable ox oy w h : R.
Hypothesis HR :
  forall x y,
    (1.26 <= w -> 1.26 <= h -> ox <= x <= ox + w /\ oy <= y <= oy + h) -> Q x y.

Lemma rect_wall_appends st wall :
  In wall (seq 0 numWalls) -> appends P st (rect_wall i ox oy w h st wall).
Proof.
  intros Hwall. pose proof (wall_inset_range wall Hwall) as Hin.
  unfold rect_wall. cbv zeta.
  set (inset := INR wall * wallSpacing) in *.
  peel ltac:(apply fold_appends; intros k s Hk;
             pose proof (seg_fraction_short k _ Hk) as Ht;
             apply writeBaseSegment_appends; [| left; reflexivity];
             apply HR; intros Hw Hh; split; [lra |];
             apply segment_back; [lra | lra | exact Ht]).
  peel ltac:(apply fold_appends; intros k s Hk;
             pose proof (seg_fraction k _ Hk) as Ht;
             apply writeBaseSegment_appends; [| left; reflexivity];
             apply HR; intros Hw Hh; split; [| lra];
             apply segment_back; [lra | lra | exact Ht]).
  peel ltac:(apply fold_appends; intros k s Hk;
             pose proof (seg_fraction k _ Hk) as Ht;
             apply writeBaseSegment_appends; [| left; reflexivity];
             apply HR; intros Hw Hh; split; [lra |];
             apply segment_in_box; [lra | lra | exact Ht]).
  peel ltac:(apply fold_appends; intros k s Hk;
             pose proof (seg_fraction k _ Hk) as Ht;
             apply writeBaseSegment_appends; [| left; reflexivity];
             apply HR; intros Hw Hh; split; [| lra];
             apply segment_in_box; [lra | lra | exact Ht]).
  apply appends_set_prev, appends_push; [apply appends_refl | | reflexivity].
  apply HPt, HR. intros Hw Hh. lra.
Qed.

Lemma rect_layer_appends layer st st' :
  rect_layer i ox oy w h layer st = Some st' -> appends P st st'.
Proof.
  unfold rect_layer. cbv zeta. rewrite wall_inset.
  destruct (for_real _ _ _ _ _ _) as [[st1 g] |] eqn:E; [| discriminate].
  intros H. injection H as <-.
  apply appends_push; [| apply HPo; reflexivity | reflexivity].
  eapply appends_trans; cycle 1.
  - apply (for_real_appends _ (oy + 1.26) _ _ baseOverlap_pos) in E;
      [exact E | | lra].
    intros v s Hv. apply infill_line_appends.
    + apply HR. intros Hw Hh. lra.
    + apply HR. intros Hw Hh. lra.
    + destruct (Rltb _ _); [right | left]; reflexivity.
  - cbn [fst].
    apply appends_set_prev.
    apply appends_push; [| apply HPo; reflexivity | reflexivity].
    apply appends_push; [| apply HPo; reflexivity | reflexivity].
    apply appends_push; [| apply HPt, HR; intros Hw Hh; lra | reflexivity].
    apply appends_push; [| apply HPo; reflexivity | reflexivity].
    apply appends_push; [| apply HPo; reflexivity | reflexivity].
    eapply appends_trans; cycle 1.
    + apply fold_appends. intros wall s Hwall. now apply rect_wall_appends.
    + apply appends_push; [apply appends_refl | apply HPo; reflexivity | reflexivity].
Qed.

Lemma rect_layers_appends (n : nat) st st' :
  for_each (seq 0 n) (rect_layer i ox oy w h) st = Some st' -> appends P st st'.
Proof.
  apply for_each_appends_partial. intros layer s s'. apply rect_layer_appends.
Qed.

End Rect.

(** *** Circular base *)

Section Disc.
Hypothesis HD :
  forall x y,
    (0.63 <= baseRadius i ->
     hypot (x - centerX i) (y - centerY i) <= baseRadius i) -> Q x y.

Lemma circular_wall_appends st wall :
  In wall (seq 0 numWalls) -> appends P st (circular_wall i st wall).
Proof.
  intros Hwall. pose proof (wall_inset_range wall Hwall) as Hin.
  unfold circular_wall. cbv zeta.
  set (rw := baseRadius i - INR wall * wallSpacing) in *.
  assert (Hrw : 0.63 <= baseRadius i -> Rabs rw <= baseRadius i).
  { intros Hb. apply Rabs_le. unfold rw. lra. }
  peel ltac:(apply fold_appends; intros k s Hk;
             apply writeBaseSegment_appends; [| left; reflexivity];
             apply HD; intros Hb;
             match goal with
             | |- hypot (_ + rw * cos ?a - _) (_ + rw * sin ?a - _) <= _ =>
                 replace (centerX i + rw * cos a - centerX i) with (rw * cos a) by ring;
                 replace (centerY i + rw * sin a - centerY i) with (rw * sin a) by ring;
                 rewrite hypot_polar_abs; now apply Hrw
             end).
  apply appends_set_prev, appends_push; [apply appends_refl | | reflexivity].
  apply HPt, HD. intros Hb.
  replace (centerX i + rw - centerX i) with rw by ring.
  replace (centerY i - centerY i) with 0 by ring.
  rewrite hypot_abs0. now apply Hrw.
Qed.

Lemma circular_layer_appends layer st st' :
  circular_layer i layer st = Some st' -> appends P st st'.
Proof.
  unfold circular_layer. cbv zeta. rewrite wall_inset.
  set (fl := baseRadius i - 1.26).
  destruct (for_real _ _ _ _ _ _) as [[st1 g] |] eqn:E; [| discriminate].
  intros H. injection H as <-.
  apply appends_push; [| apply HPo; reflexivity | reflexivity].
  eapply appends_trans; cycle 1.
  - apply (for_real_appends _ (- fl) _ _ baseOverlap_pos) in E;
      [exact E | | lra].
    intros v s Hv.
    assert (Hfl : 0 <= fl) by lra.
    apply infill_line_appends.
    + apply HD. intros Hb.
      replace (centerX i - sqrt (Rmax 0 (fl ^ 2 - v ^ 2)) - centerX i)
        with (-1 * sqrt (Rmax 0 (fl ^ 2 - v ^ 2))) by ring.
      replace (centerY i + v - centerY i) with v by ring.
      rewrite infill_on_circle by lra. unfold fl. lra.
    + apply HD. intros Hb.
      replace (centerX i + sqrt (Rmax 0 (fl ^ 2 - v ^ 2)) - centerX i)
        with (1 * sqrt (Rmax 0 (fl ^ 2 - v ^ 2))) by ring.
      replace (centerY i + v - centerY i) with v by ring.
      rewrite infill_on_circle by lra. unfold fl. lra.
    + destruct (Rltb _ _); [right | left]; reflexivity.
  - cbn [fst].
    apply appends_set_prev.
    apply appends_push; [| apply HPo; reflexivity | reflexivity].
    apply appends_push; [| apply HPo; reflexivity | reflexivity].
    apply appends_push; [| | reflexivity].
    2:{ apply HPt, HD. intros Hb.
        replace (centerX i - centerX i) with 0 by ring.
        replace (centerY i - fl - centerY i) with (- fl) by ring.
        rewrite hypot_0abs. apply Rabs_le. unfold fl. lra. }
    apply appends_push; [| apply HPo; reflexivity | reflexivity].
    apply appends_push; [| apply HPo; reflexivity | reflexivity].
    eapply appends_trans; cycle 1.
    + apply fold_appends. intros wall s Hwall. now apply circular_wall_appends.
    + apply appends_push; [apply appends_refl | apply HPo; reflexivity | reflexivity].
Qed.

End Disc.

(** *** The three generators *)

Hypothesis HQ :
  forall x y, (1.26 <= printDim i -> in_print_rect i x y) -> Q x y.

Lemma generateBase_appends st st' m :
  generateBase i st = Some (st', m) -> appends P st st'.
Proof.
  pose proof (printDim_le i) as [Hw Hh].
  unfold generateBase.
  destruct (is_path i "spiral").
  - unfold generateCircularBase.
    destruct (for_each _ _ _) as [s |] eqn:E; [| discriminate].
    intros H. injection H as <- _.
    eapply appends_trans; cycle 1.
    + eapply for_each_appends_partial; [| exact E].
      intros layer s0 s1. apply circular_layer_appends.
      intros x y Hd. apply HQ. intros H126.
      assert (Hb : 0.63 <= baseRadius i) by (unfold baseRadius; lra).
      specialize (Hd Hb).
      pose proof (hypot_abs_l (x - centerX i) (y - centerY i)) as Hx.
      pose proof (hypot_abs_r (x - centerX i) (y - centerY i)) as Hy.
      apply abs_bound in Hx. apply abs_bound in Hy.
      unfold in_print_rect. unfold baseRadius, centerX, centerY in *. lra.
    + apply appends_push; [apply appends_refl | apply HPo; reflexivity | reflexivity].
  - destruct (is_path i "squareSpiral" || is_path i "hilbert").
    + unfold generateSquareBase.
      destruct (for_each _ _ _) as [s |] eqn:E; [| discriminate].
      intros H. injection H as <- _.
      eapply appends_trans; cycle 1.
      * eapply rect_layers_appends; [| exact E].
        intros x y Hd. apply HQ. intros H126.
        apply square_in_rect. unfold in_print_square. apply Hd; lra.
      * apply appends_push; [apply appends_refl | apply HPo; reflexivity | reflexivity].
    + unfold generateRectangularBase.
      destruct (for_each _ _ _) as [s |] eqn:E; [| discriminate].
      intros H. injection H as <- _.
      eapply appends_trans; cycle 1.
      * eapply rect_layers_appends; [| exact E].
        intros x y Hd. apply HQ. intros H126.
        unfold in_print_rect. apply Hd; lra.
      * apply appends_push; [apply appends_refl | apply HPo; reflexivity | reflexivity].
Qed.

End BaseFacts.

Section BaseRuns.
Import Core Trace Ledger.
Local Open Scope R_scope.

Lemma generateBase_total i st : exists st' m, generateBase i st = Some (st', m).
Proof.
  unfold generateBase.
  destruct (is_path i "spiral").
  - destruct (generateCircularBase_margin i st) as [st' E]. eauto.
  - destruct (is_path i "squareSpiral" || is_path i "hilbert").
    + destruct (generateSquareBase_margin i st) as [st' E]. eauto.
    + destruct (generateRectangularBase_margin i st) as [st' E]. eauto.
Qed.


(** X28.  The base stays on the print area.  If the smaller print dimension
    is at least 1.26 mm (three wall spacings), every move that a base
    generator appends, rapid or printing, walls and infill, ends inside the
    print rectangle, whatever the shape and the number of layers. *)
Theorem base_stays_in_print_area (i : Inputs) (st : State) :
  1.26 <= printDim i ->
  exists st' m,
    generateBase i st = Some (st', m) /\ appends (lands (in_print_rect i)) st st'.
Proof.
  intros Hd.
  destruct (generateBase_total i st) as [st' [m E]].
  exists st', m. split; [exact E |].
  apply (generateBase_appends i (lands (in_print_rect i)) (in_print_rect i))
    with (m := m); try exact E.
  - intros x y e f H _. exact H.
  - intros x y H. exact H.
  - intros ins H. unfold lands. rewrite H. exact I.
  - intros x y H. now apply H.
Qed.

Lemma base_stays_in_print_area_witness :
  exists st' m,
    generateBase Runs.spiral_base_inputs Runs.start_state = Some (st', m) /\
    appends (lands (in_print_rect Runs.spiral_base_inputs)) Runs.start_state st'.
Proof.
  apply base_stays_in_print_area.
  unfold printDim. simpl. unfold Rmin. destruct (Rle_dec 100 100); lra.
Defined.

End BaseRuns.
